(** * Validators: canonical warp ordering and the validator manager

    A shallow embedding of [warp_ordering.go] (FlattenValidatorSet,
    FilterValidators, SumWeight) and of the validator manager
    (AddStaker, AddWeight, RemoveWeight, the read accessors, GetMap),
    with the properties of the specification proved about it. *)

From Stdlib Require Import NArith ZArith Lia Strings.Byte.
From stdpp Require Import base decidable option countable list sorting gmap.

Local Open Scope N_scope.

(** ** Identifiers, bytes and unsigned 64-bit weights *)

(** [ids.NodeID] is a [20]byte array and [ids.ID] a [32]byte array.  The
    code only uses them as map keys and compares them; each is represented
    by the number its bytes spell. *)
Module ids.
Abbreviation NodeID := N (only parsing).
Abbreviation ID := N (only parsing).
Definition Empty : N := 0.
End ids.

#[global] Instance byte_eq_dec : EqDecision byte := Byte.byte_eq_dec.

#[global] Program Instance byte_countable : Countable byte :=
  inj_countable Byte.to_N Byte.of_N _.
Next Obligation. intros x. apply Byte.of_to_N. Qed.

(** [math.MaxUint64]. *)
Definition MaxUint64 : N := 18446744073709551615.

(** The values of Go's [uint64]. *)
Definition uint64 (n : N) : Prop := n <= MaxUint64.

(** Arithmetic of Go's [uint64]: [+=] and [-=] wrap around. *)
Definition wadd (a b : N) : N := (a + b) mod 2 ^ 64.
Definition wsub (a b : N) : N := (a + 2 ^ 64 - b mod 2 ^ 64) mod 2 ^ 64.

(** ** Errors *)

(** The sentinel errors of the package, [math.ErrOverflow] of the
    [luxfi/math] dependency, and [fmt.Errorf] with one or two [%w] verbs
    (the text of the message is not modelled). *)
Inductive error : Type :=
  | ErrUnknownValidator
  | ErrWeightOverflow
  | ErrOverflow
  | Errorf1 (e : error)
  | Errorf2 (e1 e2 : error).

#[global] Instance error_eq_dec : EqDecision error.
Proof. solve_decision. Defined.

(** [errors.Is]. *)
Fixpoint Is (err target : error) : bool :=
  bool_decide (err = target) ||
  match err with
  | Errorf1 e => Is e target
  | Errorf2 e1 e2 => Is e1 target || Is e2 target
  | _ => false
  end.

(** [math.Add64] of [luxfi/math]: addition that reports an overflow
    instead of wrapping; on overflow the number returned is zero. *)
Definition Add64 (a b : N) : N * option error :=
  if MaxUint64 - b <? a then (0, Some ErrOverflow) else (a + b, None).

(** ** [bytes.Compare] *)

(** Lexicographic comparison of byte slices, bytes taken as unsigned
    numbers; the result is -1, 0 or +1. *)
Fixpoint bytes_Compare (a b : list byte) : Z :=
  match a, b with
  | [], [] => 0
  | [], _ :: _ => -1
  | _ :: _, [] => 1
  | x :: a', y :: b' =>
      match N.compare (Byte.to_N x) (Byte.to_N y) with
      | Lt => -1
      | Gt => 1
      | Eq => bytes_Compare a' b'
      end
  end%Z.

(** ** The records of the package *)

Module GetValidatorOutput.
Record t : Type := mk {
  NodeID : ids.NodeID;
  PublicKey : list byte;
  RingtailPubKey : list byte;
  Light : N;
  Weight : N;
  TxID : ids.ID
}.
End GetValidatorOutput.

#[global] Instance GetValidatorOutput_eq_dec : EqDecision GetValidatorOutput.t.
Proof. solve_decision. Defined.

Module CanonicalValidator.
Record t (PK : Type) : Type := mk {
  PublicKey : PK;
  PublicKeyBytes : list byte;
  Weight : N;
  NodeIDs : list ids.NodeID
}.
Arguments mk {PK} _ _ _ _.
Arguments PublicKey {PK} _.
Arguments PublicKeyBytes {PK} _.
Arguments Weight {PK} _.
Arguments NodeIDs {PK} _.

(** The method [Compare] of a canonical validator. *)
Definition Compare {PK} (v o : t PK) : Z :=
  bytes_Compare (PublicKeyBytes v) (PublicKeyBytes o).
End CanonicalValidator.

Module CanonicalValidatorSet.
Record t (PK : Type) : Type := mk {
  Validators : list (CanonicalValidator.t PK);
  TotalWeight : N
}.
Arguments mk {PK} _ _.
Arguments Validators {PK} _.
Arguments TotalWeight {PK} _.

(** The zero value [CanonicalValidatorSet{}]. *)
Definition zero {PK} : t PK := mk [] 0.
End CanonicalValidatorSet.

(** ** [slices.SortFunc] *)

(** The order [SortFunc] sorts by: [a] may stand before [b] when
    [cmp a b <= 0]. *)
Definition cmp_le {A} (cmp : A → A → Z) : relation A := λ a b, (cmp a b <= 0)%Z.

#[global] Instance cmp_le_dec {A} (cmp : A → A → Z) a b : Decision (cmp_le cmp a b).
Proof. unfold cmp_le. apply _. Defined.

(** [slices.SortFunc] is a library sort that is not stable.  The slices it
    gets here hold pairwise different keys (they are the values of a map
    keyed by those bytes), so every correct sort returns the same slice
    ([sorted_unique_keys] below); a merge sort stands for it. *)
Definition SortFunc {A} (cmp : A → A → Z) (x : list A) : list A :=
  merge_sort (cmp_le cmp) x.

(** ** FlattenValidatorSet *)

Section Flatten.
(** The BLS primitive of [luxfi/crypto/bls]: a type of public keys,
    [bls.PublicKeyFromCompressedBytes] (which fails on bytes that are not
    a key) and [bls.PublicKeyToUncompressedBytes]. *)
Context {PK : Type}.
Variable PublicKeyFromCompressedBytes : list byte → option PK.
Variable PublicKeyToUncompressedBytes : PK → list byte.

(** The variables of the loop: [pkToValidator] and [totalWeight]. *)
Record loop_state : Type := mk_loop_state {
  pkToValidator : gmap (list byte) (CanonicalValidator.t PK);
  totalWeight : N
}.

(** One iteration of [for _, vdr := range vdrSet]: either the state the
    next iteration starts from, or the error the function returns. *)
Definition flatten_step (st : loop_state) (vdr : GetValidatorOutput.t)
  : loop_state + error :=
  match Add64 (totalWeight st) (GetValidatorOutput.Weight vdr) with
  | (_, Some err) => inr (Errorf2 ErrWeightOverflow err)
  | (totalWeight', None) =>
      if (length (GetValidatorOutput.PublicKey vdr) =? 0)%nat then
        inl (mk_loop_state (pkToValidator st) totalWeight')
      else
        match PublicKeyFromCompressedBytes (GetValidatorOutput.PublicKey vdr) with
        | None => inl (mk_loop_state (pkToValidator st) totalWeight')
        | Some blsPK =>
            let pkBytes := PublicKeyToUncompressedBytes blsPK in
            match pkToValidator st !! pkBytes with
            | Some existingVdr =>
                match Add64 (CanonicalValidator.Weight existingVdr)
                            (GetValidatorOutput.Weight vdr) with
                | (_, Some err) => inr (Errorf2 ErrWeightOverflow err)
                | (w, None) =>
                    let merged :=
                      CanonicalValidator.mk
                        (CanonicalValidator.PublicKey existingVdr)
                        (CanonicalValidator.PublicKeyBytes existingVdr)
                        w
                        (CanonicalValidator.NodeIDs existingVdr
                           ++ [GetValidatorOutput.NodeID vdr]) in
                    inl (mk_loop_state (<[pkBytes := merged]> (pkToValidator st))
                                       totalWeight')
                end
            | None =>
                let newVdr :=
                  CanonicalValidator.mk blsPK pkBytes
                    (GetValidatorOutput.Weight vdr)
                    [GetValidatorOutput.NodeID vdr] in
                inl (mk_loop_state (<[pkBytes := newVdr]> (pkToValidator st))
                                   totalWeight')
            end
        end
  end.

(** The loop over the records in the order the map range yields them. *)
Fixpoint flatten_loop (st : loop_state) (vdrs : list GetValidatorOutput.t)
  : loop_state + error :=
  match vdrs with
  | [] => inl st
  | vdr :: rest =>
      match flatten_step st vdr with
      | inl st' => flatten_loop st' rest
      | inr err => inr err
      end
  end.

(** [slices.Collect(maps.Values(m))], in the order of [map_to_list]. *)
Definition Collect_Values (m : gmap (list byte) (CanonicalValidator.t PK))
  : list (CanonicalValidator.t PK) :=
  (map_to_list m).*2.

(** [FlattenValidatorSet] on a snapshot whose range yields the records in
    the order [vdrs]. *)
Definition FlattenValidatorSet_range (vdrs : list GetValidatorOutput.t)
  : CanonicalValidatorSet.t PK * option error :=
  match flatten_loop (mk_loop_state ∅ 0) vdrs with
  | inr err => (CanonicalValidatorSet.zero, Some err)
  | inl st =>
      let vdrList := Collect_Values (pkToValidator st) in
      (CanonicalValidatorSet.mk
         (SortFunc CanonicalValidator.Compare vdrList) (totalWeight st),
       None)
  end.

(** [FlattenValidatorSet] on a snapshot [map[ids.NodeID]*GetValidatorOutput],
    ranged over in the order of [map_to_list]. *)
Definition FlattenValidatorSet (vdrSet : gmap ids.NodeID GetValidatorOutput.t)
  : CanonicalValidatorSet.t PK * option error :=
  FlattenValidatorSet_range (map_to_list vdrSet).*2.

(** [FilterValidators]: [indices] is a [set.Bits], a bit set held in a
    non-negative big integer; [BitLen] is the length of that integer in
    bits and [Contains i] tests bit [i]. *)
Definition BitLen (indices : N) : nat := N.size_nat indices.
Definition Contains (indices : N) (i : nat) : bool := N.testbit indices (N.of_nat i).

(** The loop [for i, vdr := range vdrs] of [FilterValidators], from index
    [i] on. *)
Fixpoint filter_loop (indices : N) (i : nat) (vdrs filteredVdrs : list (CanonicalValidator.t PK))
  : list (CanonicalValidator.t PK) :=
  match vdrs with
  | [] => filteredVdrs
  | vdr :: rest =>
      if negb (Contains indices i) then filter_loop indices (S i) rest filteredVdrs
      else filter_loop indices (S i) rest (filteredVdrs ++ [vdr])
  end.

Definition FilterValidators (indices : N) (vdrs : list (CanonicalValidator.t PK))
  : list (CanonicalValidator.t PK) * option error :=
  if (length vdrs <? BitLen indices)%nat then
    ([], Some (Errorf1 ErrUnknownValidator))
  else (filter_loop indices 0 vdrs [], None).

(** [SumWeight]: the loop from the running [weight], then the function. *)
Fixpoint sum_loop (weight : N) (vdrs : list (CanonicalValidator.t PK)) : N * option error :=
  match vdrs with
  | [] => (weight, None)
  | vdr :: rest =>
      match Add64 weight (CanonicalValidator.Weight vdr) with
      | (_, Some err) => (0, Some (Errorf2 ErrWeightOverflow err))
      | (weight', None) => sum_loop weight' rest
      end
  end.

Definition SumWeight (vdrs : list (CanonicalValidator.t PK)) : N * option error :=
  sum_loop 0 vdrs.

(** *** What the loop computes, said without the loop *)

(** The key a record is filed under: the uncompressed bytes of its decoded
    public key; none when the bytes are empty or do not decode. *)
Definition decoded (vdr : GetValidatorOutput.t) : option PK :=
  if (length (GetValidatorOutput.PublicKey vdr) =? 0)%nat then None
  else PublicKeyFromCompressedBytes (GetValidatorOutput.PublicKey vdr).

Definition key_of (vdr : GetValidatorOutput.t) : option (list byte) :=
  PublicKeyToUncompressedBytes <$> decoded vdr.

(** The records filed under the key [k], in the order of the range. *)
Definition group (k : list byte) (vdrs : list GetValidatorOutput.t)
  : list GetValidatorOutput.t :=
  filter (λ vdr, key_of vdr = Some k) vdrs.

(** The sum of the weights of records, as a number without bound. *)
Definition sum_weights (vdrs : list GetValidatorOutput.t) : N :=
  foldr (λ vdr acc, GetValidatorOutput.Weight vdr + acc) 0 vdrs.

(** The canonical validator of a group: the key object of its first
    record, the sum of its weights, its node ids in order. *)
Definition entry_of (k : list byte) (g : list GetValidatorOutput.t)
  : option (CanonicalValidator.t PK) :=
  match g with
  | [] => None
  | vdr :: _ =>
      blsPK ← decoded vdr;
      Some (CanonicalValidator.mk blsPK k (sum_weights g)
              (GetValidatorOutput.NodeID <$> g))
  end.

(** Two canonical validators that differ at most in the order of their
    node ids and in the key object, which encodes to the same bytes. *)
Definition cv_equiv (a b : CanonicalValidator.t PK) : Prop :=
  CanonicalValidator.PublicKeyBytes a = CanonicalValidator.PublicKeyBytes b ∧
  PublicKeyToUncompressedBytes (CanonicalValidator.PublicKey a)
    = PublicKeyToUncompressedBytes (CanonicalValidator.PublicKey b) ∧
  CanonicalValidator.Weight a = CanonicalValidator.Weight b ∧
  CanonicalValidator.NodeIDs a ≡ₚ CanonicalValidator.NodeIDs b.

(** The sum of the weights of canonical validators, without bound. *)
Definition sum_cv_weights (vdrs : list (CanonicalValidator.t PK)) : N :=
  foldr (λ vdr acc, CanonicalValidator.Weight vdr + acc) 0 vdrs.

(** The sum of the weights of the canonical validators a map holds. *)
Definition map_weight (m : gmap (list byte) (CanonicalValidator.t PK)) : N :=
  sum_cv_weights (map_to_list m).*2.

(** The state of the loop after the records [p]. *)
Definition represents (p : list GetValidatorOutput.t) (st : loop_state) : Prop :=
  totalWeight st = sum_weights p ∧
  (∀ k, pkToValidator st !! k = entry_of k (group k p)) ∧
  map_weight (pkToValidator st) = sum_weights (filter (λ vdr, is_Some (key_of vdr)) p).

(** The validators of [vdrs] whose bit is set in [indices], each taken with
    its position, in the order of [vdrs]. *)
Definition selected (indices : N) (vdrs : list (CanonicalValidator.t PK))
  : list (CanonicalValidator.t PK) :=
  (filter (λ iv, N.testbit indices (N.of_nat iv.1) = true)
          (zip (seq 0 (length vdrs)) vdrs)).*2.

End Flatten.


(** ** The validator manager *)

Module Manager.

(** The manager holds its records behind pointers and hands these pointers
    out ([GetValidator], [GetMap]), and a Go map is a reference as well.
    The part of the Go heap the manager works on is modelled: the
    [GetValidatorOutput] objects and the [map[ids.NodeID]*GetValidatorOutput]
    objects, each under its address.  The field [validators] of the manager
    is the outer map; its mutex is not modelled, every method being one
    atomic step.  The listeners get node ids and weights, never a pointer,
    so the calls to them change nothing of what is modelled here. *)
Abbreviation loc := positive (only parsing).

Record state : Type := mk_state {
  objs : gmap loc GetValidatorOutput.t;
  sets : gmap loc (gmap ids.NodeID loc);
  validators : gmap ids.ID loc
}.

(** The object a pointer leads to.  A Go heap has no dangling pointers
    ([wf] below); the defaults are never reached from such a heap. *)
Definition zero_record : GetValidatorOutput.t :=
  GetValidatorOutput.mk 0 [] [] 0 0 0.
Definition deref (s : state) (p : loc) : GetValidatorOutput.t :=
  default zero_record (objs s !! p).
Definition deref_map (s : state) (mp : loc) : gmap ids.NodeID loc :=
  default ∅ (sets s !! mp).

(** [NewManager]. *)
Definition NewManager : state := mk_state ∅ ∅ ∅.

(** [if m.validators[netID] == nil { m.validators[netID] = make(...) }]:
    the state after it and the inner map of [netID]. *)
Definition ensure_net (s : state) (netID : ids.ID) : state * loc :=
  match validators s !! netID with
  | Some mp => (s, mp)
  | None =>
      let mp := fresh (dom (sets s)) in
      (mk_state (objs s) (<[mp := ∅]> (sets s)) (<[netID := mp]> (validators s)), mp)
  end.

(** [AddStaker]. *)
Definition AddStaker (s : state) (netID : ids.ID) (nodeID : ids.NodeID)
    (publicKey : list byte) (txID : ids.ID) (light : N) : state * option error :=
  let '(s1, mp) := ensure_net s netID in
  let p := fresh (dom (objs s1)) in
  let val := GetValidatorOutput.mk nodeID publicKey [] light light txID in
  (mk_state (<[p := val]> (objs s1))
            (<[mp := <[nodeID := p]> (deref_map s1 mp)]> (sets s1))
            (validators s1),
   None).

(** [AddWeight]. *)
Definition AddWeight (s : state) (netID : ids.ID) (nodeID : ids.NodeID) (light : N)
  : state * option error :=
  let '(s1, mp) := ensure_net s netID in
  match deref_map s1 mp !! nodeID with
  | None => (s1, None)
  | Some p =>
      let val := deref s1 p in
      let val' :=
        GetValidatorOutput.mk
          (GetValidatorOutput.NodeID val) (GetValidatorOutput.PublicKey val)
          (GetValidatorOutput.RingtailPubKey val)
          (wadd (GetValidatorOutput.Light val) light)
          (wadd (GetValidatorOutput.Weight val) light)
          (GetValidatorOutput.TxID val) in
      (mk_state (<[p := val']> (objs s1)) (sets s1) (validators s1), None)
  end.

(** [RemoveWeight]. *)
Definition RemoveWeight (s : state) (netID : ids.ID) (nodeID : ids.NodeID) (light : N)
  : state * option error :=
  match validators s !! netID with
  | None => (s, None)
  | Some mp =>
      match deref_map s mp !! nodeID with
      | None => (s, None)
      | Some p =>
          let val := deref s p in
          let val' :=
            if light <=? GetValidatorOutput.Light val then
              GetValidatorOutput.mk
                (GetValidatorOutput.NodeID val) (GetValidatorOutput.PublicKey val)
                (GetValidatorOutput.RingtailPubKey val)
                (GetValidatorOutput.Light val - light)
                (wsub (GetValidatorOutput.Weight val) light)
                (GetValidatorOutput.TxID val)
            else
              GetValidatorOutput.mk
                (GetValidatorOutput.NodeID val) (GetValidatorOutput.PublicKey val)
                (GetValidatorOutput.RingtailPubKey val)
                0 0
                (GetValidatorOutput.TxID val) in
          let s1 := mk_state (<[p := val']> (objs s)) (sets s) (validators s) in
          if GetValidatorOutput.Light val' =? 0 then
            let inner := delete nodeID (deref_map s1 mp) in
            let s2 := mk_state (objs s1) (<[mp := inner]> (sets s1)) (validators s1) in
            if (size inner =? 0)%nat then
              (mk_state (objs s2) (sets s2) (delete netID (validators s2)), None)
            else (s2, None)
          else (s1, None)
      end
  end.

(** [NumNets]. *)
Definition NumNets (s : state) : nat := size (validators s).

(** The two implementations of the interface [Set] the manager returns.
    A [validatorSet] is given by its one field, the map it holds; the
    object itself, which [GetValidators] allocates anew at every call, is
    not modelled. *)
Inductive Set_ : Type :=
  | validatorSet (validators : loc)
  | emptySet.

(** [GetValidators]. *)
Definition GetValidators (s : state) (netID : ids.ID) : Set_ * option error :=
  match validators s !! netID with
  | Some mp => (validatorSet mp, None)
  | None => (emptySet, None)
  end.

(** [GetValidator]: the pointer and [true], or [nil] and [false]. *)
Definition GetValidator (s : state) (netID : ids.ID) (nodeID : ids.NodeID)
  : option loc :=
  match validators s !! netID with
  | Some mp =>
      match deref_map s mp !! nodeID with
      | Some p => Some p
      | None => None
      end
  | None => None
  end.

(** [GetLight] and its alias [GetWeight]. *)
Definition GetLight (s : state) (netID : ids.ID) (nodeID : ids.NodeID) : N :=
  match GetValidator s netID nodeID with
  | Some p => GetValidatorOutput.Light (deref s p)
  | None => 0
  end.

Definition GetWeight (s : state) (netID : ids.ID) (nodeID : ids.NodeID) : N :=
  GetLight s netID nodeID.

(** The loop of [validatorSet.Light] over the records in the order the map
    range yields them, from the running [total]. *)
Fixpoint Light_loop (s : state) (total : N) (vs : list loc) : N :=
  match vs with
  | [] => total
  | v :: rest => Light_loop s (wadd total (GetValidatorOutput.Light (deref s v))) rest
  end.

(** [Light] of a [validatorSet], ranged over in the order of [map_to_list],
    and of an [emptySet]. *)
Definition Light (s : state) (set : Set_) : N :=
  match set with
  | validatorSet mp => Light_loop s 0 (map_to_list (deref_map s mp)).*2
  | emptySet => 0
  end.

(** [TotalLight] and its alias [TotalWeight]. *)
Definition TotalLight (s : state) (netID : ids.ID) : N * option error :=
  match GetValidators s netID with
  | (_, Some err) => (0, Some err)
  | (set, None) => (Light s set, None)
  end.

Definition TotalWeight (s : state) (netID : ids.ID) : N * option error :=
  TotalLight s netID.

(** [Count] and its alias [NumValidators]. *)
Definition Count (s : state) (netID : ids.ID) : nat :=
  match validators s !! netID with
  | Some subnet => size (deref_map s subnet)
  | None => 0%nat
  end.

Definition NumValidators (s : state) (netID : ids.ID) : nat := Count s netID.

(** The loop of [SubsetWeight] over the node ids in the order the range
    over the set yields them. *)
Fixpoint SubsetWeight_loop (s : state) (subnet : gmap ids.NodeID loc)
    (totalWeight : N) (nodeIDs : list ids.NodeID) : N :=
  match nodeIDs with
  | [] => totalWeight
  | nodeID :: rest =>
      match subnet !! nodeID with
      | Some vdr =>
          SubsetWeight_loop s subnet
            (wadd totalWeight (GetValidatorOutput.Weight (deref s vdr))) rest
      | None => SubsetWeight_loop s subnet totalWeight rest
      end
  end.

(** [SubsetWeight]; [set.Set[ids.NodeID]] is a finite set, ranged over in
    the order of [elements]. *)
Definition SubsetWeight (s : state) (netID : ids.ID) (nodeIDs : gset ids.NodeID)
  : N * option error :=
  match validators s !! netID with
  | Some subnet =>
      (SubsetWeight_loop s (deref_map s subnet) 0 (elements nodeIDs), None)
  | None => (0, None)
  end.

(** [GetMap]: a new map object, filled with the keys and the pointers of
    the inner map; the state with that object in the heap, and its
    address. *)
Definition GetMap (s : state) (netID : ids.ID) : state * loc :=
  let result := fresh (dom (sets s)) in
  match validators s !! netID with
  | Some subnet =>
      (mk_state (objs s) (<[result := deref_map s subnet]> (sets s)) (validators s),
       result)
  | None =>
      (mk_state (objs s) (<[result := ∅]> (sets s)) (validators s), result)
  end.

(** *** What a caller can do with the map [GetMap] returned *)

(** Statements on the map object at [vmap]: [delete(vmap, k)],
    [vmap[k] = p] and [clear(vmap)]. *)
Inductive map_op : Type :=
  | map_delete (k : ids.NodeID)
  | map_store (k : ids.NodeID) (p : loc)
  | map_clear.

Definition run_map_op (vmap : loc) (s : state) (op : map_op) : state :=
  let m := deref_map s vmap in
  let m' :=
    match op with
    | map_delete k => delete k m
    | map_store k p => <[k := p]> m
    | map_clear => ∅
    end in
  mk_state (objs s) (<[vmap := m']> (sets s)) (validators s).

(** The assignment [*p = val] through a pointer, which covers the
    assignments to single fields such as [vmap[k].Light = w]. *)
Definition store_record (s : state) (p : loc) (val : GetValidatorOutput.t) : state :=
  mk_state (<[p := val]> (objs s)) (sets s) (validators s).

(** *** The heaps of a Go program *)

(** [entry s netID nodeID p]: the registry holds the pointer [p] for the
    node [nodeID] of the network [netID]. *)
Definition entry (s : state) (netID : ids.ID) (nodeID : ids.NodeID) (p : loc) : Prop :=
  GetValidator s netID nodeID = Some p.

(** No pointer dangles, every [make] and every [&GetValidatorOutput{...}]
    made an object of its own: no two networks share an inner map and no
    two entries share a record. *)
Record wf (s : state) : Prop := mk_wf {
  wf_net : ∀ netID mp, validators s !! netID = Some mp → is_Some (sets s !! mp);
  wf_net_inj : ∀ netID netID' mp,
    validators s !! netID = Some mp → validators s !! netID' = Some mp →
    netID = netID';
  wf_obj : ∀ netID nodeID p, entry s netID nodeID p → is_Some (objs s !! p);
  wf_obj_inj : ∀ netID nodeID netID' nodeID' p,
    entry s netID nodeID p → entry s netID' nodeID' p →
    netID = netID' ∧ nodeID = nodeID'
}.

(** One call of a mutating method of the manager. *)
Inductive call : Type :=
  | CallAddStaker (netID : ids.ID) (nodeID : ids.NodeID) (publicKey : list byte)
      (txID : ids.ID) (light : N)
  | CallAddWeight (netID : ids.ID) (nodeID : ids.NodeID) (light : N)
  | CallRemoveWeight (netID : ids.ID) (nodeID : ids.NodeID) (light : N).

(** The arguments of a call are [uint64] values. *)
Definition call_ok (c : call) : Prop :=
  match c with
  | CallAddStaker _ _ _ _ light => uint64 light
  | CallAddWeight _ _ light => uint64 light
  | CallRemoveWeight _ _ light => uint64 light
  end.

Definition run_call (s : state) (c : call) : state :=
  match c with
  | CallAddStaker netID nodeID publicKey txID light =>
      (AddStaker s netID nodeID publicKey txID light).1
  | CallAddWeight netID nodeID light => (AddWeight s netID nodeID light).1
  | CallRemoveWeight netID nodeID light => (RemoveWeight s netID nodeID light).1
  end.

(** The manager after a sequence of calls on a new manager. *)
Definition run_calls (cs : list call) : state := foldl run_call NewManager cs.

(** A call that puts no zero weight into the registry: a staker is added
    with a weight that is not zero, and the weight added to a record does
    not wrap its weight around to zero. *)
Definition stores_no_zero (s : state) (c : call) : Prop :=
  match c with
  | CallAddStaker _ _ _ _ light => light ≠ 0
  | CallAddWeight netID nodeID light =>
      ∀ p, GetValidator s netID nodeID = Some p →
           wadd (GetValidatorOutput.Light (deref s p)) light ≠ 0
  | CallRemoveWeight _ _ _ => True
  end.

(** A sequence of calls on a new manager each of which stores no zero. *)
Fixpoint no_zero_calls (s : state) (cs : list call) : Prop :=
  match cs with
  | [] => True
  | c :: rest => call_ok c ∧ stores_no_zero s c ∧ no_zero_calls (run_call s c) rest
  end.

(** Every record of the registry has a weight above zero, in both of its
    weight fields. *)
Definition all_positive (s : state) : Prop :=
  ∀ netID nodeID p, GetValidator s netID nodeID = Some p →
    0 < GetValidatorOutput.Light (deref s p) ∧
    0 < GetValidatorOutput.Weight (deref s p).

(** The record after [RemoveWeight] took [light] from it. *)
Definition reduced (val : GetValidatorOutput.t) (light : N) : GetValidatorOutput.t :=
  if light <=? GetValidatorOutput.Light val then
    GetValidatorOutput.mk
      (GetValidatorOutput.NodeID val) (GetValidatorOutput.PublicKey val)
      (GetValidatorOutput.RingtailPubKey val)
      (GetValidatorOutput.Light val - light)
      (wsub (GetValidatorOutput.Weight val) light)
      (GetValidatorOutput.TxID val)
  else
    GetValidatorOutput.mk
      (GetValidatorOutput.NodeID val) (GetValidatorOutput.PublicKey val)
      (GetValidatorOutput.RingtailPubKey val) 0 0 (GetValidatorOutput.TxID val).

(** The record after [AddWeight] added [light] to it. *)
Definition increased (val : GetValidatorOutput.t) (light : N) : GetValidatorOutput.t :=
  GetValidatorOutput.mk
    (GetValidatorOutput.NodeID val) (GetValidatorOutput.PublicKey val)
    (GetValidatorOutput.RingtailPubKey val)
    (wadd (GetValidatorOutput.Light val) light)
    (wadd (GetValidatorOutput.Weight val) light)
    (GetValidatorOutput.TxID val).

(** *** What the read accessors show *)

(** Two states in which every read accessor returns the same, and in which
    the pointers [GetValidator] returns lead to equal records. *)
Definition reads_agree (s s' : state) : Prop :=
  NumNets s = NumNets s' ∧
  ∀ netID,
    Count s netID = Count s' netID ∧
    GetValidators s netID = GetValidators s' netID ∧
    TotalLight s netID = TotalLight s' netID ∧
    TotalWeight s netID = TotalWeight s' netID ∧
    (∀ nodeIDs, SubsetWeight s netID nodeIDs = SubsetWeight s' netID nodeIDs) ∧
    ∀ nodeID,
      GetValidator s netID nodeID = GetValidator s' netID nodeID ∧
      GetLight s netID nodeID = GetLight s' netID nodeID ∧
      GetWeight s netID nodeID = GetWeight s' netID nodeID ∧
      (∀ p, GetValidator s netID nodeID = Some p → deref s p = deref s' p).

(** The sums the loops of [Light] and [SubsetWeight] would give without
    wrapping. *)
Definition sum_Light (s : state) (vs : list loc) : N :=
  foldr (λ v acc, GetValidatorOutput.Light (deref s v) + acc) 0 vs.

Definition sum_subset (s : state) (subnet : gmap ids.NodeID loc)
    (nodeIDs : list ids.NodeID) : N :=
  foldr (λ nodeID acc,
           match subnet !! nodeID with
           | Some vdr => GetValidatorOutput.Weight (deref s vdr) + acc
           | None => acc
           end) 0 nodeIDs.

(** Every record of the registry has a weight above zero that is a
    [uint64], the same in both of its weight fields. *)
Definition weights_kept (s : state) : Prop :=
  ∀ netID nodeID p, GetValidator s netID nodeID = Some p →
    0 < GetValidatorOutput.Light (deref s p) ∧
    GetValidatorOutput.Weight (deref s p) = GetValidatorOutput.Light (deref s p) ∧
    uint64 (GetValidatorOutput.Light (deref s p)).

(** *** Registries to run the methods on *)

(** One network, 7, with the nodes 1 and 2, each of weight [MaxUint64]. *)
Definition two_heavy : state :=
  (AddStaker (AddStaker NewManager 7 1 [] 0 MaxUint64).1 7 2 [] 0 MaxUint64).1.

(** One network, 7, with the node 1 of weight 100. *)
Definition one_staker : state := (AddStaker NewManager 7 1 [] 0 100).1.

(** The network 7 with the nodes 1, of weight 100, and 2, of weight 200. *)
Definition two_stakers : state := (AddStaker one_staker 7 2 [] 0 200).1.

(** *** The other methods of the sets and of the manager *)

(** [ValidatorImpl], the [Validator] that [List] returns. *)
Record ValidatorImpl : Type := mk_ValidatorImpl {
  ValidatorImpl_NodeID : ids.NodeID;
  LightVal : N
}.

(** The field [validators] of a set: the map a [validatorSet] holds; an
    [emptySet] has none. *)
Definition Set_validators (set : Set_) : option loc :=
  match set with
  | validatorSet mp => Some mp
  | emptySet => None
  end.

(** [Has], [Len] and [List] of a [validatorSet] and of an [emptySet];
    [List] ranges over the map in the order of [map_to_list]. *)
Definition Has (s : state) (set : Set_) (nodeID : ids.NodeID) : bool :=
  match set with
  | validatorSet mp => bool_decide (is_Some (deref_map s mp !! nodeID))
  | emptySet => false
  end.

Definition Len (s : state) (set : Set_) : nat :=
  match set with
  | validatorSet mp => size (deref_map s mp)
  | emptySet => 0%nat
  end.

Definition List_range (s : state) (vs : list loc) : list ValidatorImpl :=
  (λ v, mk_ValidatorImpl (GetValidatorOutput.NodeID (deref s v))
                         (GetValidatorOutput.Light (deref s v))) <$> vs.

Definition List (s : state) (set : Set_) : list ValidatorImpl :=
  match set with
  | validatorSet mp => List_range s (map_to_list (deref_map s mp)).*2
  | emptySet => []
  end.

(** The loop of the two [Sample] methods over the node ids in the order
    the range yields them: it stops when [nodeIDs] has [size] elements.
    [size] is a Go [int]. *)
Fixpoint Sample_loop (size : Z) (nodeIDs : list ids.NodeID) (order : list ids.NodeID)
  : list ids.NodeID :=
  match order with
  | [] => nodeIDs
  | nodeID :: rest =>
      if (size <=? Z.of_nat (length nodeIDs))%Z then nodeIDs
      else Sample_loop size (nodeIDs ++ [nodeID]) rest
  end.

(** [make([]ids.NodeID, 0, size)]: the run time panics for a negative
    capacity, and for one whose elements, of 20 bytes each, take more than
    [maxAlloc] bytes, which is 2^48 on the 64-bit platforms.  That a
    smaller allocation runs out of memory is not modelled. *)
Definition maxAlloc : Z := 2 ^ 48.
Definition makeslice_ok (size : Z) : bool :=
  (0 <=? size)%Z && (size * 20 <=? maxAlloc)%Z.


(** [Sample] of the manager: the slice is made before the network is
    looked up. *)
Definition Sample (s : state) (netID : ids.ID) (size : Z)
  : option (list ids.NodeID * option error) :=
  if makeslice_ok size then
    match validators s !! netID with
    | Some subnet =>
        Some (Sample_loop size [] (map_to_list (deref_map s subnet)).*1, None)
    | None => Some ([], None)
    end
  else None.

(** [GetValidatorIDs]; [nil] for a network the registry does not hold. *)
Definition GetValidatorIDs (s : state) (netID : ids.ID) : list ids.NodeID :=
  match validators s !! netID with
  | Some subnet => (map_to_list (deref_map s subnet)).*1
  | None => []
  end.

(** *** The listeners *)

(** The calls the manager can make on a [ManagerCallbackListener], each
    with the listener it is made on.  A listener is known by a number; one
    listener can be registered more than once.  A nil listener, a call on
    which panics, is not modelled. *)
Inductive notification : Type :=
  | OnValidatorAdded (listener : nat) (netID : ids.ID) (nodeID : ids.NodeID) (light : N)
  | OnValidatorRemoved (listener : nat) (netID : ids.ID) (nodeID : ids.NodeID) (light : N)
  | OnValidatorLightChanged (listener : nat) (netID : ids.ID) (nodeID : ids.NodeID)
      (oldLight newLight : N).

(** The manager with its field [listeners]; every method returns, besides
    the manager, the calls it made on the listeners, in order. *)
Record manager : Type := mk_manager {
  registry : state;
  listeners : list nat
}.

(** The loop [for _, listener := range m.listeners] of [AddStaker]. *)
Definition notify_added (ls : list nat) (netID : ids.ID) (nodeID : ids.NodeID) (light : N)
  : list notification :=
  (λ listener, OnValidatorAdded listener netID nodeID light) <$> ls.

(** [RegisterCallbackListener]: the listener is appended and told of
    every record, the two ranges in the order of [map_to_list]. *)
Definition replay (s : state) (listener : nat) : list notification :=
  '(netID, vdrs) ← map_to_list (validators s);
  '(nodeID, val) ← map_to_list (deref_map s vdrs);
  [OnValidatorAdded listener netID nodeID (GetValidatorOutput.Light (deref s val))].

Definition RegisterCallbackListener (m : manager) (listener : nat)
  : manager * list notification :=
  (mk_manager (registry m) (listeners m ++ [listener]), replay (registry m) listener).

(** [RegisterSetCallbackListener] does nothing. *)
Definition RegisterSetCallbackListener (m : manager) (netID : ids.ID) (listener : nat)
  : manager * list notification :=
  (m, []).

(** One step of a client of the manager: a mutating call or the
    registration of a listener; with the calls made on the listeners. *)
Inductive step : Type :=
  | StepCall (c : call)
  | StepRegister (listener : nat).

Definition run_step (m : manager) (st : step) : manager * list notification :=
  match st with
  | StepCall c =>
      (mk_manager (run_call (registry m) c) (listeners m),
       match c with
       | CallAddStaker netID nodeID _ _ light =>
           notify_added (listeners m) netID nodeID light
       | CallAddWeight _ _ _ => []
       | CallRemoveWeight _ _ _ => []
       end)
  | StepRegister listener => RegisterCallbackListener m listener
  end.

(** The manager and all the calls made on listeners after the steps,
    starting from the manager [m] and the calls [trace] made so far. *)
Fixpoint run_steps (m : manager) (trace : list notification) (sts : list step)
  : manager * list notification :=
  match sts with
  | [] => (m, trace)
  | st :: rest =>
      let '(m', calls) := run_step m st in
      run_steps m' (trace ++ calls) rest
  end.

(** Every call made on a listener is an [OnValidatorAdded], made on one
    of the listeners [ls]. *)
Definition only_added (ls : list nat) (trace : list notification) : Prop :=
  ∀ n, n ∈ trace →
    ∃ l netID nodeID light, n = OnValidatorAdded l netID nodeID light ∧ l ∈ ls.

(** Every listener of the manager has been told, by a call of
    [OnValidatorAdded], of every validator the registry holds. *)
Definition all_announced (m : manager) (trace : list notification) : Prop :=
  ∀ l netID nodeID,
    l ∈ listeners m → is_Some (GetValidator (registry m) netID nodeID) →
    ∃ light, OnValidatorAdded l netID nodeID light ∈ trace.

(** *** The records of a network, as FlattenValidatorSet takes them *)

(** The records behind the pointers of the map [GetMap] returns, in the
    order of [map_to_list]. *)
Definition snapshot (s : state) (netID : ids.ID) : list GetValidatorOutput.t :=
  let '(s1, vmap) := GetMap s netID in
  deref s1 <$> (map_to_list (deref_map s1 vmap)).*2.

(** What the read accessors show of one network. *)
Definition net_reads_agree (s s' : state) (netID : ids.ID) : Prop :=
  Count s netID = Count s' netID ∧
  GetValidators s netID = GetValidators s' netID ∧
  TotalLight s netID = TotalLight s' netID ∧
  TotalWeight s netID = TotalWeight s' netID ∧
  (∀ nodeIDs, SubsetWeight s netID nodeIDs = SubsetWeight s' netID nodeIDs) ∧
  ∀ nodeID,
    GetValidator s netID nodeID = GetValidator s' netID nodeID ∧
    GetLight s netID nodeID = GetLight s' netID nodeID ∧
    GetWeight s netID nodeID = GetWeight s' netID nodeID ∧
    (∀ p, GetValidator s netID nodeID = Some p → deref s p = deref s' p).

(** The network a call works on. *)
Definition call_net (c : call) : ids.ID :=
  match c with
  | CallAddStaker netID _ _ _ _ => netID
  | CallAddWeight netID _ _ => netID
  | CallRemoveWeight netID _ _ => netID
  end.

(** Every record stands under its own node id, has the same weight in
    both weight fields, and that weight is a [uint64]. *)
Definition records_consistent (s : state) : Prop :=
  ∀ netID nodeID p, GetValidator s netID nodeID = Some p →
    GetValidatorOutput.NodeID (deref s p) = nodeID ∧
    GetValidatorOutput.Weight (deref s p) = GetValidatorOutput.Light (deref s p) ∧
    uint64 (GetValidatorOutput.Light (deref s p)).

(** No network of the registry is empty. *)
Definition no_empty_net (s : state) : Prop :=
  ∀ netID, is_Some (validators s !! netID) → Count s netID ≠ 0%nat.

(** A call that is not an [AddWeight] for a network the registry does not
    hold. *)
Definition known_net_call (s : state) (c : call) : Prop :=
  match c with
  | CallAddWeight netID _ _ => is_Some (validators s !! netID)
  | _ => True
  end.

Fixpoint known_net_calls (s : state) (cs : list call) : Prop :=
  match cs with
  | [] => True
  | c :: rest => known_net_call s c ∧ known_net_calls (run_call s c) rest
  end.

(** The node ids of a network with their pointers; empty for a network
    the registry does not hold. *)
Definition subnet_of (s : state) (netID : ids.ID) : gmap ids.NodeID loc :=
  match validators s !! netID with
  | Some mp => deref_map s mp
  | None => ∅
  end.

End Manager.

(** ** A stand-in for the BLS primitive *)

(** The theorems hold for every primitive.  To run the functions on
    concrete snapshots a small one is fixed here: a compressed key is any
    two bytes, the key object is these bytes, and the uncompressed form
    repeats them. *)
Module ToyBLS.

Definition PublicKey : Type := list byte.

Definition PublicKeyFromCompressedBytes (b : list byte) : option PublicKey :=
  if (length b =? 2)%nat then Some b else None.

Definition PublicKeyToUncompressedBytes (pk : PublicKey) : list byte := pk ++ pk.

Definition Flatten (vdrs : list GetValidatorOutput.t) :=
  FlattenValidatorSet_range PublicKeyFromCompressedBytes PublicKeyToUncompressedBytes vdrs.

(** A record with a node id, key bytes and a weight. *)
Definition vdr (nodeID : ids.NodeID) (publicKey : list byte) (weight : N)
  : GetValidatorOutput.t :=
  GetValidatorOutput.mk nodeID publicKey [] weight weight ids.Empty.

Definition keyX : list byte := [x11; x22]%byte.
Definition keyY : list byte := [x05; xff]%byte.

End ToyBLS.

(** ** Package uptime *)

Module uptime.

Section Calculators.
(** [float64] and [time.Time] are kept abstract, with the two constants
    the package uses; [Ext] stands for the calculators of other packages,
    whose methods are reached through the interface [Calculator].  A
    [time.Duration] is an [int64]. *)
Context {float64 Time Ext : Type}.
Variables float64_1 float64_0 : float64.
Variable Ext_CalculateUptime : Ext → ids.NodeID → ids.ID → Z * Z * option error.
Variable Ext_CalculateUptimePercent : Ext → ids.NodeID → ids.ID → float64 * option error.
Variable Ext_CalculateUptimePercentFrom :
  Ext → ids.NodeID → ids.ID → Time → float64 * option error.

(** The values of the interface [Calculator] other than a
    [lockedCalculator]. *)
Inductive Calculator : Type :=
  | NoOpCalculator
  | ZeroUptimeCalculator
  | ExtCalculator (c : Ext).

(** The three calculations, by the dynamic type of the calculator. *)
Definition Calculator_CalculateUptime (c : Calculator) (nodeID : ids.NodeID)
    (subnetID : ids.ID) : Z * Z * option error :=
  match c with
  | NoOpCalculator => (0%Z, 0%Z, None)
  | ZeroUptimeCalculator => (0%Z, 1%Z, None)
  | ExtCalculator c => Ext_CalculateUptime c nodeID subnetID
  end.

Definition Calculator_CalculateUptimePercent (c : Calculator) (nodeID : ids.NodeID)
    (subnetID : ids.ID) : float64 * option error :=
  match c with
  | NoOpCalculator => (float64_1, None)
  | ZeroUptimeCalculator => (float64_0, None)
  | ExtCalculator c => Ext_CalculateUptimePercent c nodeID subnetID
  end.

Definition Calculator_CalculateUptimePercentFrom (c : Calculator) (nodeID : ids.NodeID)
    (subnetID : ids.ID) (from : Time) : float64 * option error :=
  match c with
  | NoOpCalculator => (float64_1, None)
  | ZeroUptimeCalculator => (float64_0, None)
  | ExtCalculator c => Ext_CalculateUptimePercentFrom c nodeID subnetID from
  end.

(** [lockedCalculator]; its mutex is not modelled, every method being one
    atomic step. *)
Record lockedCalculator : Type := mk_lockedCalculator {
  calculators : gmap ids.ID Calculator;
  fallback : Calculator
}.

Definition NewLockedCalculator : lockedCalculator :=
  mk_lockedCalculator ∅ NoOpCalculator.

(** [NewLockedCalculatorWithFallback]; [None] is a nil [fallback]. *)
Definition NewLockedCalculatorWithFallback (fallback : option Calculator)
  : lockedCalculator :=
  let fallback :=
    match fallback with
    | None => NoOpCalculator
    | Some fallback => fallback
    end in
  mk_lockedCalculator ∅ fallback.

Definition CalculateUptime (l : lockedCalculator) (nodeID : ids.NodeID)
    (subnetID : ids.ID) : Z * Z * option error :=
  match calculators l !! subnetID with
  | Some calc => Calculator_CalculateUptime calc nodeID subnetID
  | None => Calculator_CalculateUptime (fallback l) nodeID subnetID
  end.

Definition CalculateUptimePercent (l : lockedCalculator) (nodeID : ids.NodeID)
    (subnetID : ids.ID) : float64 * option error :=
  match calculators l !! subnetID with
  | Some calc => Calculator_CalculateUptimePercent calc nodeID subnetID
  | None => Calculator_CalculateUptimePercent (fallback l) nodeID subnetID
  end.

Definition CalculateUptimePercentFrom (l : lockedCalculator) (nodeID : ids.NodeID)
    (subnetID : ids.ID) (from : Time) : float64 * option error :=
  match calculators l !! subnetID with
  | Some calc => Calculator_CalculateUptimePercentFrom calc nodeID subnetID from
  | None => Calculator_CalculateUptimePercentFrom (fallback l) nodeID subnetID from
  end.

(** [SetCalculator]; [None] is a nil [calc]. *)
Definition SetCalculator (l : lockedCalculator) (subnetID : ids.ID)
    (calc : option Calculator) : lockedCalculator * option error :=
  match calc with
  | Some calc =>
      (mk_lockedCalculator (<[subnetID := calc]> (calculators l)) (fallback l), None)
  | None => (l, None)
  end.

(** The locked calculator after a sequence of calls of [SetCalculator]. *)
Definition SetCalculators (l : lockedCalculator) (calls : list (ids.ID * option Calculator))
  : lockedCalculator :=
  foldl (λ l call, (SetCalculator l call.1 call.2).1) l calls.

(** The calculator that answers for [subnetID] after the calls: the one
    of the last call for [subnetID] with a calculator that is not nil, or
    else the one that answered before the calls. *)
Fixpoint answering (before : Calculator) (calls : list (ids.ID * option Calculator))
    (subnetID : ids.ID) : Calculator :=
  match calls with
  | [] => before
  | (subnetID', Some calc) :: rest =>
      answering (if decide (subnetID' = subnetID) then calc else before) rest subnetID
  | (_, None) :: rest => answering before rest subnetID
  end.

(** The calculator a locked calculator hands a calculation for
    [subnetID] to. *)
Definition delegate (l : lockedCalculator) (subnetID : ids.ID) : Calculator :=
  default (fallback l) (calculators l !! subnetID).

End Calculators.

End uptime.

(** ** Package validatorstest: the test implementation of State *)

Module validatorstest.

(** [WarpValidator] and [WarpSet] of package validators. *)
Record WarpValidator : Type := mk_WarpValidator {
  WarpValidator_NodeID : ids.NodeID;
  WarpValidator_PublicKey : list byte;
  WarpValidator_RingtailPubKey : list byte;
  WarpValidator_Weight : N
}.

Record WarpSet : Type := mk_WarpSet {
  Height : N;
  Validators : gmap ids.NodeID WarpValidator
}.

(** [TestState] with the two function fields the methods below look at; a
    nil function field is [None].  The [context.Context] the methods pass
    on is left out. *)
Record TestState : Type := mk_TestState {
  GetWarpValidatorSetF : option (N → ids.ID → WarpSet * option error);
  GetWarpValidatorSetsF :
    option (list N → list ids.ID → gmap ids.ID (gmap N WarpSet) * option error)
}.

Definition NewTestState : TestState := mk_TestState None None.

Definition GetWarpValidatorSet (s : TestState) (height : N) (netID : ids.ID)
  : WarpSet * option error :=
  match GetWarpValidatorSetF s with
  | Some f => f height netID
  | None => (mk_WarpSet height ∅, None)
  end.

(** The inner loop of [GetWarpValidatorSets], over the heights. *)
Definition heights_loop (inner : gmap N WarpSet) (heights : list N) : gmap N WarpSet :=
  foldl (λ inner height, <[height := mk_WarpSet height ∅]> inner) inner heights.

(** The outer loop, over the network ids. *)
Definition netIDs_loop (result : gmap ids.ID (gmap N WarpSet)) (heights : list N)
    (netIDs : list ids.ID) : gmap ids.ID (gmap N WarpSet) :=
  foldl (λ result netID, <[netID := heights_loop ∅ heights]> result) result netIDs.

Definition GetWarpValidatorSets (s : TestState) (heights : list N) (netIDs : list ids.ID)
  : gmap ids.ID (gmap N WarpSet) * option error :=
  match GetWarpValidatorSetsF s with
  | Some f => f heights netIDs
  | None => (netIDs_loop ∅ heights netIDs, None)
  end.

(** [GetChainID] and [GetNetworkID]. *)
Definition GetChainID (s : TestState) (netID : ids.ID) : ids.ID * option error :=
  (netID, None).
Definition GetNetworkID (s : TestState) (chainID : ids.ID) : ids.ID * option error :=
  (chainID, None).

End validatorstest.
(** * Properties *)

(** ** Checked addition *)

Lemma Add64_ok (a b : N) :
  a + b <= MaxUint64 → Add64 a b = (a + b, None).
Proof.
  intros H. unfold Add64.
  destruct (N.ltb_spec (MaxUint64 - b) a) as [Hlt|Hle]; [lia|done].
Qed.

Lemma Add64_overflow (a b : N) :
  uint64 b → MaxUint64 < a + b → Add64 a b = (0, Some ErrOverflow).
Proof.
  unfold uint64. intros Hb H. unfold Add64.
  destruct (N.ltb_spec (MaxUint64 - b) a) as [Hlt|Hle]; [done|lia].
Qed.

Lemma Is_refl (e : error) : Is e e = true.
Proof. destruct e; simpl; rewrite ?bool_decide_eq_true_2 by done; done. Qed.

Lemma Is_Errorf2_l (e1 e2 : error) : Is (Errorf2 e1 e2) e1 = true.
Proof. simpl. rewrite Is_refl. by rewrite orb_true_r. Qed.

(** ** The order of [bytes.Compare] *)

Lemma bytes_Compare_range (a b : list byte) :
  bytes_Compare a b = (-1)%Z ∨ bytes_Compare a b = 0%Z ∨ bytes_Compare a b = 1%Z.
Proof.
  revert b. induction a as [|x a IH]; intros [|y b]; simpl; auto.
  destruct (N.compare_spec (to_N x) (to_N y)); auto.
Qed.

Lemma bytes_Compare_eq (a b : list byte) : bytes_Compare a b = 0%Z ↔ a = b.
Proof.
  revert b. induction a as [|x a IH]; intros [|y b]; simpl; try done.
  destruct (N.compare_spec (to_N x) (to_N y)) as [Heq|Hlt|Hgt].
  - assert (x = y) as ->.
    { apply (inj Some). rewrite <- (Byte.of_to_N x), <- (Byte.of_to_N y).
      by rewrite Heq. }
    rewrite IH. split; [by intros ->|by intros [=]].
  - split; [done|]. intros [= -> _]. lia.
  - split; [done|]. intros [= -> _]. lia.
Qed.

Lemma bytes_Compare_antisym (a b : list byte) :
  bytes_Compare b a = (- bytes_Compare a b)%Z.
Proof.
  revert b. induction a as [|x a IH]; intros [|y b]; simpl; try done.
  rewrite (N.compare_antisym (to_N x) (to_N y)).
  destruct (to_N x ?= to_N y); simpl; auto.
Qed.

Lemma bytes_Compare_trans (a b c : list byte) :
  (bytes_Compare a b <= 0)%Z → (bytes_Compare b c <= 0)%Z →
  (bytes_Compare a c <= 0)%Z.
Proof.
  revert b c. induction a as [|x a IH]; intros [|y b] [|z c]; simpl; try lia.
  destruct (N.compare_spec (to_N x) (to_N y)) as [Hxy|Hxy|Hxy];
    destruct (N.compare_spec (to_N y) (to_N z)) as [Hyz|Hyz|Hyz];
    destruct (N.compare_spec (to_N x) (to_N z)) as [Hxz|Hxz|Hxz];
    try lia; eauto.
Qed.

#[global] Instance bytes_le_total : Total (cmp_le bytes_Compare).
Proof.
  intros a b. unfold cmp_le. rewrite (bytes_Compare_antisym a b).
  destruct (bytes_Compare_range a b) as [->|[->| ->]]; lia.
Qed.

#[global] Instance bytes_le_trans : Transitive (cmp_le bytes_Compare).
Proof. intros a b c. apply bytes_Compare_trans. Qed.

#[global] Instance bytes_le_antisym : AntiSymm (=) (cmp_le bytes_Compare).
Proof.
  intros a b. unfold cmp_le. rewrite (bytes_Compare_antisym a b).
  intros H1 H2. apply bytes_Compare_eq. lia.
Qed.

#[global] Instance Compare_le_total {PK} :
  Total (cmp_le (@CanonicalValidator.Compare PK)).
Proof. intros a b. apply bytes_le_total. Qed.

#[global] Instance Compare_le_trans {PK} :
  Transitive (cmp_le (@CanonicalValidator.Compare PK)).
Proof. intros a b c. apply bytes_le_trans. Qed.

(** ** The loop of FlattenValidatorSet *)

Section FlattenProps.
Context {PK : Type}.
Variable PublicKeyFromCompressedBytes : list byte → option PK.
Variable PublicKeyToUncompressedBytes : PK → list byte.

Local Abbreviation decoded := (decoded PublicKeyFromCompressedBytes).
Local Abbreviation key_of := (key_of PublicKeyFromCompressedBytes PublicKeyToUncompressedBytes).
Local Abbreviation group := (group PublicKeyFromCompressedBytes PublicKeyToUncompressedBytes).
Local Abbreviation entry_of := (entry_of PublicKeyFromCompressedBytes).
Local Abbreviation represents :=
  (represents PublicKeyFromCompressedBytes PublicKeyToUncompressedBytes).
Local Abbreviation flatten_step :=
  (flatten_step PublicKeyFromCompressedBytes PublicKeyToUncompressedBytes).
Local Abbreviation flatten_loop :=
  (flatten_loop PublicKeyFromCompressedBytes PublicKeyToUncompressedBytes).
Local Abbreviation Flatten :=
  (FlattenValidatorSet_range PublicKeyFromCompressedBytes PublicKeyToUncompressedBytes).
Local Abbreviation cv_equiv := (cv_equiv PublicKeyToUncompressedBytes).
Local Abbreviation weights_ok :=
  (Forall (λ vdr, uint64 (GetValidatorOutput.Weight vdr))).
Local Abbreviation overflowed := (Errorf2 ErrWeightOverflow ErrOverflow).

Implicit Types (vdr : GetValidatorOutput.t) (vdrs p g : list GetValidatorOutput.t).
Implicit Types (k : list byte) (st : loop_state (PK:=PK)).
Implicit Types (cv : CanonicalValidator.t PK).

Lemma sum_weights_app vdrs1 vdrs2 :
  sum_weights (vdrs1 ++ vdrs2) = sum_weights vdrs1 + sum_weights vdrs2.
Proof. induction vdrs1 as [|v l IH]; simpl; [done|]. rewrite IH. lia. Qed.

Lemma sum_weights_perm vdrs vdrs' :
  vdrs ≡ₚ vdrs' → sum_weights vdrs = sum_weights vdrs'.
Proof. induction 1; simpl; lia. Qed.

Lemma sum_weights_filter_le (P : GetValidatorOutput.t → Prop)
    `{!∀ x, Decision (P x)} vdrs :
  sum_weights (filter P vdrs) <= sum_weights vdrs.
Proof.
  induction vdrs as [|v l IH]; simpl; [done|].
  rewrite filter_cons. destruct (decide (P v)); simpl; lia.
Qed.

Lemma sum_weights_take_le n vdrs : sum_weights (take n vdrs) <= sum_weights vdrs.
Proof.
  rewrite <- (take_drop n vdrs) at 2. rewrite sum_weights_app. lia.
Qed.

Lemma sum_cv_weights_perm (l l' : list (CanonicalValidator.t PK)) :
  l ≡ₚ l' → sum_cv_weights l = sum_cv_weights l'.
Proof. induction 1; simpl; lia. Qed.

Lemma group_snoc k p vdr :
  group k (p ++ [vdr]) = group k p ++ (if decide (key_of vdr = Some k) then [vdr] else []).
Proof.
  unfold group. rewrite filter_app. f_equal.
Qed.

Lemma group_key k vdrs vdr : vdr ∈ group k vdrs → key_of vdr = Some k.
Proof. unfold group. rewrite list_elem_of_filter. tauto. Qed.

Lemma key_of_decoded vdr blsPK :
  decoded vdr = Some blsPK → key_of vdr = Some (PublicKeyToUncompressedBytes blsPK).
Proof. unfold key_of. by intros ->. Qed.

Lemma key_of_Some vdr k :
  key_of vdr = Some k →
  ∃ blsPK, decoded vdr = Some blsPK ∧ PublicKeyToUncompressedBytes blsPK = k.
Proof.
  unfold key_of. destruct (decoded vdr) as [pk|]; simpl; [|done].
  intros [= <-]. eauto.
Qed.

Lemma map_weight_insert_new (m : gmap (list byte) (CanonicalValidator.t PK)) k cv :
  m !! k = None →
  map_weight (<[k := cv]> m) = CanonicalValidator.Weight cv + map_weight m.
Proof.
  intros Hk. unfold map_weight.
  rewrite (sum_cv_weights_perm _ (cv :: (map_to_list m).*2)); [done|].
  by rewrite map_to_list_insert.
Qed.

Lemma map_weight_insert_old (m : gmap (list byte) (CanonicalValidator.t PK)) k cv old :
  m !! k = Some old →
  map_weight (<[k := cv]> m) + CanonicalValidator.Weight old
  = CanonicalValidator.Weight cv + map_weight m.
Proof.
  intros Hk. rewrite <- (insert_delete_eq m k cv).
  rewrite map_weight_insert_new by apply lookup_delete_eq.
  rewrite <- (insert_id m k old) at 2 by done.
  rewrite <- (insert_delete_eq m k old).
  rewrite (map_weight_insert_new (delete k m) k old) by apply lookup_delete_eq.
  lia.
Qed.

Lemma represents_init : represents [] (mk_loop_state ∅ 0).
Proof. split; [done|]. split; [|done]. intros k. apply lookup_empty. Qed.

(** A record without a key only adds to the total. *)
Lemma represents_skip p st vdr :
  represents p st → key_of vdr = None →
  represents (p ++ [vdr])
    (mk_loop_state (pkToValidator st) (totalWeight st + GetValidatorOutput.Weight vdr)).
Proof.
  intros (Ht & Hm & Hw) Hnone. split; [|split]; simpl.
  - rewrite sum_weights_app, Ht. simpl. lia.
  - intros k. rewrite group_snoc, decide_False by (rewrite Hnone; done).
    rewrite app_nil_r. apply Hm.
  - rewrite filter_app, filter_cons, filter_nil.
    rewrite decide_False by (rewrite Hnone; by intros [? ?]).
    by rewrite app_nil_r.
Qed.

Lemma sum_weights_group_le k vdrs : sum_weights (group k vdrs) <= sum_weights vdrs.
Proof. apply sum_weights_filter_le. Qed.

Lemma entry_of_first k vdr g blsPK :
  decoded vdr = Some blsPK →
  entry_of k (vdr :: g)
  = Some (CanonicalValidator.mk blsPK k (sum_weights (vdr :: g))
            (GetValidatorOutput.NodeID <$> vdr :: g)).
Proof. intros H. unfold entry_of. by rewrite H. Qed.

(** A record with a key: its group gets one record longer, the others stay. *)
Lemma step_keyed p st vdr blsPK :
  represents p st →
  sum_weights (p ++ [vdr]) <= MaxUint64 →
  decoded vdr = Some blsPK →
  ∃ st', flatten_step st vdr = inl st' ∧ represents (p ++ [vdr]) st'.
Proof.
  intros (Ht & Hm & Hw) Hsum Hdec.
  pose proof (key_of_decoded _ _ Hdec) as Hkey.
  set (k0 := PublicKeyToUncompressedBytes blsPK) in *.
  rewrite sum_weights_app in Hsum. simpl in Hsum.
  assert (Hfilter : filter (λ v, is_Some (key_of v)) (p ++ [vdr])
                    = filter (λ v, is_Some (key_of v)) p ++ [vdr]).
  { rewrite filter_app, filter_cons, filter_nil.
    by rewrite decide_True by (rewrite Hkey; eauto). }
  assert (Hother : ∀ k, k ≠ k0 → group k (p ++ [vdr]) = group k p).
  { intros k Hk. rewrite group_snoc, decide_False, app_nil_r; [done|].
    rewrite Hkey. by intros [= ->]. }
  assert (Hgroup : group k0 (p ++ [vdr]) = group k0 p ++ [vdr]).
  { by rewrite group_snoc, decide_True. }
  unfold flatten_step. rewrite Add64_ok by lia.
  pose proof Hdec as Hdec'. unfold decoded in Hdec'.
  destruct (length (GetValidatorOutput.PublicKey vdr) =? 0)%nat; [done|].
  rewrite Hdec'. cbv zeta. fold k0.
  pose proof (Hm k0) as Hk0.
  destruct (group k0 p) as [|u g] eqn:Hg.
  - (* the first record under this key *)
    simpl in Hk0. rewrite Hk0. eexists. split; [done|].
    split; [|split]; simpl.
    + rewrite sum_weights_app, Ht. simpl. lia.
    + intros k. destruct (decide (k = k0)) as [->|Hne].
      * rewrite lookup_insert_eq, Hgroup. simpl.
        change (decoded vdr ≫= _) with (entry_of k0 [vdr]).
        rewrite (entry_of_first _ _ _ blsPK) by done.
        simpl. by rewrite N.add_0_r.
      * rewrite lookup_insert_ne by done. rewrite Hother by done. apply Hm.
    + rewrite map_weight_insert_new by done. rewrite Hfilter, sum_weights_app, Hw.
      simpl. lia.
  - (* a record is already filed under this key *)
    assert (Hu : u ∈ group k0 p) by (rewrite Hg; left).
    apply group_key, key_of_Some in Hu as (pku & Hdu & Hku).
    rewrite (entry_of_first _ _ _ pku) in Hk0 by done.
    rewrite Hk0. cbn [CanonicalValidator.Weight CanonicalValidator.PublicKey
                      CanonicalValidator.PublicKeyBytes CanonicalValidator.NodeIDs].
    pose proof (sum_weights_group_le k0 p) as Hle. rewrite Hg in Hle.
    rewrite Add64_ok by lia.
    eexists. split; [done|]. split; [|split]; simpl.
    + rewrite sum_weights_app, Ht. simpl. lia.
    + intros k. destruct (decide (k = k0)) as [->|Hne].
      * rewrite lookup_insert_eq, Hgroup, <- app_comm_cons.
        rewrite (entry_of_first _ _ _ pku) by done.
        f_equal. f_equal.
        -- change (u :: g ++ [vdr]) with ((u :: g) ++ [vdr]).
           rewrite sum_weights_app. simpl. by rewrite N.add_0_r.
        -- change (u :: g ++ [vdr]) with ((u :: g) ++ [vdr]).
           by rewrite fmap_app.
      * rewrite lookup_insert_ne by done. rewrite Hother by done. apply Hm.
    + pose proof (map_weight_insert_old (pkToValidator st) k0
        (CanonicalValidator.mk pku k0
           (sum_weights (u :: g) + GetValidatorOutput.Weight vdr)
           ((GetValidatorOutput.NodeID <$> u :: g) ++ [GetValidatorOutput.NodeID vdr]))
        _ Hk0) as Hins.
      simpl in Hins. rewrite Hfilter, sum_weights_app. simpl.
      simpl in Hw. lia.
Qed.

Lemma decoded_None_key vdr : decoded vdr = None → key_of vdr = None.
Proof. unfold key_of. by intros ->. Qed.

Lemma flatten_step_ok p st vdr :
  represents p st →
  sum_weights (p ++ [vdr]) <= MaxUint64 →
  ∃ st', flatten_step st vdr = inl st' ∧ represents (p ++ [vdr]) st'.
Proof.
  intros Hrep Hsum. destruct (decoded vdr) as [blsPK|] eqn:Hdec.
  { by eapply step_keyed. }
  pose proof (represents_skip _ _ _ Hrep (decoded_None_key _ Hdec)) as Hskip.
  rewrite sum_weights_app in Hsum. simpl in Hsum.
  destruct Hrep as (Ht & _). unfold flatten_step. rewrite Add64_ok by lia.
  unfold decoded in Hdec.
  destruct (length (GetValidatorOutput.PublicKey vdr) =? 0)%nat.
  - eexists. split; [done|]. exact Hskip.
  - rewrite Hdec. eexists. split; [done|]. exact Hskip.
Qed.

Lemma flatten_step_overflow p st vdr :
  represents p st →
  uint64 (GetValidatorOutput.Weight vdr) →
  MaxUint64 < sum_weights (p ++ [vdr]) →
  flatten_step st vdr = inr overflowed.
Proof.
  intros (Ht & _) Hw Hsum. rewrite sum_weights_app in Hsum. simpl in Hsum.
  unfold flatten_step. by rewrite Add64_overflow by (done || lia).
Qed.

(** The loop: it ends in the state that represents all the records when
    their weights sum to a [uint64], and fails otherwise. *)
Lemma flatten_loop_spec vdrs : ∀ p st,
  represents p st → sum_weights p <= MaxUint64 → weights_ok vdrs →
  (sum_weights (p ++ vdrs) <= MaxUint64 →
     ∃ st', flatten_loop st vdrs = inl st' ∧ represents (p ++ vdrs) st') ∧
  (MaxUint64 < sum_weights (p ++ vdrs) → flatten_loop st vdrs = inr overflowed).
Proof.
  induction vdrs as [|vdr rest IH]; intros p st Hrep Hp Hok.
  - rewrite app_nil_r. split; [|lia]. intros _. by exists st.
  - apply Forall_cons in Hok as [Hw Hok].
    replace (p ++ vdr :: rest) with ((p ++ [vdr]) ++ rest)
      by (by rewrite <- app_assoc).
    destruct (decide (sum_weights (p ++ [vdr]) <= MaxUint64)) as [Hle|Hgt].
    + destruct (flatten_step_ok _ _ _ Hrep Hle) as (st1 & Hstep & Hrep1).
      simpl. rewrite Hstep. by apply IH.
    + simpl. rewrite (flatten_step_overflow p) by (done || lia).
      split; [|done]. rewrite sum_weights_app. lia.
Qed.

(** *** The sorted slice *)

Lemma Collect_Values_elem_of (m : gmap (list byte) (CanonicalValidator.t PK)) cv :
  cv ∈ Collect_Values m ↔ ∃ k, m !! k = Some cv.
Proof.
  unfold Collect_Values. rewrite list_elem_of_fmap. split.
  - intros ([k cv'] & -> & Hin). exists k. by apply elem_of_map_to_list.
  - intros (k & Hk). exists (k, cv). split; [done|]. by apply elem_of_map_to_list.
Qed.

(** In a map every validator of which is filed under its own key bytes,
    the keys of the collected values are the keys of the map. *)
Lemma Collect_Values_keys (m : gmap (list byte) (CanonicalValidator.t PK)) :
  (∀ k cv, m !! k = Some cv → CanonicalValidator.PublicKeyBytes cv = k) →
  CanonicalValidator.PublicKeyBytes <$> Collect_Values m = (map_to_list m).*1.
Proof.
  intros Hkeys. unfold Collect_Values.
  assert (Hall : Forall (λ kv, CanonicalValidator.PublicKeyBytes kv.2 = kv.1)
                        (map_to_list m)).
  { apply Forall_forall. intros [k cv] Hin. simpl.
    apply Hkeys. by apply elem_of_map_to_list. }
  induction Hall as [|kv l Hkv _ IH]; [done|].
  rewrite !fmap_cons. by f_equal.
Qed.

Lemma entry_of_key k g cv :
  entry_of k g = Some cv → CanonicalValidator.PublicKeyBytes cv = k.
Proof.
  destruct g as [|u g]; simpl; [done|].
  destruct (decoded u); simpl; [|done]. by intros [= <-].
Qed.


Lemma entry_of_NodeIDs k g cv :
  entry_of k g = Some cv →
  CanonicalValidator.NodeIDs cv = GetValidatorOutput.NodeID <$> g.
Proof.
  destruct g as [|u g]; simpl; [done|].
  destruct (decoded u); simpl; [|done]. by intros [= <-].
Qed.

Lemma entry_of_group_Some k vdrs vdr :
  vdr ∈ vdrs → key_of vdr = Some k → is_Some (entry_of k (group k vdrs)).
Proof.
  intros Hin Hkey.
  assert (Hg : vdr ∈ group k vdrs) by (by apply list_elem_of_filter).
  destruct (group k vdrs) as [|u g] eqn:E; [by apply not_elem_of_nil in Hg|].
  assert (Hu : u ∈ group k vdrs) by (rewrite E; left).
  apply group_key, key_of_Some in Hu as (pku & Hdu & _).
  rewrite (entry_of_first _ _ _ pku) by done. eauto.
Qed.

Lemma entry_of_group_inv k vdrs cv :
  entry_of k (group k vdrs) = Some cv → ∃ vdr, vdr ∈ vdrs ∧ key_of vdr = Some k.
Proof.
  destruct (group k vdrs) as [|u g] eqn:E; simpl; [done|]. intros _.
  assert (Hu : u ∈ group k vdrs) by (rewrite E; left).
  exists u. split; [|by eapply group_key].
  apply list_elem_of_filter in Hu. tauto.
Qed.

(** The outcome of [FlattenValidatorSet]: with weights that sum to a
    [uint64], the sorted values of a map that holds the canonical validator
    of each group, and the sum as total weight; the error otherwise. *)
Lemma Flatten_spec vdrs :
  weights_ok vdrs →
  (sum_weights vdrs <= MaxUint64 →
     ∃ m, (∀ k, m !! k = entry_of k (group k vdrs)) ∧
          map_weight m = sum_weights (filter (λ vdr, is_Some (key_of vdr)) vdrs) ∧
          Flatten vdrs
          = (CanonicalValidatorSet.mk
               (SortFunc CanonicalValidator.Compare (Collect_Values m))
               (sum_weights vdrs), None)) ∧
  (MaxUint64 < sum_weights vdrs →
     Flatten vdrs = (CanonicalValidatorSet.zero, Some overflowed)).
Proof.
  intros Hok.
  destruct (flatten_loop_spec vdrs [] _ represents_init) as [Hgood Hbad];
    [simpl; unfold MaxUint64; lia|done|].
  simpl in Hgood, Hbad. unfold FlattenValidatorSet_range. split.
  - intros Hle. destruct (Hgood Hle) as (st' & -> & Ht & Hm & Hw).
    exists (pkToValidator st'). by rewrite Ht.
  - intros Hgt. by rewrite (Hbad Hgt).
Qed.

Lemma Flatten_ok_inv vdrs cvs :
  weights_ok vdrs → Flatten vdrs = (cvs, None) →
  sum_weights vdrs <= MaxUint64 ∧
  CanonicalValidatorSet.TotalWeight cvs = sum_weights vdrs ∧
  ∃ m, (∀ k, m !! k = entry_of k (group k vdrs)) ∧
       map_weight m = sum_weights (filter (λ vdr, is_Some (key_of vdr)) vdrs) ∧
       CanonicalValidatorSet.Validators cvs
       = SortFunc CanonicalValidator.Compare (Collect_Values m).
Proof.
  intros Hok Hres. destruct (Flatten_spec vdrs Hok) as [Hgood Hbad].
  destruct (decide (sum_weights vdrs <= MaxUint64)) as [Hle|Hgt].
  - destruct (Hgood Hle) as (m & Hm & Hw & Heq). rewrite Heq in Hres.
    injection Hres as <-. split; [done|]. split; [done|]. by exists m.
  - rewrite Hbad in Hres by lia. done.
Qed.

Lemma SortFunc_perm {A} (cmp : A → A → Z) (x : list A) : SortFunc cmp x ≡ₚ x.
Proof. apply merge_sort_Permutation. Qed.

Lemma map_keys_elem_of (m : gmap (list byte) (CanonicalValidator.t PK)) k :
  k ∈ (map_to_list m).*1 ↔ is_Some (m !! k).
Proof.
  rewrite list_elem_of_fmap. split.
  - intros ([k' cv] & -> & Hin). apply elem_of_map_to_list in Hin. eauto.
  - intros [cv Hcv]. exists (k, cv). split; [done|]. by apply elem_of_map_to_list.
Qed.

Section sorted_values.
Variable m : gmap (list byte) (CanonicalValidator.t PK).
Hypothesis Hfiled : ∀ k cv, m !! k = Some cv → CanonicalValidator.PublicKeyBytes cv = k.

Let V := SortFunc CanonicalValidator.Compare (Collect_Values m).

Lemma sorted_values_elem_of cv : cv ∈ V ↔ ∃ k, m !! k = Some cv.
Proof. unfold V. rewrite SortFunc_perm. apply Collect_Values_elem_of. Qed.

Lemma sorted_values_lookup cv :
  cv ∈ V → m !! CanonicalValidator.PublicKeyBytes cv = Some cv.
Proof.
  rewrite sorted_values_elem_of. intros (k & Hk).
  by rewrite (Hfiled _ _ Hk).
Qed.

Lemma sorted_values_keys_perm :
  CanonicalValidator.PublicKeyBytes <$> V ≡ₚ (map_to_list m).*1.
Proof.
  unfold V. rewrite SortFunc_perm. by rewrite Collect_Values_keys.
Qed.

Lemma sorted_values_NoDup : NoDup (CanonicalValidator.PublicKeyBytes <$> V).
Proof. rewrite sorted_values_keys_perm. apply NoDup_fst_map_to_list. Qed.

Lemma sorted_values_Sorted : Sorted (cmp_le CanonicalValidator.Compare) V.
Proof. apply (Sorted_merge_sort _). Qed.

Lemma sorted_values_keys_Sorted :
  Sorted (cmp_le bytes_Compare) (CanonicalValidator.PublicKeyBytes <$> V).
Proof.
  eapply Sorted_fmap; [|apply sorted_values_Sorted]. by intros a b.
Qed.

Lemma sorted_values_weight : sum_cv_weights V = map_weight m.
Proof. unfold map_weight. apply sum_cv_weights_perm, SortFunc_perm. Qed.

End sorted_values.

(** Every sorted arrangement of a slice with pairwise different keys is the
    same slice: which sort [slices.SortFunc] runs, and in which order the
    values of the map were collected, does not show in the result. *)
Lemma sorted_unique_keys (l1 l2 : list (CanonicalValidator.t PK)) :
  NoDup (CanonicalValidator.PublicKeyBytes <$> l1) →
  l1 ≡ₚ l2 →
  Sorted (cmp_le CanonicalValidator.Compare) l1 →
  Sorted (cmp_le CanonicalValidator.Compare) l2 →
  l1 = l2.
Proof.
  intros Hnd Hperm Hs1 Hs2.
  apply (Sorted_unique_strong (cmp_le CanonicalValidator.Compare)); [|done..].
  intros a b Ha Hb Hab Hba.
  assert (Hkey : CanonicalValidator.PublicKeyBytes a = CanonicalValidator.PublicKeyBytes b).
  { by apply (anti_symm (cmp_le bytes_Compare)). }
  rewrite <- Hperm in Hb.
  apply list_elem_of_lookup in Ha as [i Hi]. apply list_elem_of_lookup in Hb as [j Hj].
  assert (i = j) as ->.
  { eapply NoDup_lookup; [exact Hnd| |].
    - rewrite list_lookup_fmap, Hi. done.
    - rewrite list_lookup_fmap, Hj. simpl. by rewrite Hkey. }
  congruence.
Qed.

(** The values of the map the loop ends with can be collected in any
    order: the sorted slice is the same. *)
Lemma SortFunc_collect_order vdrs (m : gmap (list byte) (CanonicalValidator.t PK))
    (vdrList sorted : list (CanonicalValidator.t PK)) :
  (∀ k, m !! k = entry_of k (group k vdrs)) →
  vdrList ≡ₚ Collect_Values m →
  sorted ≡ₚ vdrList →
  Sorted (cmp_le CanonicalValidator.Compare) sorted →
  sorted = SortFunc CanonicalValidator.Compare (Collect_Values m).
Proof.
  intros Hm Hperm Hsorted Hs.
  assert (Hfiled : ∀ k cv, m !! k = Some cv → CanonicalValidator.PublicKeyBytes cv = k).
  { intros k cv. rewrite Hm. apply entry_of_key. }
  symmetry. apply sorted_unique_keys.
  - by apply sorted_values_NoDup.
  - by rewrite SortFunc_perm, Hsorted, Hperm.
  - apply sorted_values_Sorted.
  - done.
Qed.

(** *** The order of the range *)

Lemma group_perm k vdrs vdrs' : vdrs ≡ₚ vdrs' → group k vdrs ≡ₚ group k vdrs'.
Proof. intros H. unfold group. by rewrite H. Qed.

Lemma entry_of_perm k vdrs vdrs' a :
  vdrs ≡ₚ vdrs' → entry_of k (group k vdrs) = Some a →
  ∃ b, entry_of k (group k vdrs') = Some b ∧ cv_equiv a b.
Proof.
  intros Hperm Ha. pose proof (group_perm k _ _ Hperm) as Hg.
  destruct (group k vdrs) as [|u g] eqn:E; [done|].
  destruct (group k vdrs') as [|u' g'] eqn:E'.
  { by apply Permutation_nil_r in Hg. }
  assert (Hu : u ∈ group k vdrs) by (rewrite E; left).
  assert (Hu' : u' ∈ group k vdrs') by (rewrite E'; left).
  apply group_key, key_of_Some in Hu as (pku & Hdu & Hku).
  apply group_key, key_of_Some in Hu' as (pku' & Hdu' & Hku').
  rewrite (entry_of_first _ _ _ pku) in Ha by done. injection Ha as <-.
  eexists. split; [by apply entry_of_first|].
  split; [done|]. split; [simpl; congruence|]. split.
  - exact (sum_weights_perm _ _ Hg).
  - exact (fmap_Permutation _ _ _ Hg).
Qed.

Lemma cv_equiv_fmap_keys (l l' : list (CanonicalValidator.t PK)) :
  Forall2 cv_equiv l l' →
  CanonicalValidator.PublicKeyBytes <$> l = CanonicalValidator.PublicKeyBytes <$> l'.
Proof.
  induction 1 as [|a b l l' (Hk & _) _ IH]; [done|].
  rewrite !fmap_cons. by f_equal.
Qed.

Lemma cv_equiv_fmap_weights (l l' : list (CanonicalValidator.t PK)) :
  Forall2 cv_equiv l l' →
  CanonicalValidator.Weight <$> l = CanonicalValidator.Weight <$> l'.
Proof.
  induction 1 as [|a b l l' (_ & _ & Hw & _) _ IH]; [done|].
  rewrite !fmap_cons. by f_equal.
Qed.

(** Two maps that hold, key by key, the canonical validators of the same
    groups taken in two orders have the same sorted values, up to the order
    of the node ids inside a validator. *)
Lemma sorted_values_perm vdrs vdrs'
    (m m' : gmap (list byte) (CanonicalValidator.t PK)) :
  vdrs ≡ₚ vdrs' →
  (∀ k, m !! k = entry_of k (group k vdrs)) →
  (∀ k, m' !! k = entry_of k (group k vdrs')) →
  Forall2 cv_equiv
    (SortFunc CanonicalValidator.Compare (Collect_Values m))
    (SortFunc CanonicalValidator.Compare (Collect_Values m')).
Proof.
  intros Hperm Hm Hm'.
  assert (Hfiled : ∀ k cv, m !! k = Some cv → CanonicalValidator.PublicKeyBytes cv = k).
  { intros k cv. rewrite Hm. apply entry_of_key. }
  assert (Hfiled' : ∀ k cv, m' !! k = Some cv → CanonicalValidator.PublicKeyBytes cv = k).
  { intros k cv. rewrite Hm'. apply entry_of_key. }
  set (V := SortFunc CanonicalValidator.Compare (Collect_Values m)).
  set (V' := SortFunc CanonicalValidator.Compare (Collect_Values m')).
  assert (Hdom : ∀ k, is_Some (m !! k) ↔ is_Some (m' !! k)).
  { intros k. rewrite Hm, Hm'. split; intros [a Ha].
    - destruct (entry_of_perm k _ _ a Hperm Ha) as (b & -> & _). eauto.
    - symmetry in Hperm.
      destruct (entry_of_perm k _ _ a Hperm Ha) as (b & -> & _). eauto. }
  assert (Hkeys : CanonicalValidator.PublicKeyBytes <$> V
                  = CanonicalValidator.PublicKeyBytes <$> V').
  { apply (Sorted_unique (cmp_le bytes_Compare)).
    - by apply sorted_values_keys_Sorted.
    - by apply sorted_values_keys_Sorted.
    - apply NoDup_Permutation.
      + by apply sorted_values_NoDup.
      + by apply sorted_values_NoDup.
      + intros k. unfold V, V'. rewrite !sorted_values_keys_perm by done.
        rewrite !map_keys_elem_of. apply Hdom. }
  apply Forall2_same_length_lookup. split.
  { rewrite <- (length_fmap CanonicalValidator.PublicKeyBytes V), Hkeys.
    apply length_fmap. }
  intros i a b Ha Hb.
  assert (Hab : CanonicalValidator.PublicKeyBytes a = CanonicalValidator.PublicKeyBytes b).
  { apply (inj Some).
    change (CanonicalValidator.PublicKeyBytes <$> Some a
            = CanonicalValidator.PublicKeyBytes <$> Some b).
    by rewrite <- Ha, <- Hb, <- !list_lookup_fmap, Hkeys. }
  pose proof (sorted_values_lookup m Hfiled a (list_elem_of_lookup_2 _ _ _ Ha)) as Hla.
  pose proof (sorted_values_lookup m' Hfiled' b (list_elem_of_lookup_2 _ _ _ Hb)) as Hlb.
  rewrite Hm in Hla. rewrite Hm', <- Hab in Hlb.
  destruct (entry_of_perm _ _ _ a Hperm Hla) as (b' & Hb' & Heq).
  congruence.
Qed.

Lemma weights_ok_perm vdrs vdrs' : vdrs ≡ₚ vdrs' → weights_ok vdrs → weights_ok vdrs'.
Proof. intros H. by rewrite H. Qed.

(** C1, as amended: the order in which the range yields the records of a
    snapshot shows in the result of FlattenValidatorSet only as the order
    of the node ids inside a canonical validator.  For two orders of the
    same records the call fails in both or in neither, the total weights are
    equal, and the two slices hold, position by position, validators with
    the same key bytes, a key object of the same encoding, the same merged
    weight and the same node ids up to their order. *)
Theorem FlattenValidatorSet_permutation vdrs vdrs' :
  weights_ok vdrs → vdrs ≡ₚ vdrs' →
  (Flatten vdrs).2 = (Flatten vdrs').2 ∧
  CanonicalValidatorSet.TotalWeight (Flatten vdrs).1
    = CanonicalValidatorSet.TotalWeight (Flatten vdrs').1 ∧
  CanonicalValidator.PublicKeyBytes <$> CanonicalValidatorSet.Validators (Flatten vdrs).1
    = CanonicalValidator.PublicKeyBytes <$> CanonicalValidatorSet.Validators (Flatten vdrs').1 ∧
  CanonicalValidator.Weight <$> CanonicalValidatorSet.Validators (Flatten vdrs).1
    = CanonicalValidator.Weight <$> CanonicalValidatorSet.Validators (Flatten vdrs').1 ∧
  Forall2 cv_equiv
    (CanonicalValidatorSet.Validators (Flatten vdrs).1)
    (CanonicalValidatorSet.Validators (Flatten vdrs').1).
Proof.
  intros Hok Hperm. pose proof (weights_ok_perm _ _ Hperm Hok) as Hok'.
  destruct (Flatten_spec vdrs Hok) as [Hgood Hbad].
  destruct (Flatten_spec vdrs' Hok') as [Hgood' Hbad'].
  rewrite <- (sum_weights_perm _ _ Hperm) in Hgood', Hbad'.
  destruct (decide (sum_weights vdrs <= MaxUint64)) as [Hle|Hgt].
  - destruct (Hgood Hle) as (m & Hm & _ & ->).
    destruct (Hgood' Hle) as (m' & Hm' & _ & ->). simpl.
    pose proof (sorted_values_perm _ _ _ _ Hperm Hm Hm') as HV.
    split; [done|]. split; [done|].
    split; [by apply cv_equiv_fmap_keys|].
    split; [by apply cv_equiv_fmap_weights|done].
  - rewrite Hbad, Hbad' by lia. simpl. repeat split; constructor.
Qed.

(** For every primitive with a key that decodes, two records under that
    key give node ids in the order of the range: the results for the two
    orders of the records differ. *)
Lemma Flatten_node_ids_in_range_order (b : list byte) (blsPK : PK)
    (nodeID1 nodeID2 : ids.NodeID) (w1 w2 : N) :
  b ≠ [] → PublicKeyFromCompressedBytes b = Some blsPK →
  nodeID1 ≠ nodeID2 → w1 + w2 <= MaxUint64 →
  let vdr1 := GetValidatorOutput.mk nodeID1 b [] w1 w1 ids.Empty in
  let vdr2 := GetValidatorOutput.mk nodeID2 b [] w2 w2 ids.Empty in
  Flatten [vdr1; vdr2] ≠ Flatten [vdr2; vdr1].
Proof.
  intros Hb Hdec Hne Hsum vdr1 vdr2.
  destruct b as [|x b']; [done|].
  unfold FlattenValidatorSet_range, vdr1, vdr2. simpl.
  unfold flatten_step. simpl.
  rewrite !Add64_ok by (simpl; lia). rewrite Hdec. simpl.
  rewrite lookup_empty. simpl.
  rewrite ?Add64_ok by (simpl; lia). simpl.
  rewrite !lookup_insert_eq. simpl.
  rewrite ?Add64_ok by (simpl; lia).
  rewrite !insert_insert_eq.
  unfold Collect_Values. cbn [pkToValidator totalWeight].
  rewrite !insert_empty, !map_to_list_singleton. simpl.
  intros [= Heq]. congruence.
Qed.

(** *** Weight conservation *)

Lemma key_of_None vdr :
  key_of vdr = None ↔
  GetValidatorOutput.PublicKey vdr = [] ∨
  PublicKeyFromCompressedBytes (GetValidatorOutput.PublicKey vdr) = None.
Proof.
  unfold key_of, decoded.
  destruct (GetValidatorOutput.PublicKey vdr) as [|x b]; simpl.
  - naive_solver.
  - destruct (PublicKeyFromCompressedBytes (x :: b)) as [blsPK|]; simpl.
    + split; [done|]. intros [H|H]; discriminate.
    + split; auto.
Qed.

Lemma Flatten_nil :
  Flatten [] = (CanonicalValidatorSet.mk [] 0, None).
Proof. reflexivity. Qed.

(** C3: when FlattenValidatorSet succeeds, TotalWeight is the sum of the
    weights of all the records of the snapshot.  A record whose key bytes
    are empty or do not decode ([key_of] is [None]) raises no error, since
    the call succeeds whenever the weights sum to a [uint64], whatever the
    keys; it stands behind no canonical validator, and the weights of the
    canonical validators sum to the weights of the records with a key,
    hence to at most TotalWeight.  The empty snapshot gives the empty slice,
    total weight zero and no error. *)
Theorem FlattenValidatorSet_total_weight :
  (∀ vdrs, weights_ok vdrs → sum_weights vdrs <= MaxUint64 →
     ∃ cvs, Flatten vdrs = (cvs, None)) ∧
  (∀ vdrs cvs, weights_ok vdrs → Flatten vdrs = (cvs, None) →
     CanonicalValidatorSet.TotalWeight cvs = sum_weights vdrs ∧
     sum_cv_weights (CanonicalValidatorSet.Validators cvs)
       = sum_weights (filter (λ vdr, is_Some (key_of vdr)) vdrs) ∧
     sum_cv_weights (CanonicalValidatorSet.Validators cvs)
       <= CanonicalValidatorSet.TotalWeight cvs ∧
     (∀ cv, cv ∈ CanonicalValidatorSet.Validators cvs →
        ∃ vdr, vdr ∈ vdrs ∧
               key_of vdr = Some (CanonicalValidator.PublicKeyBytes cv))) ∧
  (∀ vdr, key_of vdr = None ↔
     GetValidatorOutput.PublicKey vdr = [] ∨
     PublicKeyFromCompressedBytes (GetValidatorOutput.PublicKey vdr) = None) ∧
  Flatten [] = (CanonicalValidatorSet.mk [] 0, None) ∧
  FlattenValidatorSet PublicKeyFromCompressedBytes PublicKeyToUncompressedBytes ∅
    = (CanonicalValidatorSet.mk [] 0, None).
Proof.
  split; [|split; [|split; [|split]]].
  - intros vdrs Hok Hle. destruct (Flatten_spec vdrs Hok) as [Hgood _].
    destruct (Hgood Hle) as (m & _ & _ & ->). eauto.
  - intros vdrs cvs Hok Hres.
    destruct (Flatten_ok_inv _ _ Hok Hres) as (Hle & Ht & m & Hm & Hw & HV).
    assert (Hfiled : ∀ k cv, m !! k = Some cv → CanonicalValidator.PublicKeyBytes cv = k).
    { intros k cv. rewrite Hm. apply entry_of_key. }
    assert (Hsum : sum_cv_weights (CanonicalValidatorSet.Validators cvs)
                   = sum_weights (filter (λ vdr, is_Some (key_of vdr)) vdrs)).
    { by rewrite HV, sorted_values_weight. }
    split; [done|]. split; [done|]. split.
    + rewrite Hsum, Ht. apply sum_weights_filter_le.
    + intros cv Hcv. rewrite HV in Hcv.
      pose proof (sorted_values_lookup m Hfiled cv Hcv) as Hl.
      rewrite Hm in Hl. by apply entry_of_group_inv in Hl.
  - apply key_of_None.
  - done.
  - unfold FlattenValidatorSet. by rewrite map_to_list_empty.
Qed.

(** *** Order and merging *)



(** *** Overflow *)

Local Abbreviation cv_weights_ok :=
  (Forall (λ cv : CanonicalValidator.t PK, uint64 (CanonicalValidator.Weight cv))).

Lemma sum_cv_weights_app (l1 l2 : list (CanonicalValidator.t PK)) :
  sum_cv_weights (l1 ++ l2) = sum_cv_weights l1 + sum_cv_weights l2.
Proof. induction l1 as [|v l IH]; simpl; [done|]. rewrite IH. lia. Qed.

Lemma sum_cv_weights_take_le n (l : list (CanonicalValidator.t PK)) :
  sum_cv_weights (take n l) <= sum_cv_weights l.
Proof.
  rewrite <- (take_drop n l) at 2. rewrite sum_cv_weights_app. lia.
Qed.

(** The loop of [SumWeight] from the running weight [w]. *)
Lemma sum_loop_spec (cvs : list (CanonicalValidator.t PK)) : ∀ w,
  cv_weights_ok cvs → w <= MaxUint64 →
  (w + sum_cv_weights cvs <= MaxUint64 →
     sum_loop w cvs = (w + sum_cv_weights cvs, None)) ∧
  (MaxUint64 < w + sum_cv_weights cvs → sum_loop w cvs = (0, Some overflowed)).
Proof.
  induction cvs as [|cv rest IH]; intros w Hok Hw; simpl.
  - rewrite N.add_0_r. split; [done|lia].
  - apply Forall_cons in Hok as [Hcv Hok].
    destruct (decide (w + CanonicalValidator.Weight cv <= MaxUint64)) as [Hle|Hgt].
    + rewrite Add64_ok by done.
      destruct (IH (w + CanonicalValidator.Weight cv) Hok Hle) as [Hgood Hbad].
      rewrite N.add_assoc. by split.
    + rewrite Add64_overflow by (done || lia). split; [lia|done].
Qed.

Lemma SumWeight_spec (cvs : list (CanonicalValidator.t PK)) :
  cv_weights_ok cvs →
  (sum_cv_weights cvs <= MaxUint64 → SumWeight cvs = (sum_cv_weights cvs, None)) ∧
  (MaxUint64 < sum_cv_weights cvs → SumWeight cvs = (0, Some overflowed)).
Proof.
  intros Hok. unfold SumWeight.
  destruct (sum_loop_spec cvs 0 Hok) as [Hgood Hbad]; [unfold MaxUint64; lia|].
  by rewrite N.add_0_l in Hgood, Hbad.
Qed.

(** Two records of one key, and no other record: one canonical validator. *)
Lemma Flatten_pair_same_key vdr1 vdr2 k cvs :
  weights_ok [vdr1; vdr2] → Flatten [vdr1; vdr2] = (cvs, None) →
  key_of vdr1 = Some k → key_of vdr2 = Some k →
  ∃ cv, CanonicalValidatorSet.Validators cvs = [cv] ∧
        CanonicalValidator.PublicKeyBytes cv = k ∧
        CanonicalValidator.Weight cv
          = GetValidatorOutput.Weight vdr1 + GetValidatorOutput.Weight vdr2 ∧
        CanonicalValidator.NodeIDs cv
          = [GetValidatorOutput.NodeID vdr1; GetValidatorOutput.NodeID vdr2].
Proof.
  intros Hok Hres Hk1 Hk2.
  destruct (Flatten_ok_inv _ _ Hok Hres) as (Hle & Ht & m & Hm & Hw & HV).
  destruct (key_of_Some _ _ Hk1) as (pk1 & Hd1 & _).
  set (cv := CanonicalValidator.mk pk1 k
               (GetValidatorOutput.Weight vdr1 + GetValidatorOutput.Weight vdr2)
               [GetValidatorOutput.NodeID vdr1; GetValidatorOutput.NodeID vdr2]).
  assert (Hsingle : m = {[k := cv]}).
  { apply map_eq. intros k'. rewrite Hm. unfold group.
    rewrite !filter_cons, filter_nil, Hk1, Hk2.
    destruct (decide (k' = k)) as [->|Hne].
    - rewrite lookup_singleton_eq, !decide_True by done.
      rewrite (entry_of_first _ _ _ pk1) by done. simpl.
      by rewrite N.add_0_r.
    - rewrite lookup_singleton_ne by done.
      rewrite !decide_False by (by intros [= ->]). done. }
  exists cv. rewrite HV, Hsingle. unfold Collect_Values.
  by rewrite map_to_list_singleton.
Qed.

(** C2: a weight addition that would exceed the largest [uint64] makes the
    whole call fail with the weight-overflow error and the zero result.  In
    FlattenValidatorSet this holds for the running total after any number of
    records and for the merged weight of any key after any number of
    records; in SumWeight for the running sum.  At the boundary the weights
    [MaxUint64] and 1 fail, as two validators of SumWeight and as two
    records of FlattenValidatorSet, with different keys or with one; the
    weights [MaxUint64 - 1] and 1 give exactly [MaxUint64], as sum, as total
    weight and as the merged weight of two records of one key. *)
Theorem weight_overflow_aborts :
  Is overflowed ErrWeightOverflow = true ∧
  (∀ vdrs n, weights_ok vdrs → MaxUint64 < sum_weights (take n vdrs) →
     Flatten vdrs = (CanonicalValidatorSet.zero, Some overflowed)) ∧
  (∀ vdrs n k, weights_ok vdrs → MaxUint64 < sum_weights (group k (take n vdrs)) →
     Flatten vdrs = (CanonicalValidatorSet.zero, Some overflowed)) ∧
  (∀ cvs n, cv_weights_ok cvs → MaxUint64 < sum_cv_weights (take n cvs) →
     SumWeight cvs = (0, Some overflowed)) ∧
  (∀ cvs, cv_weights_ok cvs → sum_cv_weights cvs <= MaxUint64 →
     SumWeight cvs = (sum_cv_weights cvs, None)) ∧
  (∀ cv1 cv2 : CanonicalValidator.t PK,
     CanonicalValidator.Weight cv1 = MaxUint64 → CanonicalValidator.Weight cv2 = 1 →
     SumWeight [cv1; cv2] = (0, Some overflowed)) ∧
  (∀ cv1 cv2 : CanonicalValidator.t PK,
     CanonicalValidator.Weight cv1 = MaxUint64 - 1 → CanonicalValidator.Weight cv2 = 1 →
     SumWeight [cv1; cv2] = (MaxUint64, None)) ∧
  (∀ vdr1 vdr2,
     GetValidatorOutput.Weight vdr1 = MaxUint64 → GetValidatorOutput.Weight vdr2 = 1 →
     Flatten [vdr1; vdr2] = (CanonicalValidatorSet.zero, Some overflowed)) ∧
  (∀ vdr1 vdr2,
     GetValidatorOutput.Weight vdr1 = MaxUint64 - 1 → GetValidatorOutput.Weight vdr2 = 1 →
     ∃ cvs, Flatten [vdr1; vdr2] = (cvs, None) ∧
            CanonicalValidatorSet.TotalWeight cvs = MaxUint64 ∧
            (∀ k, key_of vdr1 = Some k → key_of vdr2 = Some k →
               ∃ cv, CanonicalValidatorSet.Validators cvs = [cv] ∧
                     CanonicalValidator.Weight cv = MaxUint64)).
Proof.
  split; [done|]. split; [|split; [|split; [|split; [|split; [|split; [|split]]]]]].
  - intros vdrs n Hok Hgt. destruct (Flatten_spec vdrs Hok) as [_ Hbad].
    apply Hbad. pose proof (sum_weights_take_le n vdrs). lia.
  - intros vdrs n k Hok Hgt. destruct (Flatten_spec vdrs Hok) as [_ Hbad].
    apply Hbad. pose proof (sum_weights_take_le n vdrs).
    pose proof (sum_weights_group_le k (take n vdrs)). lia.
  - intros cvs n Hok Hgt. destruct (SumWeight_spec cvs Hok) as [_ Hbad].
    apply Hbad. pose proof (sum_cv_weights_take_le n cvs). lia.
  - intros cvs Hok Hle. by apply SumWeight_spec.
  - intros cv1 cv2 H1 H2. apply SumWeight_spec.
    + repeat constructor; unfold uint64; rewrite ?H1, ?H2; unfold MaxUint64; lia.
    + simpl. rewrite H1, H2. unfold MaxUint64. lia.
  - intros cv1 cv2 H1 H2.
    assert (Hsum : sum_cv_weights [cv1; cv2] = MaxUint64).
    { simpl. rewrite H1, H2. unfold MaxUint64. lia. }
    destruct (SumWeight_spec [cv1; cv2]) as [Hgood _].
    { repeat constructor; unfold uint64; rewrite ?H1, ?H2; unfold MaxUint64; lia. }
    rewrite Hgood by lia. by rewrite Hsum.
  - intros vdr1 vdr2 H1 H2. apply Flatten_spec.
    + repeat constructor; unfold uint64; rewrite ?H1, ?H2; unfold MaxUint64; lia.
    + simpl. rewrite H1, H2. unfold MaxUint64. lia.
  - intros vdr1 vdr2 H1 H2.
    assert (Hok : weights_ok [vdr1; vdr2]).
    { repeat constructor; unfold uint64; rewrite ?H1, ?H2; unfold MaxUint64; lia. }
    assert (Hsum : sum_weights [vdr1; vdr2] = MaxUint64).
    { simpl. rewrite H1, H2. unfold MaxUint64. lia. }
    destruct (Flatten_spec _ Hok) as [Hgood _].
    destruct Hgood as (m & Hm & Hw & Hres); [lia|].
    eexists. split; [exact Hres|]. split; [done|].
    intros k Hk1 Hk2.
    destruct (Flatten_pair_same_key _ _ k _ Hok Hres Hk1 Hk2)
      as (cv & HV & _ & Hwcv & _).
    exists cv. split; [done|]. rewrite Hwcv, H1, H2. unfold MaxUint64. lia.
Qed.

(** ** FilterValidators *)

Lemma Pos_size_nat_size (p : positive) : Pos.size_nat p = Pos.to_nat (Pos.size p).
Proof.
  induction p as [p IH|p IH|]; simpl; rewrite ?Pos2Nat.inj_succ, ?IH; done.
Qed.

Lemma BitLen_size (indices : N) : BitLen indices = N.to_nat (N.size indices).
Proof. destruct indices as [|p]; simpl; [done|]. apply Pos_size_nat_size. Qed.

(** [BitLen] is above [n] exactly when a bit at [n] or higher is set. *)
Lemma BitLen_gt (indices : N) (n : nat) :
  (n < BitLen indices)%nat ↔ ∃ i, (n <= i)%nat ∧ Contains indices i = true.
Proof.
  rewrite BitLen_size. unfold Contains. split.
  - intros Hlt. assert (Hne : indices ≠ 0).
    { intros ->. simpl in Hlt. lia. }
    rewrite N.size_log2 in Hlt by done.
    exists (N.to_nat (N.log2 indices)). split; [lia|].
    rewrite N2Nat.id. by apply N.bit_log2.
  - intros (i & Hle & Hbit).
    assert (Hne : indices ≠ 0).
    { intros ->. by rewrite N.bits_0 in Hbit. }
    rewrite N.size_log2 by done.
    destruct (decide (N.log2 indices < N.of_nat i)) as [Habove|Hbelow].
    + rewrite N.bits_above_log2 in Hbit by done. done.
    + lia.
Qed.

Lemma filter_loop_spec indices (vdrs : list (CanonicalValidator.t PK)) :
  ∀ i filteredVdrs,
  filter_loop indices i vdrs filteredVdrs
  = filteredVdrs ++
    (filter (λ iv, N.testbit indices (N.of_nat iv.1) = true)
            (zip (seq i (length vdrs)) vdrs)).*2.
Proof.
  induction vdrs as [|vdr rest IH]; intros i acc; simpl.
  - by rewrite app_nil_r.
  - rewrite filter_cons. unfold Contains. cbn [fst].
    destruct (decide (N.testbit indices (N.of_nat i) = true)) as [Hbit|Hbit].
    + rewrite Hbit. simpl. by rewrite IH, <- app_assoc.
    + apply not_true_is_false in Hbit. rewrite Hbit. simpl. apply IH.
Qed.

Lemma selected_elem_of indices (vdrs : list (CanonicalValidator.t PK)) cv :
  cv ∈ selected indices vdrs ↔
  ∃ i, vdrs !! i = Some cv ∧ Contains indices i = true.
Proof.
  unfold selected, Contains. rewrite list_elem_of_fmap. split.
  - intros ([i cv'] & -> & Hin). apply list_elem_of_filter in Hin as [Hbit Hin].
    apply list_elem_of_lookup in Hin as [j Hj].
    apply lookup_zip_with_Some in Hj as (i' & cv'' & [= <- <-] & Hseq & Hcv).
    apply lookup_seq in Hseq as [-> _]. simpl in *. eauto.
  - intros (i & Hi & Hbit). exists (i, cv). split; [done|].
    apply list_elem_of_filter. split; [done|].
    apply list_elem_of_lookup. exists i.
    apply lookup_zip_with_Some. exists i, cv. split; [done|]. split; [|done].
    apply lookup_seq. split; [done|]. by eapply lookup_lt_Some.
Qed.

Lemma selected_sublist indices (vdrs : list (CanonicalValidator.t PK)) :
  selected indices vdrs `sublist_of` vdrs.
Proof.
  unfold selected.
  pose proof (sublist_filter (λ iv : nat * CanonicalValidator.t PK,
                N.testbit indices (N.of_nat iv.1) = true)
              (zip (seq 0 (length vdrs)) vdrs)) as Hs.
  apply (fmap_sublist snd) in Hs.
  by rewrite (snd_zip (seq 0 (length vdrs)) vdrs) in Hs by (by rewrite length_seq).
Qed.

(** C5: FilterValidators fails, with the unknown-validator error and no
    validators, exactly when the selector has a bit set at a position that
    is the length of the slice or higher; a bit at the length itself makes
    it fail, and a selector whose highest bit is at the length less one
    does not.  When it does not fail it returns the validators at the
    positions of the set bits, in the order of the slice, and so a
    sub-slice of it; the selector without bits gives the empty result and
    no error. *)
Theorem FilterValidators_spec indices (vdrs : list (CanonicalValidator.t PK)) :
  Is (Errorf1 ErrUnknownValidator) ErrUnknownValidator = true ∧
  ((FilterValidators indices vdrs).2 ≠ None ↔
     ∃ i, (length vdrs <= i)%nat ∧ Contains indices i = true) ∧
  ((∃ i, (length vdrs <= i)%nat ∧ Contains indices i = true) →
     FilterValidators indices vdrs = ([], Some (Errorf1 ErrUnknownValidator))) ∧
  ((∀ i, (length vdrs <= i)%nat → Contains indices i = false) →
     FilterValidators indices vdrs = (selected indices vdrs, None)) ∧
  (Contains indices (length vdrs) = true →
     FilterValidators indices vdrs = ([], Some (Errorf1 ErrUnknownValidator))) ∧
  (BitLen indices = length vdrs →
     FilterValidators indices vdrs = (selected indices vdrs, None)) ∧
  (∀ cv, cv ∈ selected indices vdrs ↔
         ∃ i, vdrs !! i = Some cv ∧ Contains indices i = true) ∧
  selected indices vdrs `sublist_of` vdrs ∧
  FilterValidators 0 vdrs = ([], None).
Proof.
  assert (Hfail : (∃ i, (length vdrs <= i)%nat ∧ Contains indices i = true) →
            FilterValidators indices vdrs = ([], Some (Errorf1 ErrUnknownValidator))).
  { intros Hex. apply BitLen_gt in Hex. unfold FilterValidators.
    by rewrite (proj2 (Nat.ltb_lt _ _) Hex). }
  assert (Hin : ¬ (length vdrs < BitLen indices)%nat →
            FilterValidators indices vdrs = (selected indices vdrs, None)).
  { intros Hge. unfold FilterValidators.
    rewrite (proj2 (Nat.ltb_ge _ _)) by lia.
    by rewrite filter_loop_spec. }
  split; [done|]. split.
  { rewrite <- BitLen_gt. split.
    - intros Herr. destruct (decide (length vdrs < BitLen indices)%nat); [done|].
      by rewrite Hin in Herr.
    - intros Hlt. by rewrite Hfail by (by apply BitLen_gt). }
  split; [done|]. split; [|split; [|split; [|split; [|split]]]].
  - intros Hnone. apply Hin. rewrite BitLen_gt. intros (i & Hle & Hbit).
    by rewrite Hnone in Hbit.
  - intros Hbit. apply Hfail. eauto.
  - intros Hlen. apply Hin. lia.
  - apply selected_elem_of.
  - apply selected_sublist.
  - unfold FilterValidators. simpl. rewrite filter_loop_spec. simpl.
    f_equal.
    induction (zip (seq 0 (length vdrs)) vdrs) as [|iv l IH]; [done|].
    rewrite filter_cons. by rewrite decide_False.
Qed.

(** ** More on the canonical set and the signers *)

(** X1: Compare orders canonical validators by their key bytes alone: it is
    -1, 0 or 1, it is 0 exactly for validators with the same key bytes,
    whatever their weights and node ids, swapping the validators negates
    it, and the order it gives is transitive. *)
Theorem Compare_orders_by_key (v o u : CanonicalValidator.t PK) :
  (CanonicalValidator.Compare v o = (-1)%Z ∨ CanonicalValidator.Compare v o = 0%Z ∨
   CanonicalValidator.Compare v o = 1%Z) ∧
  (CanonicalValidator.Compare v o = 0%Z ↔
     CanonicalValidator.PublicKeyBytes v = CanonicalValidator.PublicKeyBytes o) ∧
  CanonicalValidator.Compare o v = (- CanonicalValidator.Compare v o)%Z ∧
  ((CanonicalValidator.Compare v o <= 0)%Z → (CanonicalValidator.Compare o u <= 0)%Z →
   (CanonicalValidator.Compare v u <= 0)%Z).
Proof.
  unfold CanonicalValidator.Compare. split; [apply bytes_Compare_range|].
  split; [apply bytes_Compare_eq|]. split; [apply bytes_Compare_antisym|].
  apply bytes_Compare_trans.
Qed.

Lemma group_nonempty_decoded k vdrs u g :
  group k vdrs = u :: g → ∃ blsPK, decoded u = Some blsPK ∧
                                  PublicKeyToUncompressedBytes blsPK = k ∧ u ∈ vdrs.
Proof.
  intros E. assert (Hu : u ∈ group k vdrs) by (rewrite E; left).
  pose proof (group_key _ _ _ Hu) as Hk.
  apply key_of_Some in Hk as (pk & Hd & Hk).
  exists pk. split; [done|]. split; [done|].
  apply list_elem_of_filter in Hu. tauto.
Qed.

(** X2: every canonical validator FlattenValidatorSet returns is made of
    the records filed under its key bytes: the bytes are the uncompressed
    form of its key object, which is the decoded key of a record of the
    snapshot; its node ids are those of the records of that key, in the
    order of the range, and there is at least one; its weight is the sum of
    their weights and at most TotalWeight. *)
Theorem FlattenValidatorSet_entries vdrs cvs cv :
  weights_ok vdrs → Flatten vdrs = (cvs, None) →
  cv ∈ CanonicalValidatorSet.Validators cvs →
  PublicKeyToUncompressedBytes (CanonicalValidator.PublicKey cv)
    = CanonicalValidator.PublicKeyBytes cv ∧
  (∃ vdr, vdr ∈ vdrs ∧ decoded vdr = Some (CanonicalValidator.PublicKey cv)) ∧
  CanonicalValidator.NodeIDs cv
    = GetValidatorOutput.NodeID <$> group (CanonicalValidator.PublicKeyBytes cv) vdrs ∧
  CanonicalValidator.NodeIDs cv ≠ [] ∧
  CanonicalValidator.Weight cv
    = sum_weights (group (CanonicalValidator.PublicKeyBytes cv) vdrs) ∧
  CanonicalValidator.Weight cv <= CanonicalValidatorSet.TotalWeight cvs.
Proof.
  intros Hok Hres Hcv.
  destruct (Flatten_ok_inv _ _ Hok Hres) as (Hle & Ht & m & Hm & Hw & HV).
  assert (Hfiled : ∀ k cv, m !! k = Some cv → CanonicalValidator.PublicKeyBytes cv = k).
  { intros k cv'. rewrite Hm. apply entry_of_key. }
  rewrite HV in Hcv. apply (sorted_values_lookup m Hfiled) in Hcv.
  rewrite Hm in Hcv. remember (CanonicalValidator.PublicKeyBytes cv) as k eqn:Hkey.
  pose proof (sum_weights_group_le k vdrs) as Hgle.
  destruct (group k vdrs) as [|u g] eqn:E; [done|].
  destruct (group_nonempty_decoded _ _ _ _ E) as (pk & Hd & Hk & Hin).
  rewrite (entry_of_first _ _ _ pk) in Hcv by done. injection Hcv as <-.
  simpl. split; [done|]. split; [eauto|]. split; [done|].
  split; [done|]. split; [done|]. rewrite Ht. simpl in Hgle. lia.
Qed.

#[local] Instance key_in_dec (K : list (list byte)) vdr :
  Decision (∃ k, k ∈ K ∧ key_of vdr = Some k).
Proof.
  destruct (key_of vdr) as [k|].
  - destruct (decide (k ∈ K)) as [Hin|Hnotin].
    + left. eauto.
    + right. intros (k0 & Hk0 & [= <-]). done.
  - right. intros (k0 & _ & Hk0). done.
Defined.

(** The records with a key in [K], for keys that are pairwise different,
    are the groups of these keys put together. *)
Lemma groups_concat (K : list (list byte)) vdrs :
  NoDup K →
  filter (λ vdr, ∃ k, k ∈ K ∧ key_of vdr = Some k) vdrs
  ≡ₚ concat ((λ k, group k vdrs) <$> K).
Proof.
  intros HK. induction vdrs as [|vdr rest IH].
  - rewrite filter_nil. induction K as [|k K' IHK]; [done|].
    simpl. apply NoDup_cons in HK as [_ HK]. by rewrite <- IHK.
  - rewrite filter_cons.
    assert (Hcons : concat ((λ k, group k (vdr :: rest)) <$> K)
              ≡ₚ (if decide (∃ k, k ∈ K ∧ key_of vdr = Some k) then [vdr] else [])
                 ++ concat ((λ k, group k rest) <$> K)).
    { clear IH. induction HK as [|k K' Hnotin HK IHK].
      - simpl. rewrite decide_False; [done|].
        intros (k & Hk & _). by apply not_elem_of_nil in Hk.
      - rewrite !fmap_cons. simpl. rewrite IHK.
        unfold group at 1. rewrite filter_cons. fold (group k rest).
        destruct (decide (∃ k0, k0 ∈ K' ∧ key_of vdr = Some k0)) as [Hex|Hnex];
          destruct (decide (key_of vdr = Some k)) as [Hk|Hk];
          destruct (decide (∃ k0, k0 ∈ k :: K' ∧ key_of vdr = Some k0)) as [Hex'|Hnex'];
          simpl.
        + destruct Hex as (k0 & Hk0 & Hkey). rewrite Hk in Hkey.
          injection Hkey as <-. done.
        + destruct Hex as (k0 & Hk0 & Hkey). rewrite Hk in Hkey.
          injection Hkey as <-. done.
        + by rewrite Permutation_middle.
        + destruct Hnex'. destruct Hex as (k0 & Hk0 & Hkey).
          exists k0. split; [by right|done].
        + done.
        + destruct Hnex'. exists k. split; [left|done].
        + destruct Hex' as (k0 & Hk0 & Hkey).
          apply elem_of_cons in Hk0 as [->|Hk0]; [done|]. destruct Hnex. eauto.
        + done. }
    rewrite Hcons. destruct (decide _); simpl; by rewrite IH.
Qed.

Lemma filter_ext_in {A} (P1 P2 : A → Prop)
    `{!∀ x, Decision (P1 x), !∀ x, Decision (P2 x)} (l : list A) :
  (∀ x, x ∈ l → P1 x ↔ P2 x) → filter P1 l = filter P2 l.
Proof.
  induction l as [|a l IH]; intros Hiff; [done|].
  rewrite !filter_cons, IH by (intros x Hx; apply Hiff; by right).
  pose proof (Hiff a ltac:(left)) as Ha.
  destruct (decide (P1 a)), (decide (P2 a)); tauto.
Qed.

Lemma concat_perm {A} (ls ls' : list (list A)) : ls ≡ₚ ls' → concat ls ≡ₚ concat ls'.
Proof.
  induction 1 as [|x l l' _ IH|x y l|l l' l'' _ IH1 _ IH2]; simpl.
  - done.
  - by rewrite IH.
  - rewrite !app_assoc. by rewrite (Permutation_app_comm y x).
  - by rewrite IH1.
Qed.

(** X3: the node ids of the canonical validators, put together, are the
    node ids of the records with a key, each as often as it occurs among
    the records: no record with a key is left out and none is listed
    twice.  For a snapshot whose records have pairwise different node ids,
    no node id stands in two canonical validators or twice in one. *)
Theorem FlattenValidatorSet_node_ids vdrs cvs :
  weights_ok vdrs → Flatten vdrs = (cvs, None) →
  concat (CanonicalValidator.NodeIDs <$> CanonicalValidatorSet.Validators cvs)
    ≡ₚ GetValidatorOutput.NodeID <$> filter (λ vdr, is_Some (key_of vdr)) vdrs ∧
  (NoDup (GetValidatorOutput.NodeID <$> vdrs) →
   NoDup (concat (CanonicalValidator.NodeIDs <$> CanonicalValidatorSet.Validators cvs))).
Proof.
  intros Hok Hres.
  destruct (Flatten_ok_inv _ _ Hok Hres) as (Hle & Ht & m & Hm & Hw & HV).
  assert (Hfiled : ∀ k cv, m !! k = Some cv → CanonicalValidator.PublicKeyBytes cv = k).
  { intros k cv'. rewrite Hm. apply entry_of_key. }
  assert (Hperm : concat (CanonicalValidator.NodeIDs <$> CanonicalValidatorSet.Validators cvs)
            ≡ₚ GetValidatorOutput.NodeID <$> filter (λ vdr, is_Some (key_of vdr)) vdrs).
  { rewrite HV. rewrite (concat_perm _ (CanonicalValidator.NodeIDs <$> Collect_Values m))
      by (by rewrite SortFunc_perm).
    set (K := (map_to_list m).*1).
    assert (Hids : CanonicalValidator.NodeIDs <$> Collect_Values m
                   = (λ k, GetValidatorOutput.NodeID <$> group k vdrs) <$> K).
    { unfold Collect_Values, K. rewrite <- !list_fmap_compose.
      apply list_fmap_ext. intros i [k cv] Hi. simpl.
      apply list_elem_of_lookup_2, elem_of_map_to_list in Hi.
      rewrite Hm in Hi. by eapply entry_of_NodeIDs. }
    rewrite Hids.
    assert (Hfilter : filter (λ vdr, is_Some (key_of vdr)) vdrs
                      = filter (λ vdr, ∃ k, k ∈ K ∧ key_of vdr = Some k) vdrs).
    { apply filter_ext_in. intros vdr Hin. split.
      - intros [k Hk]. exists k. split; [|done].
        apply map_keys_elem_of. rewrite Hm. by eapply entry_of_group_Some.
      - intros (k & _ & Hk). eauto. }
    rewrite Hfilter, (groups_concat K vdrs) by apply NoDup_fst_map_to_list.
    clear. induction K as [|k K IH]; [done|].
    rewrite !fmap_cons. simpl. by rewrite fmap_app, IH. }
  split; [done|]. intros Hnd. rewrite Hperm.
  apply (sublist_NoDup _ (GetValidatorOutput.NodeID <$> vdrs)); [exact Hnd|].
  apply fmap_sublist, sublist_filter.
Qed.

Lemma sum_cv_weights_sublist (l1 l2 : list (CanonicalValidator.t PK)) :
  l1 `sublist_of` l2 → sum_cv_weights l1 <= sum_cv_weights l2.
Proof. induction 1; simpl; lia. Qed.

Lemma cv_weights_ok_bounded (l : list (CanonicalValidator.t PK)) :
  sum_cv_weights l <= MaxUint64 → cv_weights_ok l.
Proof.
  induction l as [|cv l IH]; simpl; intros Hle; constructor.
  - unfold uint64. lia.
  - apply IH. lia.
Qed.

Lemma FilterValidators_ok_selected indices (vdrs signers : list (CanonicalValidator.t PK)) :
  FilterValidators indices vdrs = (signers, None) → signers = selected indices vdrs.
Proof.
  unfold FilterValidators. destruct (length vdrs <? BitLen indices)%nat; [done|].
  rewrite filter_loop_spec. by intros [= <-].
Qed.

(** X4: the signers of a canonical set never outweigh it.  When
    FlattenValidatorSet succeeds and FilterValidators succeeds on its
    validators, SumWeight of the validators selected succeeds as well: the
    sum cannot overflow, it is the plain sum of the selected weights, and
    it is at most TotalWeight. *)
Theorem signers_weight_bounded vdrs cvs indices signers :
  weights_ok vdrs → Flatten vdrs = (cvs, None) →
  FilterValidators indices (CanonicalValidatorSet.Validators cvs) = (signers, None) →
  SumWeight signers = (sum_cv_weights signers, None) ∧
  sum_cv_weights signers <= sum_cv_weights (CanonicalValidatorSet.Validators cvs) ∧
  sum_cv_weights signers <= CanonicalValidatorSet.TotalWeight cvs.
Proof.
  intros Hok Hres Hfilter.
  destruct (Flatten_ok_inv _ _ Hok Hres) as (Hle & Ht & m & Hm & Hw & HV).
  assert (Hall : sum_cv_weights (CanonicalValidatorSet.Validators cvs)
                 <= CanonicalValidatorSet.TotalWeight cvs).
  { rewrite HV, sorted_values_weight, Hw, Ht. apply sum_weights_filter_le. }
  apply FilterValidators_ok_selected in Hfilter as ->.
  pose proof (sum_cv_weights_sublist _ _
    (selected_sublist indices (CanonicalValidatorSet.Validators cvs))) as Hsub.
  split; [|split; [done|lia]].
  apply SumWeight_spec; [apply cv_weights_ok_bounded|]; lia.
Qed.

Lemma StronglySorted_sublist {A} (R : relation A) (l1 l2 : list A) :
  l1 `sublist_of` l2 → StronglySorted R l2 → StronglySorted R l1.
Proof.
  induction 1 as [|x l1 l2 Hsub IH|x l1 l2 Hsub IH]; intros Hs.
  - constructor.
  - apply StronglySorted_inv in Hs as [Hs Hall]. constructor; [by apply IH|].
    apply Forall_forall. intros y Hy. rewrite Forall_forall in Hall.
    apply Hall. by eapply elem_of_sublist.
  - apply StronglySorted_inv in Hs as [Hs _]. by apply IH.
Qed.

(** X5: FilterValidators keeps the canonical order.  What it returns is a
    sub-slice of its input, so it is no longer than the input, it is
    sorted by key bytes when the input is, and it has no key twice when
    the input has none. *)
Theorem FilterValidators_keeps_order indices (vdrs signers : list (CanonicalValidator.t PK)) :
  FilterValidators indices vdrs = (signers, None) →
  signers `sublist_of` vdrs ∧
  (length signers <= length vdrs)%nat ∧
  (Sorted (cmp_le CanonicalValidator.Compare) vdrs →
   Sorted (cmp_le CanonicalValidator.Compare) signers) ∧
  (NoDup (CanonicalValidator.PublicKeyBytes <$> vdrs) →
   NoDup (CanonicalValidator.PublicKeyBytes <$> signers)).
Proof.
  intros Hfilter. apply FilterValidators_ok_selected in Hfilter as ->.
  pose proof (selected_sublist indices vdrs) as Hsub.
  split; [done|]. split; [by apply sublist_length|]. split.
  - intros Hs. apply StronglySorted_Sorted.
    apply (StronglySorted_sublist _ _ vdrs); [done|].
    by apply Sorted_StronglySorted; [apply _|].
  - intros Hnd. eapply sublist_NoDup; [exact Hnd|]. by apply fmap_sublist.
Qed.

Lemma filter_all_id {A} (P : A → Prop) `{!∀ x, Decision (P x)} (l : list A) :
  Forall P l → filter P l = l.
Proof.
  induction 1 as [|x l Hx _ IH]; [done|].
  by rewrite filter_cons, decide_True, IH.
Qed.

Lemma selected_all indices (vdrs : list (CanonicalValidator.t PK)) :
  (∀ i, (i < length vdrs)%nat → Contains indices i = true) →
  selected indices vdrs = vdrs.
Proof.
  intros Hall. unfold selected. rewrite filter_all_id.
  - apply snd_zip. by rewrite length_seq.
  - apply Forall_forall. intros [i cv] Hin. simpl.
    apply list_elem_of_lookup in Hin as [j Hj].
    apply lookup_zip_with_Some in Hj as (i' & cv' & [= <- <-] & Hseq & Hcv).
    apply lookup_seq in Hseq as [-> Hlt]. apply Hall. done.
Qed.

(** X6: the selector with exactly the bits below the length of the slice
    set selects every validator: FilterValidators returns the slice as it
    is, without error. *)
Theorem FilterValidators_select_all (vdrs : list (CanonicalValidator.t PK)) :
  FilterValidators (N.ones (N.of_nat (length vdrs))) vdrs = (vdrs, None).
Proof.
  unfold FilterValidators.
  assert (Hlen : ¬ (length vdrs < BitLen (N.ones (N.of_nat (length vdrs))))%nat).
  { rewrite BitLen_gt. intros (i & Hle & Hbit). unfold Contains in Hbit.
    rewrite N.ones_spec_high in Hbit by lia. done. }
  rewrite (proj2 (Nat.ltb_ge _ _)) by lia.
  rewrite filter_loop_spec. simpl. f_equal.
  apply selected_all. intros i Hi. unfold Contains.
  apply N.ones_spec_low. lia.
Qed.

(** X7: SumWeight does not depend on the order of the validators: for
    weights that are [uint64] values, two orders of the same validators
    give the same sum or both the overflow error. *)
Theorem SumWeight_permutation (vdrs vdrs' : list (CanonicalValidator.t PK)) :
  cv_weights_ok vdrs → vdrs ≡ₚ vdrs' → SumWeight vdrs = SumWeight vdrs'.
Proof.
  intros Hok Hperm.
  assert (Hok' : cv_weights_ok vdrs') by (by rewrite <- Hperm).
  pose proof (sum_cv_weights_perm _ _ Hperm) as Hsum.
  destruct (SumWeight_spec vdrs Hok) as [Hgood Hbad].
  destruct (SumWeight_spec vdrs' Hok') as [Hgood' Hbad'].
  destruct (decide (sum_cv_weights vdrs <= MaxUint64)) as [Hle|Hgt].
  - rewrite Hgood, Hgood' by lia. by rewrite Hsum.
  - rewrite Hbad, Hbad' by lia. done.
Qed.

End FlattenProps.

(** ** The validator manager *)

Module ManagerProps.
Import Manager.

Implicit Types (s : state) (netID : ids.ID) (nodeID : ids.NodeID) (p mp : loc).

Lemma wadd_lt (a b : N) : wadd a b < 2 ^ 64.
Proof. unfold wadd. apply N.mod_lt. done. Qed.

Lemma wsub_exact (a b : N) : b <= a → a < 2 ^ 64 → wsub a b = a - b.
Proof.
  intros Hle Hlt. unfold wsub.
  rewrite (N.mod_small b) by lia.
  replace (a + 2 ^ 64 - b) with ((a - b) + 1 * 2 ^ 64) by lia.
  rewrite N.Div0.mod_add. apply N.mod_small. lia.
Qed.

(** *** GetValidator, entry by entry *)

Lemma GetValidator_Some s netID nodeID p :
  GetValidator s netID nodeID = Some p ↔
  ∃ mp, validators s !! netID = Some mp ∧ deref_map s mp !! nodeID = Some p.
Proof.
  unfold GetValidator. destruct (validators s !! netID) as [mp|].
  - destruct (deref_map s mp !! nodeID) as [q|] eqn:E.
    + split; [intros [= ->]; eauto|]. intros (mp' & [= <-] & Hq). congruence.
    + split; [done|]. intros (mp' & [= <-] & Hq). congruence.
  - split; [done|]. by intros (mp' & ? & _).
Qed.

Lemma GetValidator_None_net s netID nodeID :
  validators s !! netID = None → GetValidator s netID nodeID = None.
Proof. unfold GetValidator. by intros ->. Qed.

Lemma GetValidator_net s netID nodeID mp :
  validators s !! netID = Some mp →
  GetValidator s netID nodeID = deref_map s mp !! nodeID.
Proof.
  unfold GetValidator. intros ->. by destruct (deref_map s mp !! nodeID).
Qed.

(** *** RemoveWeight *)

Lemma reduced_Light val light :
  GetValidatorOutput.Light (reduced val light) = GetValidatorOutput.Light val - light.
Proof.
  unfold reduced. destruct (N.leb_spec light (GetValidatorOutput.Light val)); simpl; lia.
Qed.

(** The three ways [RemoveWeight] ends for a record that exists. *)
Lemma RemoveWeight_cases s netID nodeID light mp p :
  validators s !! netID = Some mp → deref_map s mp !! nodeID = Some p →
  let val' := reduced (deref s p) light in
  let inner := delete nodeID (deref_map s mp) in
  RemoveWeight s netID nodeID light =
    if GetValidatorOutput.Light val' =? 0 then
      if (size inner =? 0)%nat then
        (mk_state (<[p := val']> (objs s)) (<[mp := inner]> (sets s))
                  (delete netID (validators s)), None)
      else
        (mk_state (<[p := val']> (objs s)) (<[mp := inner]> (sets s)) (validators s),
         None)
    else (mk_state (<[p := val']> (objs s)) (sets s) (validators s), None).
Proof.
  intros Hnet Hnode. unfold RemoveWeight. rewrite Hnet, Hnode. reflexivity.
Qed.

(** C6: RemoveWeight on a record that exists never fails.  With a weight
    to remove that is the weight of the record or more, the weight is set
    to zero and not wrapped around, and the record is deleted: GetValidator
    finds nothing and GetWeight is zero.  If the record was the only one of
    its network the network is deleted as well: Count is zero for it and
    NumNets is one less; otherwise Count is one less and NumNets is as
    before.  With less to remove the record stays, with the difference as
    its weight. *)
Theorem RemoveWeight_spec s netID nodeID light p :
  GetValidator s netID nodeID = Some p →
  let val := deref s p in
  let s' := (RemoveWeight s netID nodeID light).1 in
  (RemoveWeight s netID nodeID light).2 = None ∧
  (GetValidatorOutput.Light val <= light →
     GetValidatorOutput.Light (deref s' p) = 0 ∧
     (GetValidatorOutput.Light val < light ∨
      GetValidatorOutput.Weight val = GetValidatorOutput.Light val ∧
      uint64 (GetValidatorOutput.Light val) →
      GetValidatorOutput.Weight (deref s' p) = 0) ∧
     GetValidator s' netID nodeID = None ∧
     GetWeight s' netID nodeID = 0 ∧
     (Count s netID = 1%nat →
        validators s' !! netID = None ∧ Count s' netID = 0%nat ∧
        S (NumNets s') = NumNets s) ∧
     (Count s netID ≠ 1%nat →
        S (Count s' netID) = Count s netID ∧ NumNets s' = NumNets s)) ∧
  (light < GetValidatorOutput.Light val →
     GetValidator s' netID nodeID = Some p ∧
     GetWeight s' netID nodeID = GetValidatorOutput.Light val - light ∧
     Count s' netID = Count s netID ∧ NumNets s' = NumNets s).
Proof.
  intros Hget val s'.
  apply GetValidator_Some in Hget as (mp & Hnet & Hnode).
  pose proof (RemoveWeight_cases s netID nodeID light mp p Hnet Hnode) as Hrw.
  cbv zeta in Hrw. fold val in Hrw.
  pose proof (reduced_Light val light) as HL.
  assert (Hsize : S (size (delete nodeID (deref_map s mp))) = size (deref_map s mp)).
  { rewrite map_size_delete_Some by eauto.
    assert (size (deref_map s mp) ≠ 0%nat); [|lia].
    apply map_size_ne_0_lookup. eauto. }
  assert (Hcount : Count s netID = size (deref_map s mp)).
  { unfold Count. by rewrite Hnet. }
  split.
  { rewrite Hrw. by repeat case_match. }
  split.
  - intros Hle.
    assert (Hzero : (GetValidatorOutput.Light (reduced val light) =? 0) = true).
    { apply N.eqb_eq. lia. }
    rewrite Hzero in Hrw.
    assert (Hobj : deref s' p = reduced val light).
    { unfold s', deref. rewrite Hrw. case_match; simpl; by rewrite lookup_insert_eq. }
    rewrite Hobj. split; [lia|]. split.
    { intros [Hlt|[Heq Hu]]; unfold reduced.
      - rewrite (proj2 (N.leb_gt _ _)) by done. done.
      - destruct (N.leb_spec light (GetValidatorOutput.Light val)); simpl; [|done].
        unfold uint64, MaxUint64 in Hu.
        rewrite wsub_exact by lia. lia. }
    destruct (size (delete nodeID (deref_map s mp)) =? 0)%nat eqn:Hlast.
    + (* the last record of the network *)
      apply Nat.eqb_eq in Hlast.
      assert (Hgone : validators s' !! netID = None).
      { unfold s'. rewrite Hrw. simpl. apply lookup_delete_eq. }
      split; [by apply GetValidator_None_net|].
      split; [unfold GetWeight, GetLight; by rewrite GetValidator_None_net|].
      split.
      * intros _. split; [done|]. split; [unfold Count; by rewrite Hgone|].
        unfold NumNets, s'. rewrite Hrw. simpl.
        rewrite map_size_delete_Some by eauto.
        assert (size (validators s) ≠ 0%nat); [|lia].
        apply map_size_ne_0_lookup. eauto.
      * intros Hne. lia.
    + apply Nat.eqb_neq in Hlast.
      assert (Hnet' : validators s' !! netID = Some mp).
      { unfold s'. by rewrite Hrw. }
      assert (Hinner : deref_map s' mp = delete nodeID (deref_map s mp)).
      { unfold s', deref_map. rewrite Hrw. simpl. by rewrite lookup_insert_eq. }
      assert (Hnone : GetValidator s' netID nodeID = None).
      { rewrite (GetValidator_net _ _ _ mp) by done.
        rewrite Hinner. apply lookup_delete_eq. }
      split; [done|].
      split; [unfold GetWeight, GetLight; by rewrite Hnone|].
      split; [intros H1; lia|]. intros _.
      split.
      * unfold Count at 1. rewrite Hnet', Hinner. lia.
      * unfold NumNets, s'. by rewrite Hrw.
  - intros Hlt.
    assert (Hzero : (GetValidatorOutput.Light (reduced val light) =? 0) = false).
    { apply N.eqb_neq. lia. }
    rewrite Hzero in Hrw.
    assert (Hnet' : validators s' !! netID = Some mp).
    { unfold s'. by rewrite Hrw. }
    assert (Hinner : deref_map s' mp = deref_map s mp).
    { unfold s', deref_map. by rewrite Hrw. }
    assert (Hget' : GetValidator s' netID nodeID = Some p).
    { rewrite (GetValidator_net _ _ _ mp) by done. by rewrite Hinner. }
    split; [done|]. split.
    + unfold GetWeight, GetLight. rewrite Hget'.
      unfold s', deref. rewrite Hrw. simpl. rewrite lookup_insert_eq. simpl.
      apply reduced_Light.
    + split.
      * unfold Count. by rewrite Hnet, Hnet', Hinner.
      * unfold NumNets, s'. by rewrite Hrw.
Qed.

(** *** AddWeight *)

(** The record after [AddWeight] added [light] to it. *)
Lemma AddWeight_existing s netID nodeID light p :
  GetValidator s netID nodeID = Some p →
  AddWeight s netID nodeID light =
    (mk_state (<[p := increased (deref s p) light]> (objs s)) (sets s) (validators s),
     None).
Proof.
  intros Hget. apply GetValidator_Some in Hget as (mp & Hnet & Hnode).
  unfold AddWeight, ensure_net. rewrite Hnet, Hnode. reflexivity.
Qed.

(** A node that is not in a network that exists: nothing changes. *)
Lemma AddWeight_missing_node s netID nodeID light mp :
  validators s !! netID = Some mp → deref_map s mp !! nodeID = None →
  AddWeight s netID nodeID light = (s, None).
Proof.
  intros Hnet Hnode. unfold AddWeight, ensure_net. by rewrite Hnet, Hnode.
Qed.

(** A network that is not in the registry: it is put there, empty. *)
Lemma AddWeight_missing_net s netID nodeID light :
  validators s !! netID = None →
  let s' := (AddWeight s netID nodeID light).1 in
  validators s' !! netID = Some (fresh (dom (sets s))) ∧
  NumNets s' = S (NumNets s) ∧ Count s' netID = 0%nat.
Proof.
  intros Hnet. unfold AddWeight, ensure_net. rewrite Hnet.
  unfold deref_map. simpl. rewrite lookup_insert_eq. simpl. rewrite lookup_empty.
  simpl. split; [apply lookup_insert_eq|]. split.
  - unfold NumNets. simpl. by apply map_size_insert_None.
  - unfold Count, deref_map. simpl. by rewrite !lookup_insert_eq.
Qed.

(** C9, at the input on which the code leaves the claim: AddWeight for a
    network the registry does not hold returns no error but is not a no-op.
    On a new manager it stores an empty entry for the network, so that
    NumNets, which was 0, is 1 afterwards, with no validator in the
    network. *)
Theorem AddWeight_unknown_net_is_stored netID nodeID light :
  (AddWeight NewManager netID nodeID light).2 = None ∧
  NumNets NewManager = 0%nat ∧
  NumNets (AddWeight NewManager netID nodeID light).1 = 1%nat ∧
  Count (AddWeight NewManager netID nodeID light).1 netID = 0%nat ∧
  GetValidator (AddWeight NewManager netID nodeID light).1 netID nodeID = None ∧
  (AddWeight NewManager netID nodeID light).1 ≠ NewManager.
Proof.
  assert (Hnet : validators NewManager !! netID = None) by apply lookup_empty.
  destruct (AddWeight_missing_net NewManager netID nodeID light Hnet)
    as (Hv & Hn & Hc).
  assert (Hres : AddWeight NewManager netID nodeID light
                 = ((ensure_net NewManager netID).1, None)).
  { unfold AddWeight, ensure_net. rewrite Hnet. unfold deref_map. simpl.
    rewrite lookup_insert_eq. simpl. by rewrite lookup_empty. }
  split; [by rewrite Hres|]. split; [done|]. split; [done|]. split; [done|].
  split.
  - rewrite Hres. unfold ensure_net. rewrite Hnet. simpl.
    unfold GetValidator, deref_map. simpl. rewrite !lookup_insert_eq. simpl.
    by rewrite lookup_empty.
  - intros Heq. rewrite Heq in Hn. done.
Qed.

(** *** Sums that wrap *)

Lemma wadd_mod (a b : N) : wadd (a mod 2 ^ 64) b = (a + b) mod 2 ^ 64.
Proof. unfold wadd. by rewrite N.Div0.add_mod_idemp_l. Qed.

Lemma Light_loop_spec s (vs : list loc) : ∀ total,
  Light_loop s (total mod 2 ^ 64) vs = (total + sum_Light s vs) mod 2 ^ 64.
Proof.
  induction vs as [|v rest IH]; intros total; simpl.
  - by rewrite N.add_0_r.
  - rewrite wadd_mod, IH. f_equal. lia.
Qed.

Lemma SubsetWeight_loop_spec s subnet (nodeIDs : list ids.NodeID) : ∀ total,
  SubsetWeight_loop s subnet (total mod 2 ^ 64) nodeIDs
  = (total + sum_subset s subnet nodeIDs) mod 2 ^ 64.
Proof.
  induction nodeIDs as [|nodeID rest IH]; intros total; simpl.
  - by rewrite N.add_0_r.
  - destruct (subnet !! nodeID) as [vdr|].
    + rewrite wadd_mod, IH. f_equal. lia.
    + apply IH.
Qed.

Lemma Light_loop_0 s (vs : list loc) :
  Light_loop s 0 vs = sum_Light s vs mod 2 ^ 64.
Proof. exact (Light_loop_spec s vs 0). Qed.

Lemma SubsetWeight_loop_0 s subnet (nodeIDs : list ids.NodeID) :
  SubsetWeight_loop s subnet 0 nodeIDs = sum_subset s subnet nodeIDs mod 2 ^ 64.
Proof. exact (SubsetWeight_loop_spec s subnet nodeIDs 0). Qed.

Lemma sum_Light_perm s (vs vs' : list loc) :
  vs ≡ₚ vs' → sum_Light s vs = sum_Light s vs'.
Proof. induction 1; simpl; lia. Qed.

Lemma sum_subset_perm s subnet (l l' : list ids.NodeID) :
  l ≡ₚ l' → sum_subset s subnet l = sum_subset s subnet l'.
Proof. induction 1; simpl; repeat case_match; lia. Qed.

(** C10: the weights of the registry are added without a check, modulo
    2^64.  AddWeight on a record that exists returns no error and leaves
    the record with its weight plus the weight added, modulo 2^64, in both
    weight fields; SubsetWeight returns, without error, the sum of the
    weights of the nodes of the subset that the network holds, modulo 2^64,
    and the total weight of a validator set is the sum of the weights of
    its records modulo 2^64, in whatever order the ranges yield them.  On
    a registry with two nodes of weight [MaxUint64] the total weight and
    the weight of the subset of both are [MaxUint64 - 1], and adding 1 to
    one of them leaves it with the weight 0, where SumWeight on two such
    validators fails. *)
Theorem registry_weights_wrap :
  (∀ s netID nodeID light p,
     GetValidator s netID nodeID = Some p →
     let s' := (AddWeight s netID nodeID light).1 in
     (AddWeight s netID nodeID light).2 = None ∧
     GetValidator s' netID nodeID = Some p ∧
     GetValidatorOutput.Light (deref s' p)
       = (GetValidatorOutput.Light (deref s p) + light) mod 2 ^ 64 ∧
     GetValidatorOutput.Weight (deref s' p)
       = (GetValidatorOutput.Weight (deref s p) + light) mod 2 ^ 64 ∧
     GetWeight s' netID nodeID = (GetWeight s netID nodeID + light) mod 2 ^ 64) ∧
  (∀ s netID nodeIDs subnet,
     validators s !! netID = Some subnet →
     ∀ order, order ≡ₚ elements nodeIDs →
     SubsetWeight_loop s (deref_map s subnet) 0 order
       = sum_subset s (deref_map s subnet) (elements nodeIDs) mod 2 ^ 64 ∧
     SubsetWeight s netID nodeIDs
       = (sum_subset s (deref_map s subnet) (elements nodeIDs) mod 2 ^ 64, None)) ∧
  (∀ s mp order,
     order ≡ₚ (map_to_list (deref_map s mp)).*2 →
     Light_loop s 0 order
       = sum_Light s (map_to_list (deref_map s mp)).*2 mod 2 ^ 64 ∧
     Light s (validatorSet mp)
       = sum_Light s (map_to_list (deref_map s mp)).*2 mod 2 ^ 64) ∧
  (∀ s netID mp,
     validators s !! netID = Some mp →
     TotalWeight s netID
       = (sum_Light s (map_to_list (deref_map s mp)).*2 mod 2 ^ 64, None)) ∧
  TotalWeight two_heavy 7 = (MaxUint64 - 1, None) ∧
  SubsetWeight two_heavy 7 {[1; 2]} = (MaxUint64 - 1, None) ∧
  (AddWeight two_heavy 7 1 1).2 = None ∧
  GetWeight (AddWeight two_heavy 7 1 1).1 7 1 = 0 ∧
  SumWeight [CanonicalValidator.mk () [] MaxUint64 [1];
             CanonicalValidator.mk () [] MaxUint64 [2]]
    = (0, Some (Errorf2 ErrWeightOverflow ErrOverflow)).
Proof.
  split; [|split; [|split; [|split]]].
  - intros s netID nodeID light p Hget s'.
    pose proof (AddWeight_existing s netID nodeID light p Hget) as Haw.
    assert (Hget' : GetValidator s' netID nodeID = Some p).
    { unfold s'. rewrite Haw. simpl. exact Hget. }
    assert (Hobj : deref s' p = increased (deref s p) light).
    { unfold s', deref at 1. rewrite Haw. simpl. by rewrite lookup_insert_eq. }
    split; [by rewrite Haw|]. split; [done|].
    rewrite Hobj. split; [done|]. split; [done|].
    unfold GetWeight, GetLight. by rewrite Hget', Hget, Hobj.
  - intros s netID nodeIDs subnet Hnet order Hperm. split.
    + rewrite SubsetWeight_loop_0. by rewrite (sum_subset_perm _ _ _ _ Hperm).
    + unfold SubsetWeight. rewrite Hnet. by rewrite SubsetWeight_loop_0.
  - intros s mp order Hperm. split.
    + rewrite Light_loop_0. by rewrite (sum_Light_perm _ _ _ Hperm).
    + unfold Light. by rewrite Light_loop_0.
  - intros s netID mp Hnet. unfold TotalWeight, TotalLight, GetValidators.
    rewrite Hnet. unfold Light. by rewrite Light_loop_0.
  - vm_compute. done.
Qed.

(** *** The heap stays well formed *)

Lemma deref_map_insert_eq s mp m objs' vals :
  deref_map (mk_state objs' (<[mp := m]> (sets s)) vals) mp = m.
Proof. unfold deref_map. simpl. by rewrite lookup_insert_eq. Qed.

Lemma deref_map_insert_ne s mp mp' m objs' vals :
  mp ≠ mp' →
  deref_map (mk_state objs' (<[mp := m]> (sets s)) vals) mp' = deref_map s mp'.
Proof. intros Hne. unfold deref_map. simpl. by rewrite lookup_insert_ne. Qed.

Lemma fresh_map_unused s netID mp :
  wf s → validators s !! netID = Some mp → mp ≠ fresh (dom (sets s)).
Proof.
  intros Hwf Hnet ->. apply (wf_net s Hwf) in Hnet.
  apply elem_of_dom in Hnet. by apply is_fresh in Hnet.
Qed.

Lemma fresh_obj_unused s netID nodeID p :
  wf s → GetValidator s netID nodeID = Some p → p ≠ fresh (dom (objs s)).
Proof.
  intros Hwf Hget ->. apply (wf_obj s Hwf) in Hget.
  apply elem_of_dom in Hget. by apply is_fresh in Hget.
Qed.

Lemma wf_NewManager : wf NewManager.
Proof.
  split.
  - intros netID mp. unfold NewManager. simpl. by rewrite lookup_empty.
  - intros netID netID' mp. unfold NewManager. simpl. by rewrite lookup_empty.
  - intros netID nodeID p. unfold entry, GetValidator, NewManager. simpl.
    by rewrite lookup_empty.
  - intros netID nodeID netID' nodeID' p. unfold entry, GetValidator, NewManager.
    simpl. by rewrite lookup_empty.
Qed.

(** [ensure_net] adds at most an empty network: the entries, the records
    and the well-formedness stay. *)
Lemma ensure_net_props s netID :
  wf s →
  wf (ensure_net s netID).1 ∧
  validators (ensure_net s netID).1 !! netID = Some (ensure_net s netID).2 ∧
  objs (ensure_net s netID).1 = objs s ∧
  ∀ n nd, GetValidator (ensure_net s netID).1 n nd = GetValidator s n nd.
Proof.
  intros Hwf. unfold ensure_net.
  destruct (validators s !! netID) as [mp|] eqn:Hnet; simpl; [done|].
  set (mp := fresh (dom (sets s))).
  set (s1 := mk_state (objs s) (<[mp := ∅]> (sets s)) (<[netID := mp]> (validators s))).
  assert (Hget : ∀ n nd, GetValidator s1 n nd = GetValidator s n nd).
  { intros n nd. destruct (decide (n = netID)) as [->|Hne].
    - rewrite (GetValidator_None_net s) by done.
      rewrite (GetValidator_net s1 _ _ mp) by apply lookup_insert_eq.
      unfold s1. rewrite deref_map_insert_eq. apply lookup_empty.
    - destruct (validators s !! n) as [mp'|] eqn:Hn.
      + rewrite (GetValidator_net s _ _ mp') by done.
        rewrite (GetValidator_net s1 _ _ mp')
          by (unfold s1; simpl; by rewrite lookup_insert_ne).
        unfold s1. rewrite deref_map_insert_ne; [done|].
        apply not_eq_sym. by eapply fresh_map_unused.
      + rewrite (GetValidator_None_net s) by done.
        apply GetValidator_None_net. unfold s1. simpl.
        by rewrite lookup_insert_ne. }
  split; [|split; [apply lookup_insert_eq|split; [done|exact Hget]]].
  split.
  - intros n mp'. unfold s1. simpl. destruct (decide (n = netID)) as [->|Hne].
    + rewrite lookup_insert_eq. intros [= <-]. rewrite lookup_insert_eq. eauto.
    + rewrite lookup_insert_ne by done. intros Hn.
      rewrite lookup_insert_ne by (apply not_eq_sym; by eapply fresh_map_unused).
      by eapply wf_net.
  - intros n n' mp'. unfold s1. simpl.
    destruct (decide (n = netID)) as [->|Hne];
      destruct (decide (n' = netID)) as [->|Hne']; [done|..].
    + rewrite lookup_insert_eq, lookup_insert_ne by done. intros [= <-] Hn'.
      by destruct (fresh_map_unused s n' mp Hwf Hn').
    + rewrite lookup_insert_eq, lookup_insert_ne by done. intros Hn [= <-].
      by destruct (fresh_map_unused s n mp Hwf Hn).
    + rewrite !lookup_insert_ne by done. by eapply wf_net_inj.
  - intros n nd p. unfold entry. rewrite Hget. by eapply wf_obj.
  - intros n nd n' nd' p. unfold entry. rewrite !Hget. by eapply wf_obj_inj.
Qed.

(** Two states with the same entries, one of which has all the records of
    the other: the well-formedness passes over when the networks are well
    formed. *)
Lemma wf_same_entries s s' :
  wf s →
  (∀ n mp, validators s' !! n = Some mp → is_Some (sets s' !! mp)) →
  (∀ n n' mp, validators s' !! n = Some mp → validators s' !! n' = Some mp → n = n') →
  (∀ n nd p, GetValidator s' n nd = Some p → GetValidator s n nd = Some p) →
  (∀ p, is_Some (objs s !! p) → is_Some (objs s' !! p)) →
  wf s'.
Proof.
  intros Hwf Hnet Hinj Hget Hobj. split; [done|done|..].
  - intros n nd p Hp. apply Hobj. eapply wf_obj; [done|]. by apply Hget.
  - intros n nd n' nd' p Hp Hp'. eapply (wf_obj_inj s Hwf); by apply Hget.
Qed.

(** The entries and the records after [AddStaker]. *)
Lemma AddStaker_props s netID nodeID publicKey txID light :
  wf s →
  let s' := (AddStaker s netID nodeID publicKey txID light).1 in
  let p := fresh (dom (objs s)) in
  wf s' ∧
  (∀ n nd, GetValidator s' n nd
           = if decide (n = netID ∧ nd = nodeID) then Some p else GetValidator s n nd) ∧
  deref s' p = GetValidatorOutput.mk nodeID publicKey [] light light txID ∧
  (∀ q, q ≠ p → deref s' q = deref s q).
Proof.
  intros Hwf. unfold AddStaker.
  destruct (ensure_net_props s netID Hwf) as (Hwf1 & Hnet1 & Hobjs1 & Hget1).
  destruct (ensure_net s netID) as [s1 mp]. simpl in Hwf1, Hnet1, Hobjs1, Hget1.
  rewrite Hobjs1. simpl.
  set (p := fresh (dom (objs s))).
  set (val := GetValidatorOutput.mk nodeID publicKey [] light light txID).
  set (s' := mk_state (<[p := val]> (objs s))
               (<[mp := <[nodeID := p]> (deref_map s1 mp)]> (sets s1)) (validators s1)).
  assert (Hget : ∀ n nd, GetValidator s' n nd
            = if decide (n = netID ∧ nd = nodeID) then Some p else GetValidator s n nd).
  { intros n nd. rewrite <- Hget1. destruct (decide (n = netID)) as [->|Hne].
    - rewrite (GetValidator_net s' _ _ mp), (GetValidator_net s1 _ _ mp) by done.
      unfold s'. rewrite deref_map_insert_eq.
      destruct (decide (nd = nodeID)) as [->|Hnd].
      + rewrite decide_True by done. apply lookup_insert_eq.
      + rewrite decide_False by (by intros [_ ?]). by rewrite lookup_insert_ne.
    - rewrite decide_False by (by intros [? _]).
      destruct (validators s1 !! n) as [mp'|] eqn:Hn.
      + rewrite (GetValidator_net s' _ _ mp'), (GetValidator_net s1 _ _ mp') by done.
        unfold s'. rewrite deref_map_insert_ne; [done|].
        intros <-. apply Hne. by eapply (wf_net_inj s1 Hwf1).
      + by rewrite !GetValidator_None_net. }
  assert (Hfresh : ∀ n nd, GetValidator s n nd ≠ Some p).
  { intros n nd Hp. by destruct (fresh_obj_unused s n nd p Hwf Hp). }
  split; [|split; [exact Hget|split]].
  - split.
    + intros n mp' Hn. unfold s'. simpl.
      destruct (decide (mp = mp')) as [->|Hne]; [rewrite lookup_insert_eq; eauto|].
      rewrite lookup_insert_ne by done. by eapply (wf_net s1 Hwf1).
    + apply (wf_net_inj s1 Hwf1).
    + intros n nd q. unfold entry. rewrite Hget. unfold s'. simpl.
      destruct (decide (n = netID ∧ nd = nodeID)).
      * intros [= <-]. rewrite lookup_insert_eq. eauto.
      * intros Hq. rewrite lookup_insert_ne by (intros <-; by eapply Hfresh).
        by eapply (wf_obj s Hwf).
    + intros n nd n' nd' q. unfold entry. rewrite !Hget.
      destruct (decide (n = netID ∧ nd = nodeID)) as [[-> ->]|Hne];
        destruct (decide (n' = netID ∧ nd' = nodeID)) as [[-> ->]|Hne']; [done|..].
      * intros [= <-] Hq. by destruct (Hfresh n' nd').
      * intros Hq [= <-]. by destruct (Hfresh n nd).
      * apply (wf_obj_inj s Hwf).
  - unfold deref, s'. simpl. by rewrite lookup_insert_eq.
  - intros q Hq. unfold deref, s'. simpl. by rewrite lookup_insert_ne.
Qed.

(** The entries and the records after [AddWeight]. *)
Lemma AddWeight_props s netID nodeID light :
  wf s →
  let s' := (AddWeight s netID nodeID light).1 in
  wf s' ∧
  (∀ n nd, GetValidator s' n nd = GetValidator s n nd) ∧
  (∀ p, GetValidator s netID nodeID = Some p →
        deref s' p = increased (deref s p) light) ∧
  (∀ q, GetValidator s netID nodeID ≠ Some q → deref s' q = deref s q).
Proof.
  intros Hwf. unfold AddWeight.
  destruct (ensure_net_props s netID Hwf) as (Hwf1 & Hnet1 & Hobjs1 & Hget1).
  destruct (ensure_net s netID) as [s1 mp]. simpl in Hwf1, Hnet1, Hobjs1, Hget1.
  pose proof (Hget1 netID nodeID) as Hentry.
  rewrite (GetValidator_net s1 _ _ mp) in Hentry by done.
  assert (Hderef1 : ∀ q, deref s1 q = deref s q).
  { intros q. unfold deref. by rewrite Hobjs1. }
  destruct (deref_map s1 mp !! nodeID) as [p|] eqn:Hnode; simpl.
  - split; [|split; [|split]].
    + eapply (wf_same_entries s1); [done|apply (wf_net s1 Hwf1)|apply (wf_net_inj s1 Hwf1)|done|].
      intros q Hq. simpl. destruct (decide (p = q)) as [->|Hne].
      * rewrite lookup_insert_eq. eauto.
      * by rewrite lookup_insert_ne.
    + intros n nd. by rewrite <- Hget1.
    + intros q. rewrite <- Hentry. intros [= <-].
      unfold deref at 1. simpl. rewrite lookup_insert_eq. simpl.
      by rewrite Hderef1.
    + intros q Hq. rewrite <- Hentry in Hq. rewrite <- Hderef1.
      unfold deref. simpl. rewrite lookup_insert_ne; [done|congruence].
  - split; [done|]. split; [done|]. split.
    + intros p. by rewrite <- Hentry.
    + intros q _. apply Hderef1.
Qed.

Lemma RemoveWeight_missing s netID nodeID light :
  GetValidator s netID nodeID = None → RemoveWeight s netID nodeID light = (s, None).
Proof.
  unfold GetValidator, RemoveWeight.
  destruct (validators s !! netID) as [mp|]; [|done].
  by destruct (deref_map s mp !! nodeID).
Qed.

(** The entries and the records after [RemoveWeight] on a record that
    exists. *)
Lemma RemoveWeight_props s netID nodeID light p :
  wf s → GetValidator s netID nodeID = Some p →
  let s' := (RemoveWeight s netID nodeID light).1 in
  let val' := reduced (deref s p) light in
  wf s' ∧
  (∀ n nd, GetValidator s' n nd
           = if decide (n = netID ∧ nd = nodeID)
             then (if GetValidatorOutput.Light val' =? 0 then None else Some p)
             else GetValidator s n nd) ∧
  deref s' p = val' ∧
  (∀ q, q ≠ p → deref s' q = deref s q).
Proof.
  intros Hwf Hget s' val'.
  apply GetValidator_Some in Hget as (mp & Hnet & Hnode).
  pose proof (RemoveWeight_cases s netID nodeID light mp p Hnet Hnode) as Hrw.
  cbv zeta in Hrw. fold val' in Hrw.
  assert (Hobj : deref s' p = val').
  { unfold s', deref. rewrite Hrw. repeat case_match; simpl; by rewrite lookup_insert_eq. }
  assert (Hother : ∀ q, q ≠ p → deref s' q = deref s q).
  { intros q Hq. unfold s', deref. rewrite Hrw.
    repeat case_match; simpl; by rewrite lookup_insert_ne. }
  assert (Hobjs : ∀ q, is_Some (objs s !! q) → is_Some (objs s' !! q)).
  { intros q Hq. unfold s'. rewrite Hrw.
    repeat case_match; simpl; (destruct (decide (p = q)) as [->|Hne];
      [rewrite lookup_insert_eq; eauto|by rewrite lookup_insert_ne]). }
  assert (Hother_net : ∀ n mp', n ≠ netID → validators s !! n = Some mp' → mp ≠ mp').
  { intros n mp' Hne Hn <-. apply Hne. by eapply (wf_net_inj s Hwf). }
  assert (Hget' : ∀ n nd, GetValidator s' n nd
            = if decide (n = netID ∧ nd = nodeID)
              then (if GetValidatorOutput.Light val' =? 0 then None else Some p)
              else GetValidator s n nd).
  { intros n nd. unfold s'. rewrite Hrw.
    destruct (GetValidatorOutput.Light val' =? 0) eqn:Hzero.
    - destruct (size (delete nodeID (deref_map s mp)) =? 0)%nat eqn:Hlast; simpl.
      + (* the network is deleted *)
        apply Nat.eqb_eq, map_size_empty_inv in Hlast.
        destruct (decide (n = netID)) as [->|Hne].
        * rewrite GetValidator_None_net by (simpl; apply lookup_delete_eq).
          destruct (decide (nd = nodeID)) as [->|Hnd].
          -- by rewrite decide_True.
          -- rewrite decide_False by (by intros [_ ?]).
             rewrite (GetValidator_net s _ _ mp) by done.
             rewrite <- (lookup_delete_ne (deref_map s mp) nodeID nd) by done.
             by rewrite Hlast, lookup_empty.
        * rewrite decide_False by (by intros [? _]).
          destruct (validators s !! n) as [mp'|] eqn:Hn.
          -- rewrite (GetValidator_net s _ _ mp') by done.
             rewrite (GetValidator_net _ _ _ mp')
               by (simpl; by rewrite lookup_delete_ne).
             rewrite deref_map_insert_ne; [done|by eapply Hother_net].
          -- rewrite (GetValidator_None_net s) by done.
             apply GetValidator_None_net. simpl. by rewrite lookup_delete_ne.
      + destruct (decide (n = netID)) as [->|Hne].
        * rewrite (GetValidator_net _ _ _ mp) by done.
          rewrite deref_map_insert_eq.
          destruct (decide (nd = nodeID)) as [->|Hnd].
          -- rewrite decide_True by done. apply lookup_delete_eq.
          -- rewrite decide_False by (by intros [_ ?]).
             rewrite lookup_delete_ne by done.
             by rewrite (GetValidator_net s _ _ mp).
        * rewrite decide_False by (by intros [? _]).
          destruct (validators s !! n) as [mp'|] eqn:Hn.
          -- rewrite (GetValidator_net s _ _ mp') by done.
             rewrite (GetValidator_net _ _ _ mp') by done.
             rewrite deref_map_insert_ne; [done|by eapply Hother_net].
          -- by rewrite !GetValidator_None_net.
    - simpl. destruct (decide (n = netID ∧ nd = nodeID)) as [[-> ->]|Hne].
      + rewrite (GetValidator_net _ _ _ mp) by done. exact Hnode.
      + done. }
  split; [|done].
  assert (Hsub : ∀ n nd q, GetValidator s' n nd = Some q → GetValidator s n nd = Some q).
  { intros n nd q. rewrite Hget'.
    destruct (decide (n = netID ∧ nd = nodeID)) as [[-> ->]|Hne]; [|done].
    destruct (GetValidatorOutput.Light val' =? 0); [done|]. intros [= <-].
    by rewrite (GetValidator_net s _ _ mp). }
  apply (wf_same_entries s); [done| | |done|done].
  - intros n mp'. unfold s'. rewrite Hrw. repeat case_match; simpl.
    + intros Hn. apply lookup_delete_Some in Hn as [_ Hn].
      destruct (decide (mp = mp')) as [->|Hne]; [rewrite lookup_insert_eq; eauto|].
      rewrite lookup_insert_ne by done. by eapply (wf_net s Hwf).
    + intros Hn.
      destruct (decide (mp = mp')) as [->|Hne]; [rewrite lookup_insert_eq; eauto|].
      rewrite lookup_insert_ne by done. by eapply (wf_net s Hwf).
    + by apply (wf_net s Hwf).
  - intros n n' mp'. unfold s'. rewrite Hrw. repeat case_match; simpl.
    + intros Hn Hn'. apply lookup_delete_Some in Hn as [_ Hn].
      apply lookup_delete_Some in Hn' as [_ Hn']. by eapply (wf_net_inj s Hwf).
    + by apply (wf_net_inj s Hwf).
    + by apply (wf_net_inj s Hwf).
Qed.

Lemma wf_run_call s (c : call) : wf s → wf (run_call s c).
Proof.
  intros Hwf. destruct c as [netID nodeID publicKey txID light|netID nodeID light
                            |netID nodeID light]; simpl.
  - by apply AddStaker_props.
  - by apply AddWeight_props.
  - destruct (GetValidator s netID nodeID) as [p|] eqn:Hget.
    + by eapply RemoveWeight_props.
    + by rewrite RemoveWeight_missing.
Qed.

Lemma wf_foldl_run_call (cs : list call) : ∀ s, wf s → wf (foldl run_call s cs).
Proof.
  induction cs as [|c cs IH]; intros s Hwf; simpl; [done|].
  by apply IH, wf_run_call.
Qed.

(** Every registry the calls of the manager build is well formed. *)
Lemma wf_run_calls (cs : list call) : wf (run_calls cs).
Proof. apply wf_foldl_run_call, wf_NewManager. Qed.

(** *** No zero weight *)

Lemma weights_kept_run_call s (c : call) :
  wf s → weights_kept s → call_ok c → stores_no_zero s c →
  weights_kept (run_call s c).
Proof.
  intros Hwf Hkept Hok Hnz.
  destruct c as [netID nodeID publicKey txID light|netID nodeID light
                |netID nodeID light]; simpl in *.
  - destruct (AddStaker_props s netID nodeID publicKey txID light Hwf)
      as (_ & Hget & Hnew & Hold).
    intros n nd q. rewrite Hget.
    destruct (decide (n = netID ∧ nd = nodeID)).
    + intros [= <-]. rewrite Hnew. simpl. split; [lia|done].
    + intros Hq. rewrite Hold; [by eapply Hkept|].
      by eapply fresh_obj_unused.
  - destruct (AddWeight_props s netID nodeID light Hwf) as (_ & Hget & Hnew & Hold).
    intros n nd q. rewrite Hget. intros Hq.
    destruct (decide (GetValidator s netID nodeID = Some q)) as [Hsame|Hdiff].
    + rewrite (Hnew q Hsame). simpl.
      destruct (Hkept _ _ _ Hsame) as (_ & Hw & _).
      pose proof (Hnz q Hsame) as Hne.
      pose proof (wadd_lt (GetValidatorOutput.Light (deref s q)) light) as Hlt.
      rewrite Hw. split; [lia|]. split; [done|].
      unfold uint64, MaxUint64. lia.
    + rewrite (Hold q Hdiff). by eapply Hkept.
  - destruct (GetValidator s netID nodeID) as [p|] eqn:Hp.
    + destruct (RemoveWeight_props s netID nodeID light p Hwf Hp)
        as (_ & Hget & Hnew & Hold).
      destruct (Hkept _ _ _ Hp) as (Hpos & Hw & Hu).
      intros n nd q. rewrite Hget.
      destruct (decide (n = netID ∧ nd = nodeID)) as [[-> ->]|Hne].
      * destruct (GetValidatorOutput.Light (reduced (deref s p) light) =? 0) eqn:Hz;
          [done|].
        intros [= <-]. rewrite Hnew. apply N.eqb_neq in Hz.
        rewrite reduced_Light in Hz.
        unfold reduced. unfold uint64, MaxUint64 in Hu.
        destruct (N.leb_spec light (GetValidatorOutput.Light (deref s p))); [|lia].
        simpl. rewrite Hw, wsub_exact by lia.
        split; [lia|]. split; [done|]. unfold uint64, MaxUint64. lia.
      * intros Hq. rewrite Hold; [by eapply Hkept|].
        intros ->. apply Hne. by eapply (wf_obj_inj s Hwf).
    + rewrite RemoveWeight_missing by done. done.
Qed.

Lemma weights_kept_foldl (cs : list call) : ∀ s,
  wf s → weights_kept s → no_zero_calls s cs → weights_kept (foldl run_call s cs).
Proof.
  induction cs as [|c cs IH]; intros s Hwf Hkept Hcs; simpl; [done|].
  destruct Hcs as (Hok & Hnz & Hrest).
  apply IH; [by apply wf_run_call|by apply weights_kept_run_call|done].
Qed.

(** C7, as amended: after a sequence of AddStaker, AddWeight and
    RemoveWeight calls on a new manager in which no staker is added with
    the weight zero and no AddWeight wraps the weight of its record around
    to zero, every record of the registry has a weight above zero, in both
    of its weight fields.  RemoveWeight is under no condition: whatever it
    is asked to remove, it leaves no record of weight zero. *)
Theorem registry_no_zero_weight (cs : list call) :
  no_zero_calls NewManager cs → all_positive (run_calls cs).
Proof.
  intros Hcs netID nodeID p Hp.
  assert (Hkept : weights_kept (run_calls cs)).
  { apply weights_kept_foldl; [apply wf_NewManager| |done].
    intros n nd q. unfold GetValidator, NewManager. simpl. by rewrite lookup_empty. }
  destruct (Hkept _ _ _ Hp) as (Hpos & Hw & _). rewrite Hw. done.
Qed.

(** *** GetMap *)

(** The read accessors look at the outer map, at the inner maps it leads
    to and at the records; states that agree on these agree on every
    read. *)
Lemma reads_agree_frame s s' :
  validators s' = validators s → objs s' = objs s →
  (∀ netID mp, validators s !! netID = Some mp → sets s' !! mp = sets s !! mp) →
  reads_agree s s'.
Proof.
  intros Hv Ho Hs.
  assert (Hderef : ∀ p, deref s p = deref s' p).
  { intros p. unfold deref. by rewrite Ho. }
  assert (Hmap : ∀ netID mp, validators s !! netID = Some mp →
                             deref_map s' mp = deref_map s mp).
  { intros netID mp Hn. unfold deref_map. by rewrite (Hs netID mp Hn). }
  assert (Hloop : ∀ vs total, Light_loop s total vs = Light_loop s' total vs).
  { induction vs as [|v vs IH]; intros total; simpl; [done|]. by rewrite IH, Hderef. }
  assert (Hsub : ∀ subnet l total,
            SubsetWeight_loop s subnet total l = SubsetWeight_loop s' subnet total l).
  { intros subnet. induction l as [|x l IH]; intros total; simpl; [done|].
    destruct (subnet !! x); by rewrite ?IH, ?Hderef. }
  assert (Hget : ∀ netID nodeID, GetValidator s netID nodeID = GetValidator s' netID nodeID).
  { intros netID nodeID. unfold GetValidator. rewrite Hv.
    destruct (validators s !! netID) as [mp|] eqn:Hn; [|done].
    by rewrite (Hmap netID mp Hn). }
  assert (Htotal : ∀ netID, TotalLight s netID = TotalLight s' netID).
  { intros netID. unfold TotalLight, GetValidators, Light. rewrite Hv.
    destruct (validators s !! netID) as [mp|] eqn:Hn; [|done].
    by rewrite (Hmap netID mp Hn), Hloop. }
  split; [unfold NumNets; by rewrite Hv|]. intros netID.
  split.
  { unfold Count. rewrite Hv.
    destruct (validators s !! netID) as [mp|] eqn:Hn; [|done].
    by rewrite (Hmap netID mp Hn). }
  split; [unfold GetValidators; by rewrite Hv|].
  split; [apply Htotal|]. split; [apply Htotal|]. split.
  { intros nodeIDs. unfold SubsetWeight. rewrite Hv.
    destruct (validators s !! netID) as [mp|] eqn:Hn; [|done].
    by rewrite (Hmap netID mp Hn), Hsub. }
  intros nodeID. split; [done|].
  split; [unfold GetLight; rewrite <- Hget;
          destruct (GetValidator s netID nodeID); by rewrite ?Hderef|].
  split; [unfold GetWeight, GetLight; rewrite <- Hget;
          destruct (GetValidator s netID nodeID); by rewrite ?Hderef|].
  intros p _. apply Hderef.
Qed.

(** The statements on a map object leave the outer map, the records and
    every other map object as they are. *)
Lemma run_map_ops_frame vmap (ops : list map_op) : ∀ s,
  validators (foldl (run_map_op vmap) s ops) = validators s ∧
  objs (foldl (run_map_op vmap) s ops) = objs s ∧
  ∀ mp, mp ≠ vmap → sets (foldl (run_map_op vmap) s ops) !! mp = sets s !! mp.
Proof.
  induction ops as [|op ops IH]; intros s; simpl; [done|].
  destruct (IH (run_map_op vmap s op)) as (Hv & Ho & Hs).
  split; [by rewrite Hv|]. split; [by rewrite Ho|].
  intros mp Hne. rewrite Hs by done. unfold run_map_op. simpl.
  by rewrite lookup_insert_ne.
Qed.

(** C8, as amended: GetMap returns a new map object that holds the node
    ids of the network with the pointers of the registry, the records
    themselves being shared.  Making it changes no read of the registry,
    and neither does any sequence of statements on the returned map
    (storing under a key, deleting a key, clearing it): NumNets, Count,
    GetValidators, the total weights, SubsetWeight, GetValidator, GetLight
    and GetWeight return what they returned before, and the pointers lead
    to the same records. *)
Theorem GetMap_copies_the_map s netID :
  wf s →
  let s1 := (GetMap s netID).1 in
  let vmap := (GetMap s netID).2 in
  sets s !! vmap = None ∧
  deref_map s1 vmap
    = match validators s !! netID with
      | Some subnet => deref_map s subnet
      | None => ∅
      end ∧
  reads_agree s s1 ∧
  ∀ ops, reads_agree s (foldl (run_map_op vmap) s1 ops).
Proof.
  intros Hwf s1 vmap.
  assert (Hvmap : vmap = fresh (dom (sets s))).
  { unfold vmap, GetMap. by destruct (validators s !! netID). }
  assert (Hnew : sets s !! vmap = None).
  { rewrite Hvmap. apply not_elem_of_dom, is_fresh. }
  assert (Hs1 : validators s1 = validators s ∧ objs s1 = objs s ∧
                ∀ mp, mp ≠ vmap → sets s1 !! mp = sets s !! mp).
  { unfold s1, GetMap. rewrite <- Hvmap.
    destruct (validators s !! netID); simpl;
      (split; [done|]; split; [done|]; intros mp Hne; by rewrite lookup_insert_ne). }
  destruct Hs1 as (Hv1 & Ho1 & Hsets1).
  assert (Hown : ∀ n mp, validators s !! n = Some mp → mp ≠ vmap).
  { intros n mp Hn. rewrite Hvmap. by eapply fresh_map_unused. }
  split; [done|]. split.
  { unfold s1, GetMap. rewrite <- Hvmap.
    destruct (validators s !! netID); apply deref_map_insert_eq. }
  split.
  - apply reads_agree_frame; [done|done|].
    intros n mp Hn. apply Hsets1. by eapply Hown.
  - intros ops. destruct (run_map_ops_frame vmap ops s1) as (Hv & Ho & Hs).
    apply reads_agree_frame; [by rewrite Hv|by rewrite Ho|].
    intros n mp Hn. rewrite Hs by (by eapply Hown). apply Hsets1. by eapply Hown.
Qed.

End ManagerProps.

(** ** More on the validator manager *)

Module ManagerMore.
Import Manager ManagerProps.

Implicit Types (s : state) (netID : ids.ID) (nodeID : ids.NodeID) (p mp : loc).

(** *** A network as a map from node ids to pointers *)

Lemma GetValidator_subnet s netID nodeID :
  GetValidator s netID nodeID = subnet_of s netID !! nodeID.
Proof.
  unfold GetValidator, subnet_of. destruct (validators s !! netID) as [mp|].
  - by destruct (deref_map s mp !! nodeID).
  - by rewrite lookup_empty.
Qed.

Lemma Count_subnet s netID : Count s netID = size (subnet_of s netID).
Proof.
  unfold Count, subnet_of. destruct (validators s !! netID); [done|].
  by rewrite map_size_empty.
Qed.

Lemma subnet_of_net s netID mp :
  validators s !! netID = Some mp → deref_map s mp = subnet_of s netID.
Proof. unfold subnet_of. by intros ->. Qed.

Lemma subnet_of_ext s' netID (m : gmap ids.NodeID loc) :
  (∀ nodeID, GetValidator s' netID nodeID = m !! nodeID) → subnet_of s' netID = m.
Proof.
  intros Hget. apply map_eq. intros nodeID. by rewrite <- GetValidator_subnet.
Qed.

(** *** The outer map after a call *)

Lemma ensure_net_validators s netID n :
  n ≠ netID → validators (ensure_net s netID).1 !! n = validators s !! n.
Proof.
  intros Hne. unfold ensure_net. destruct (validators s !! netID); simpl; [done|].
  by rewrite lookup_insert_ne.
Qed.

Lemma ensure_net_known s netID mp :
  validators s !! netID = Some mp → ensure_net s netID = (s, mp).
Proof. unfold ensure_net. by intros ->. Qed.

Lemma AddStaker_validators s netID nodeID publicKey txID light :
  validators (AddStaker s netID nodeID publicKey txID light).1
  = validators (ensure_net s netID).1.
Proof. unfold AddStaker. by destruct (ensure_net s netID). Qed.

Lemma AddWeight_validators s netID nodeID light :
  validators (AddWeight s netID nodeID light).1 = validators (ensure_net s netID).1.
Proof.
  unfold AddWeight. destruct (ensure_net s netID) as [s1 mp].
  by destruct (deref_map s1 mp !! nodeID).
Qed.

Lemma RemoveWeight_validators s netID nodeID light n :
  n ≠ netID → validators (RemoveWeight s netID nodeID light).1 !! n = validators s !! n.
Proof.
  intros Hne. destruct (GetValidator s netID nodeID) as [p|] eqn:Hp.
  - apply GetValidator_Some in Hp as (mp & Hnet & Hnode).
    rewrite (RemoveWeight_cases s netID nodeID light mp p Hnet Hnode). cbv zeta.
    destruct (_ =? 0); [destruct (_ =? _)%nat|]; simpl; [|done..].
    by rewrite lookup_delete_ne.
  - by rewrite RemoveWeight_missing.
Qed.

Lemma run_call_validators s (c : call) n :
  n ≠ call_net c → validators (run_call s c) !! n = validators s !! n.
Proof.
  intros Hne. destruct c; simpl in *.
  - by rewrite AddStaker_validators, ensure_net_validators.
  - by rewrite AddWeight_validators, ensure_net_validators.
  - by apply RemoveWeight_validators.
Qed.

(** *** The records stay consistent *)

Lemma records_consistent_run_call s (c : call) :
  wf s → records_consistent s → call_ok c → records_consistent (run_call s c).
Proof.
  intros Hwf Hrec Hok.
  destruct c as [netID nodeID publicKey txID light|netID nodeID light
                |netID nodeID light]; simpl in *.
  - destruct (AddStaker_props s netID nodeID publicKey txID light Hwf)
      as (_ & Hget & Hnew & Hold).
    intros n nd q. rewrite Hget.
    destruct (decide (n = netID ∧ nd = nodeID)) as [[-> ->]|Hne].
    + intros [= <-]. by rewrite Hnew.
    + intros Hq. rewrite Hold; [by eapply Hrec|]. by eapply fresh_obj_unused.
  - destruct (AddWeight_props s netID nodeID light Hwf) as (_ & Hget & Hnew & Hold).
    intros n nd q. rewrite Hget. intros Hq.
    destruct (decide (GetValidator s netID nodeID = Some q)) as [Hsame|Hdiff].
    + rewrite (Hnew q Hsame). simpl.
      destruct (Hrec _ _ _ Hq) as (Hid & Hw & _).
      pose proof (wadd_lt (GetValidatorOutput.Light (deref s q)) light) as Hlt.
      rewrite Hw. split; [done|]. split; [done|]. unfold uint64, MaxUint64. lia.
    + rewrite (Hold q Hdiff). by eapply Hrec.
  - destruct (GetValidator s netID nodeID) as [p|] eqn:Hp.
    + destruct (RemoveWeight_props s netID nodeID light p Hwf Hp)
        as (_ & Hget & Hnew & Hold).
      destruct (Hrec _ _ _ Hp) as (Hid & Hw & Hu).
      intros n nd q. rewrite Hget.
      destruct (decide (n = netID ∧ nd = nodeID)) as [[-> ->]|Hne].
      * destruct (GetValidatorOutput.Light (reduced (deref s p) light) =? 0) eqn:Hz;
          [done|].
        intros [= <-]. rewrite Hnew. apply N.eqb_neq in Hz.
        rewrite reduced_Light in Hz.
        unfold reduced. unfold uint64, MaxUint64 in Hu.
        destruct (N.leb_spec light (GetValidatorOutput.Light (deref s p))); [|lia].
        simpl. rewrite Hw, wsub_exact by lia.
        split; [done|]. split; [done|]. unfold uint64, MaxUint64. lia.
      * intros Hq. rewrite Hold; [by eapply Hrec|].
        intros ->. apply Hne. by eapply (wf_obj_inj s Hwf).
    + by rewrite RemoveWeight_missing.
Qed.

Lemma records_consistent_foldl (cs : list call) : ∀ s,
  wf s → records_consistent s → Forall call_ok cs →
  records_consistent (foldl run_call s cs).
Proof.
  induction cs as [|c cs IH]; intros s Hwf Hrec Hcs; simpl; [done|].
  apply Forall_cons in Hcs as [Hc Hcs].
  apply IH; [by apply wf_run_call|by apply records_consistent_run_call|done].
Qed.

Lemma records_consistent_NewManager : records_consistent NewManager.
Proof.
  intros n nd q. unfold GetValidator, NewManager. simpl. by rewrite lookup_empty.
Qed.

Lemma records_consistent_reachable (cs : list call) :
  Forall call_ok cs → records_consistent (run_calls cs).
Proof.
  intros Hcs. apply records_consistent_foldl;
    [apply wf_NewManager|apply records_consistent_NewManager|done].
Qed.

(** X8: in every registry that calls of AddStaker, AddWeight and
    RemoveWeight with [uint64] arguments build from a new manager, each
    record carries the node id it is stored under, and its field Weight,
    the alias kept for compatibility, equals its field Light. *)
Theorem records_stay_consistent (cs : list call) netID nodeID p :
  Forall call_ok cs →
  GetValidator (run_calls cs) netID nodeID = Some p →
  GetValidatorOutput.NodeID (deref (run_calls cs) p) = nodeID ∧
  GetValidatorOutput.Weight (deref (run_calls cs) p)
    = GetValidatorOutput.Light (deref (run_calls cs) p) ∧
  GetValidatorOutput.Light (deref (run_calls cs) p) <= MaxUint64.
Proof.
  intros Hcs Hp. exact (records_consistent_reachable cs Hcs netID nodeID p Hp).
Qed.

(** *** AddStaker *)

Lemma subnet_of_AddStaker s netID nodeID publicKey txID light n :
  wf s →
  subnet_of (AddStaker s netID nodeID publicKey txID light).1 n
  = if decide (n = netID) then <[nodeID := fresh (dom (objs s))]> (subnet_of s n)
    else subnet_of s n.
Proof.
  intros Hwf.
  destruct (AddStaker_props s netID nodeID publicKey txID light Hwf) as (_ & Hget & _).
  apply subnet_of_ext. intros nd. rewrite Hget.
  destruct (decide (n = netID)) as [->|Hne].
  - destruct (decide (nd = nodeID)) as [->|Hnd].
    + rewrite decide_True by done. by rewrite lookup_insert_eq.
    + rewrite decide_False by (by intros [_ ?]).
      rewrite lookup_insert_ne by done. apply GetValidator_subnet.
  - rewrite decide_False by (by intros [? _]). apply GetValidator_subnet.
Qed.

(** X9: AddStaker and the reads that follow.  On a well-formed registry
    AddStaker returns no error; GetValidator then finds, for the network
    and the node, a new record with the node id, the key bytes, the
    transaction id and the weight given, in both weight fields, and
    GetWeight returns that weight.  For every other network or node
    GetValidator returns what it returned before, and no record that was
    there is changed, the one that is replaced included: a pointer got
    earlier still leads to the old record.  Count grows by one, unless the
    node was in the network, and NumNets grows by one exactly when the
    network was not in the registry. *)
Theorem AddStaker_then_read s netID nodeID publicKey txID light :
  wf s →
  let s' := (AddStaker s netID nodeID publicKey txID light).1 in
  let p := fresh (dom (objs s)) in
  (AddStaker s netID nodeID publicKey txID light).2 = None ∧
  objs s !! p = None ∧
  GetValidator s' netID nodeID = Some p ∧
  deref s' p = GetValidatorOutput.mk nodeID publicKey [] light light txID ∧
  GetWeight s' netID nodeID = light ∧
  (∀ n nd, ¬ (n = netID ∧ nd = nodeID) →
           GetValidator s' n nd = GetValidator s n nd) ∧
  (∀ q, is_Some (objs s !! q) → deref s' q = deref s q) ∧
  Count s' netID
    = match GetValidator s netID nodeID with
      | Some _ => Count s netID
      | None => S (Count s netID)
      end ∧
  NumNets s'
    = match validators s !! netID with
      | Some _ => NumNets s
      | None => S (NumNets s)
      end.
Proof.
  intros Hwf s' p.
  destruct (AddStaker_props s netID nodeID publicKey txID light Hwf)
    as (_ & Hget & Hnew & Hold).
  assert (Hfresh : objs s !! p = None) by apply not_elem_of_dom, is_fresh.
  assert (Hp : GetValidator s' netID nodeID = Some p).
  { unfold s'. rewrite Hget. by rewrite decide_True. }
  split; [unfold AddStaker; by destruct (ensure_net s netID)|].
  split; [done|]. split; [done|]. split; [done|]. split.
  { unfold GetWeight, GetLight. fold s'. rewrite Hp. fold p in Hnew. fold s' in Hnew.
    by rewrite Hnew. }
  split.
  { intros n nd Hne. unfold s'. rewrite Hget. by rewrite decide_False. }
  split.
  { intros q Hq. apply Hold. intros ->. fold p in Hq. rewrite Hfresh in Hq.
    by destruct Hq. }
  split.
  - unfold s'. rewrite !Count_subnet, subnet_of_AddStaker, decide_True by done.
    rewrite GetValidator_subnet, map_size_insert.
    by destruct (subnet_of s netID !! nodeID).
  - unfold NumNets, s'. rewrite AddStaker_validators. unfold ensure_net.
    destruct (validators s !! netID) eqn:Hn; simpl; [done|].
    by apply map_size_insert_None.
Qed.

(** *** Calls for records that are not there *)

(** X10: RemoveWeight for a network or a node the registry does not hold
    returns no error and the registry as it was; so does AddWeight for a
    node that is not in a network the registry holds. *)
Theorem missing_record_no_op s netID nodeID light :
  (GetValidator s netID nodeID = None →
     RemoveWeight s netID nodeID light = (s, None)) ∧
  (is_Some (validators s !! netID) → GetValidator s netID nodeID = None →
     AddWeight s netID nodeID light = (s, None)).
Proof.
  split; [apply RemoveWeight_missing|].
  intros [mp Hnet] Hget. rewrite (GetValidator_net _ _ _ mp) in Hget by done.
  unfold AddWeight. rewrite (ensure_net_known s netID mp) by done. by rewrite Hget.
Qed.

(** *** AddWeight and RemoveWeight of the same weight *)

Lemma state_eq s s' :
  objs s = objs s' → sets s = sets s' → validators s = validators s' → s = s'.
Proof. destruct s, s'. simpl. by intros -> -> ->. Qed.

(** X11: adding a weight to a record and removing the same weight again.
    For a record of a well-formed registry with a weight above zero, the
    same in both fields: when the sum of the two weights is a [uint64],
    RemoveWeight after AddWeight gives back the registry as it was; when
    the sum overflows, AddWeight leaves a weight below the weight added,
    and RemoveWeight then deletes the record. *)
Theorem AddWeight_then_RemoveWeight s netID nodeID light p :
  wf s → GetValidator s netID nodeID = Some p →
  0 < GetValidatorOutput.Light (deref s p) →
  GetValidatorOutput.Weight (deref s p) = GetValidatorOutput.Light (deref s p) →
  uint64 (GetValidatorOutput.Light (deref s p)) → uint64 light →
  let s1 := (AddWeight s netID nodeID light).1 in
  let s2 := (RemoveWeight s1 netID nodeID light).1 in
  (GetValidatorOutput.Light (deref s p) + light <= MaxUint64 → s2 = s) ∧
  (MaxUint64 < GetValidatorOutput.Light (deref s p) + light →
     GetWeight s1 netID nodeID < light ∧
     GetValidator s2 netID nodeID = None ∧ GetWeight s2 netID nodeID = 0).
Proof.
  intros Hwf Hget Hpos Hw Hu Hlight s1 s2.
  pose proof (AddWeight_existing s netID nodeID light p Hget) as Haw.
  assert (Hs1 : s1 = mk_state (<[p := increased (deref s p) light]> (objs s))
                              (sets s) (validators s)).
  { unfold s1. by rewrite Haw. }
  assert (Hget1 : GetValidator s1 netID nodeID = Some p).
  { rewrite Hs1. exact Hget. }
  assert (Hobj1 : deref s1 p = increased (deref s p) light).
  { rewrite Hs1. unfold deref at 1. simpl. by rewrite lookup_insert_eq. }
  destruct (wf_obj s Hwf _ _ _ Hget) as [val Hval].
  assert (Hderef : deref s p = val) by (unfold deref; by rewrite Hval).
  unfold uint64, MaxUint64 in *. rewrite Hderef in *.
  destruct val as [id pk rk L W tx]. simpl in *. subst W.
  split.
  - intros Hsum.
    apply GetValidator_Some in Hget1 as (mp & Hnet1 & Hnode1).
    pose proof (RemoveWeight_cases s1 netID nodeID light mp p Hnet1 Hnode1) as Hrw.
    cbv zeta in Hrw. rewrite Hobj1 in Hrw.
    assert (Hadd : wadd L light = L + light).
    { unfold wadd. apply N.mod_small. lia. }
    assert (Hred : reduced (increased (GetValidatorOutput.mk id pk rk L L tx) light) light
                   = GetValidatorOutput.mk id pk rk L L tx).
    { unfold reduced, increased. simpl. rewrite Hadd.
      rewrite (proj2 (N.leb_le _ _)) by lia.
      rewrite wsub_exact by lia. f_equal; lia. }
    rewrite Hred in Hrw. simpl in Hrw.
    rewrite (proj2 (N.eqb_neq L 0)) in Hrw by lia.
    unfold s2. rewrite Hrw. simpl. rewrite Hs1. simpl.
    apply state_eq; simpl; [|done..].
    rewrite insert_insert_eq. by apply insert_id.
  - intros Hover.
    assert (Hwrap : wadd L light = L + light - 2 ^ 64).
    { unfold wadd. replace (L + light) with ((L + light - 2 ^ 64) + 1 * 2 ^ 64) at 1 by lia.
      rewrite N.Div0.mod_add. apply N.mod_small. lia. }
    assert (Hlt : GetWeight s1 netID nodeID < light).
    { unfold GetWeight, GetLight. rewrite Hget1, Hobj1. simpl. lia. }
    split; [done|].
    assert (Hwf1 : wf s1) by (by apply AddWeight_props).
    destruct (RemoveWeight_props s1 netID nodeID light p Hwf1 Hget1)
      as (_ & Hget2 & _).
    assert (Hzero : (GetValidatorOutput.Light (reduced (deref s1 p) light) =? 0) = true).
    { apply N.eqb_eq. rewrite reduced_Light, Hobj1. simpl. lia. }
    assert (Hnone : GetValidator s2 netID nodeID = None).
    { unfold s2. rewrite Hget2, decide_True by done. by rewrite Hzero. }
    split; [done|]. unfold GetWeight, GetLight. by rewrite Hnone.
Qed.

(** *** The reads of one network *)

Lemma Light_loop_ext s s' (vs : list loc) :
  (∀ q, q ∈ vs → deref s' q = deref s q) →
  ∀ total, Light_loop s' total vs = Light_loop s total vs.
Proof.
  induction vs as [|v vs IH]; intros Hq total; simpl; [done|].
  rewrite (Hq v) by left. apply IH. intros q Hin. apply Hq. by right.
Qed.

Lemma SubsetWeight_loop_ext s s' (subnet : gmap ids.NodeID loc) (l : list ids.NodeID) :
  (∀ nd q, subnet !! nd = Some q → deref s' q = deref s q) →
  ∀ total, SubsetWeight_loop s' subnet total l = SubsetWeight_loop s subnet total l.
Proof.
  intros Hq. induction l as [|x l IH]; intros total; simpl; [done|].
  destruct (subnet !! x) as [q|] eqn:Hx; [|apply IH].
  rewrite (Hq x q Hx). apply IH.
Qed.

Lemma map_values_elem_of (m : gmap ids.NodeID loc) q :
  q ∈ (map_to_list m).*2 → ∃ nd, m !! nd = Some q.
Proof.
  rewrite list_elem_of_fmap. intros ([nd q'] & -> & Hin).
  exists nd. by apply elem_of_map_to_list.
Qed.

(** The reads of a network look at its entry in the outer map, at its
    node ids and pointers, and at the records behind these. *)
Lemma net_reads_frame s s' netID :
  validators s' !! netID = validators s !! netID →
  subnet_of s' netID = subnet_of s netID →
  (∀ nd q, subnet_of s netID !! nd = Some q → deref s' q = deref s q) →
  net_reads_agree s s' netID.
Proof.
  intros Hv Hsub Hderef.
  assert (Hget : ∀ nd, GetValidator s netID nd = GetValidator s' netID nd).
  { intros nd. by rewrite !GetValidator_subnet, Hsub. }
  assert (Hmap : ∀ mp, validators s !! netID = Some mp →
                       deref_map s' mp = deref_map s mp).
  { intros mp Hn. rewrite (subnet_of_net s netID mp Hn).
    rewrite (subnet_of_net s' netID mp) by (by rewrite Hv). done. }
  assert (Htotal : TotalLight s netID = TotalLight s' netID).
  { unfold TotalLight, GetValidators, Light. rewrite Hv.
    destruct (validators s !! netID) as [mp|] eqn:Hn; [|done].
    rewrite (Hmap mp eq_refl). f_equal. symmetry. apply Light_loop_ext.
    intros q Hq. apply map_values_elem_of in Hq as [nd Hnd].
    apply (Hderef nd). by rewrite <- (subnet_of_net s netID mp Hn). }
  split; [by rewrite !Count_subnet, Hsub|].
  split; [unfold GetValidators; by rewrite Hv|].
  split; [done|]. split; [done|]. split.
  { intros nodeIDs. unfold SubsetWeight. rewrite Hv.
    destruct (validators s !! netID) as [mp|] eqn:Hn; [|done].
    rewrite (Hmap mp eq_refl). f_equal. symmetry. apply SubsetWeight_loop_ext.
    intros nd q Hnd. apply (Hderef nd). by rewrite <- (subnet_of_net s netID mp Hn). }
  intros nd. split; [done|].
  assert (Hlight : GetLight s netID nd = GetLight s' netID nd).
  { unfold GetLight. rewrite <- Hget.
    destruct (GetValidator s netID nd) as [q|] eqn:Hq; [|done].
    rewrite GetValidator_subnet in Hq. by rewrite (Hderef nd q Hq). }
  split; [done|]. split; [done|].
  intros q Hq. rewrite GetValidator_subnet in Hq. symmetry. by apply (Hderef nd).
Qed.

Lemma reads_agree_nets s s' :
  NumNets s = NumNets s' → (∀ netID, net_reads_agree s s' netID) → reads_agree s s'.
Proof. intros Hn Hnets. split; [done|]. intros netID. apply Hnets. Qed.

(** What a call leaves of another network. *)
Lemma run_call_other_net s (c : call) n :
  wf s → n ≠ call_net c →
  subnet_of (run_call s c) n = subnet_of s n ∧
  (∀ nd q, subnet_of s n !! nd = Some q → deref (run_call s c) q = deref s q).
Proof.
  intros Hwf Hne.
  destruct c as [netID nodeID publicKey txID light|netID nodeID light
                |netID nodeID light]; simpl in *.
  - destruct (AddStaker_props s netID nodeID publicKey txID light Hwf)
      as (_ & Hget & _ & Hold).
    split.
    + apply subnet_of_ext. intros nd. rewrite Hget, decide_False by (by intros [? _]).
      apply GetValidator_subnet.
    + intros nd q Hq. apply Hold. rewrite <- GetValidator_subnet in Hq.
      by eapply fresh_obj_unused.
  - destruct (AddWeight_props s netID nodeID light Hwf) as (_ & Hget & _ & Hold).
    split.
    + apply subnet_of_ext. intros nd. rewrite Hget. apply GetValidator_subnet.
    + intros nd q Hq. apply Hold. rewrite <- GetValidator_subnet in Hq.
      intros Hp. apply Hne. by destruct (wf_obj_inj s Hwf _ _ _ _ _ Hq Hp).
  - destruct (GetValidator s netID nodeID) as [p|] eqn:Hp.
    + destruct (RemoveWeight_props s netID nodeID light p Hwf Hp)
        as (_ & Hget & _ & Hold).
      split.
      * apply subnet_of_ext. intros nd.
        rewrite Hget, decide_False by (by intros [? _]). apply GetValidator_subnet.
      * intros nd q Hq. apply Hold. rewrite <- GetValidator_subnet in Hq.
        intros ->. apply Hne. by destruct (wf_obj_inj s Hwf _ _ _ _ _ Hq Hp).
    + by rewrite RemoveWeight_missing.
Qed.

(** X12: the networks are kept apart.  A call of AddStaker, AddWeight or
    RemoveWeight for one network of a well-formed registry changes no read
    of any other network: Count, GetValidators, the total weights,
    SubsetWeight, GetValidator, GetLight and GetWeight return for it what
    they returned before, the pointers lead to the same records, and the
    network is in the registry after the call exactly if it was before. *)
Theorem call_leaves_other_networks s (c : call) netID :
  wf s → netID ≠ call_net c →
  net_reads_agree s (run_call s c) netID ∧
  validators (run_call s c) !! netID = validators s !! netID.
Proof.
  intros Hwf Hne. destruct (run_call_other_net s c netID Hwf Hne) as [Hsub Hderef].
  pose proof (run_call_validators s c netID Hne) as Hv.
  split; [|done]. by apply net_reads_frame.
Qed.

(** *** AddStaker and RemoveWeight of the same weight *)

(** X13: adding a staker and removing its whole weight again.  For a node
    that is not in the registry, and a network that is not in the registry
    or has a validator, RemoveWeight of the weight given to AddStaker
    undoes the AddStaker for every read: NumNets, Count, GetValidators, the
    total weights, SubsetWeight, GetValidator, GetLight and GetWeight return
    what they returned before the two calls. *)
Theorem AddStaker_then_RemoveWeight s netID nodeID publicKey txID light :
  wf s → GetValidator s netID nodeID = None →
  validators s !! netID = None ∨ Count s netID ≠ 0%nat →
  let s1 := (AddStaker s netID nodeID publicKey txID light).1 in
  let s2 := (RemoveWeight s1 netID nodeID light).1 in
  reads_agree s s2.
Proof.
  intros Hwf Hnone Hnet s1 s2.
  destruct (AddStaker_props s netID nodeID publicKey txID light Hwf)
    as (Hwf1 & Hget1 & Hnew1 & Hold1).
  fold s1 in Hwf1, Hget1, Hnew1, Hold1.
  set (p := fresh (dom (objs s))) in *.
  assert (Hp1 : GetValidator s1 netID nodeID = Some p).
  { rewrite Hget1. by rewrite decide_True. }
  destruct (RemoveWeight_props s1 netID nodeID light p Hwf1 Hp1)
    as (_ & Hget2 & _ & Hold2).
  fold s2 in Hget2, Hold2.
  assert (Hzero : (GetValidatorOutput.Light (reduced (deref s1 p) light) =? 0) = true).
  { apply N.eqb_eq. rewrite reduced_Light, Hnew1. simpl. lia. }
  rewrite Hzero in Hget2.
  assert (Hget : ∀ n nd, GetValidator s2 n nd = GetValidator s n nd).
  { intros n nd. rewrite Hget2, Hget1.
    destruct (decide (n = netID ∧ nd = nodeID)) as [[-> ->]|Hne]; done. }
  assert (Hderef : ∀ n nd q, subnet_of s n !! nd = Some q → deref s2 q = deref s q).
  { intros n nd q Hq. rewrite <- GetValidator_subnet in Hq.
    assert (q ≠ p) by (by eapply fresh_obj_unused).
    by rewrite Hold2, Hold1. }
  assert (Hsub1 : subnet_of s1 netID = <[nodeID := p]> (subnet_of s netID)).
  { unfold s1. by rewrite subnet_of_AddStaker, decide_True. }
  pose proof Hp1 as Hp1'. apply GetValidator_Some in Hp1' as (mp1 & Hnet1 & Hnode1).
  assert (Hinner : delete nodeID (deref_map s1 mp1) = subnet_of s netID).
  { rewrite (subnet_of_net s1 netID mp1 Hnet1), Hsub1, delete_insert_eq.
    apply delete_id. by rewrite <- GetValidator_subnet. }
  assert (Hv : ∀ n, validators s2 !! n = validators s !! n).
  { intros n. destruct (decide (n = netID)) as [->|Hne].
    - unfold s2. rewrite (RemoveWeight_cases s1 netID nodeID light mp1 p Hnet1 Hnode1).
      cbv zeta. rewrite Hzero, Hinner, <- Count_subnet.
      destruct Hnet as [Habsent|Hcount].
      + assert (Hc : Count s netID = 0%nat) by (unfold Count; by rewrite Habsent).
        rewrite Hc. simpl. by rewrite lookup_delete_eq, Habsent.
      + rewrite (proj2 (Nat.eqb_neq _ _) Hcount). simpl. rewrite Hnet1.
        unfold s1 in Hnet1. rewrite AddStaker_validators in Hnet1.
        destruct (validators s !! netID) as [mp|] eqn:Hn.
        * rewrite (ensure_net_known s netID mp Hn) in Hnet1. simpl in Hnet1.
          congruence.
        * unfold Count in Hcount. by rewrite Hn in Hcount.
    - unfold s2. rewrite RemoveWeight_validators by done.
      unfold s1. by rewrite AddStaker_validators, ensure_net_validators. }
  apply reads_agree_nets.
  - unfold NumNets. f_equal. symmetry. by apply map_eq.
  - intros n. apply net_reads_frame; [done| |by apply Hderef].
    apply subnet_of_ext. intros nd. rewrite Hget. apply GetValidator_subnet.
Qed.

(** *** The node ids of a network: GetValidatorIDs, Has, Len, Sample *)

Lemma GetValidatorIDs_subnet s netID :
  GetValidatorIDs s netID = (map_to_list (subnet_of s netID)).*1.
Proof.
  unfold GetValidatorIDs, subnet_of. destruct (validators s !! netID); [done|].
  by rewrite map_to_list_empty.
Qed.

Lemma GetValidatorIDs_NoDup s netID : NoDup (GetValidatorIDs s netID).
Proof. rewrite GetValidatorIDs_subnet. apply NoDup_fst_map_to_list. Qed.

Lemma GetValidatorIDs_elem_of s netID nodeID :
  nodeID ∈ GetValidatorIDs s netID ↔ is_Some (GetValidator s netID nodeID).
Proof.
  rewrite GetValidatorIDs_subnet, GetValidator_subnet, list_elem_of_fmap. split.
  - intros ([nd q] & -> & Hin). apply elem_of_map_to_list in Hin. eauto.
  - intros [q Hq]. exists (nodeID, q). split; [done|]. by apply elem_of_map_to_list.
Qed.

Lemma GetValidatorIDs_length s netID :
  length (GetValidatorIDs s netID) = Count s netID.
Proof.
  by rewrite GetValidatorIDs_subnet, Count_subnet, length_fmap, length_map_to_list.
Qed.

Lemma Len_GetValidators s netID : Len s (GetValidators s netID).1 = Count s netID.
Proof. unfold GetValidators, Count. by destruct (validators s !! netID). Qed.

Lemma Has_GetValidators s netID nodeID :
  Has s (GetValidators s netID).1 nodeID = true
  ↔ is_Some (GetValidator s netID nodeID).
Proof.
  unfold GetValidators, GetValidator.
  destruct (validators s !! netID) as [mp|]; simpl.
  - rewrite bool_decide_eq_true.
    destruct (deref_map s mp !! nodeID); split; intros [? ?]; by eauto.
  - split; [done|]. by intros [? ?].
Qed.

(** X14: GetValidatorIDs, and Has and Len of the set GetValidators returns,
    describe the same validators as GetValidator and Count: the list of
    GetValidatorIDs has no node id twice, holds exactly the node ids for
    which GetValidator finds a record, and is as long as Count says; Has
    answers true exactly for those node ids and Len is Count. *)
Theorem GetValidatorIDs_Has_Len s netID :
  NoDup (GetValidatorIDs s netID) ∧
  length (GetValidatorIDs s netID) = Count s netID ∧
  Len s (GetValidators s netID).1 = Count s netID ∧
  ∀ nodeID,
    (nodeID ∈ GetValidatorIDs s netID ↔ is_Some (GetValidator s netID nodeID)) ∧
    (Has s (GetValidators s netID).1 nodeID = true
       ↔ is_Some (GetValidator s netID nodeID)).
Proof.
  split; [apply GetValidatorIDs_NoDup|].
  split; [apply GetValidatorIDs_length|].
  split; [apply Len_GetValidators|].
  intros nodeID. split; [apply GetValidatorIDs_elem_of|apply Has_GetValidators].
Qed.

Lemma Sample_loop_take (size : Z) (order : list ids.NodeID) : ∀ acc,
  Sample_loop size acc order = acc ++ take (Z.to_nat size - length acc) order.
Proof.
  induction order as [|nodeID rest IH]; intros acc; simpl.
  - by rewrite take_nil, app_nil_r.
  - destruct (Z.leb_spec size (Z.of_nat (length acc))) as [Hle|Hlt].
    + replace (Z.to_nat size - length acc)%nat with 0%nat by lia.
      by rewrite app_nil_r.
    + rewrite IH, length_app. simpl.
      replace (Z.to_nat size - length acc)%nat
        with (S (Z.to_nat size - (length acc + 1)))%nat by lia.
      simpl. by rewrite <- app_assoc.
Qed.

(** X15: Sample with a size for which the slice is made, whatever the
    order in which the range yields the node ids of the network.  The
    result is the first [size] node ids the range yields: it has [size]
    node ids, or all of the network when the network has fewer; no node id
    twice; only node ids for which GetValidator finds a record; and with a
    size of at least Count it is the whole network.  The error is always
    nil. *)
Theorem Sample_spec s netID (size : Z) (order : list ids.NodeID) :
  makeslice_ok size = true → order ≡ₚ GetValidatorIDs s netID →
  let nodeIDs := Sample_loop size [] order in
  nodeIDs = take (Z.to_nat size) order ∧
  length nodeIDs = Nat.min (Z.to_nat size) (Count s netID) ∧
  NoDup nodeIDs ∧
  (∀ nodeID, nodeID ∈ nodeIDs → is_Some (GetValidator s netID nodeID)) ∧
  ((Z.of_nat (Count s netID) ≤ size)%Z → nodeIDs ≡ₚ GetValidatorIDs s netID) ∧
  Sample s netID size = Some (Sample_loop size [] (GetValidatorIDs s netID), None).
Proof.
  intros Hsize Hperm nodeIDs.
  assert (Htake : nodeIDs = take (Z.to_nat size) order).
  { unfold nodeIDs. rewrite Sample_loop_take. simpl. f_equal. lia. }
  assert (Hlen : length order = Count s netID).
  { by rewrite Hperm, GetValidatorIDs_length. }
  assert (Hnodup : NoDup order).
  { rewrite Hperm. apply GetValidatorIDs_NoDup. }
  split; [done|]. rewrite Htake.
  split; [by rewrite length_take, Hlen|].
  split; [by eapply sublist_NoDup, sublist_take|].
  split.
  { intros nodeID Hin. apply GetValidatorIDs_elem_of. rewrite <- Hperm.
    apply elem_of_take in Hin as (i & Hi & _). by eapply list_elem_of_lookup_2. }
  split.
  { intros Hall. rewrite take_ge by lia. done. }
  unfold Sample, GetValidatorIDs. rewrite Hsize.
  destruct (validators s !! netID); [done|].
  unfold makeslice_ok in Hsize. by destruct size.
Qed.


(** *** List *)

Lemma List_subnet s netID :
  List s (GetValidators s netID).1
  = List_range s (map_to_list (subnet_of s netID)).*2.
Proof.
  unfold GetValidators, subnet_of. destruct (validators s !! netID); [done|].
  by rewrite map_to_list_empty.
Qed.

Lemma List_node_ids s netID :
  records_consistent s →
  ValidatorImpl_NodeID <$> List s (GetValidators s netID).1 = GetValidatorIDs s netID.
Proof.
  intros Hrec. rewrite List_subnet, GetValidatorIDs_subnet. unfold List_range.
  rewrite <- !list_fmap_compose. apply Forall_fmap_ext, Forall_forall.
  intros [nd q] Hin. apply elem_of_map_to_list in Hin. simpl.
  rewrite <- GetValidator_subnet in Hin. by destruct (Hrec _ _ _ Hin).
Qed.

(** X17: List of the set GetValidators returns, in a registry that calls
    with [uint64] arguments build from a new manager.  The list has one
    entry for each validator of the network: it is as long as Count says,
    its node ids are those of GetValidatorIDs, none twice, and an entry is
    in the list exactly if GetValidator finds a record for its node id and
    its weight is what GetLight returns for that node id. *)
Theorem List_lists_the_validators (cs : list call) netID :
  Forall call_ok cs →
  let s := run_calls cs in
  let vals := List s (GetValidators s netID).1 in
  length vals = Count s netID ∧
  ValidatorImpl_NodeID <$> vals ≡ₚ GetValidatorIDs s netID ∧
  NoDup (ValidatorImpl_NodeID <$> vals) ∧
  ∀ v, v ∈ vals ↔
       is_Some (GetValidator s netID (ValidatorImpl_NodeID v)) ∧
       LightVal v = GetLight s netID (ValidatorImpl_NodeID v).
Proof.
  intros Hcs s vals.
  pose proof (records_consistent_reachable cs Hcs) as Hrec. fold s in Hrec.
  pose proof (List_node_ids s netID Hrec) as Hids. fold vals in Hids.
  split.
  { rewrite <- (length_fmap ValidatorImpl_NodeID), Hids.
    apply GetValidatorIDs_length. }
  split; [by rewrite Hids|].
  split; [rewrite Hids; apply GetValidatorIDs_NoDup|].
  intros v. unfold vals. rewrite List_subnet. unfold List_range.
  rewrite list_elem_of_fmap. split.
  - intros (q & -> & Hq). apply map_values_elem_of in Hq as [nd Hq].
    rewrite <- GetValidator_subnet in Hq. destruct (Hrec _ _ _ Hq) as (Hid & _).
    simpl. rewrite Hid. unfold GetLight. rewrite Hq. eauto.
  - intros [[q Hq] Hlight]. exists q.
    destruct (Hrec _ _ _ Hq) as (Hid & _).
    unfold GetLight in Hlight. rewrite Hq in Hlight.
    split; [destruct v; simpl in *; congruence|].
    apply list_elem_of_fmap. exists (ValidatorImpl_NodeID v, q).
    split; [done|]. apply elem_of_map_to_list. by rewrite <- GetValidator_subnet.
Qed.

(** *** The set GetValidators returns is a view of the inner map *)

Lemma run_call_net_pointer s (c : call) netID mp :
  validators s !! netID = Some mp →
  validators (run_call s c) !! netID = Some mp ∨
  validators (run_call s c) !! netID = None.
Proof.
  intros Hmp. destruct (decide (netID = call_net c)) as [->|Hne].
  - destruct c as [n nodeID publicKey txID light|n nodeID light|n nodeID light];
      simpl in *.
    + left. by rewrite AddStaker_validators, (ensure_net_known s n mp Hmp).
    + left. by rewrite AddWeight_validators, (ensure_net_known s n mp Hmp).
    + unfold RemoveWeight. rewrite Hmp.
      destruct (deref_map s mp !! nodeID); [|by left]. cbv zeta.
      repeat match goal with |- context [if ?b then _ else _] => destruct b end;
        simpl; rewrite ?lookup_delete_eq; auto.
  - left. by rewrite run_call_validators.
Qed.

(** X18: the set GetValidators returns for a network of the registry holds
    the inner map of the network, not a copy.  After any call of AddStaker,
    AddWeight or RemoveWeight that leaves the network in the registry, the
    map the set got before the call holds is still the map the registry
    holds for the network, so that the set shows the registry after the
    call: its Len is the new Count, its Has finds just the nodes
    GetValidator now finds, and its Light is the new total weight. *)
Theorem GetValidators_is_a_view s (c : call) netID :
  is_Some (validators s !! netID) →
  is_Some (validators (run_call s c) !! netID) →
  let set := (GetValidators s netID).1 in
  let s' := run_call s c in
  Set_validators set = validators s !! netID ∧
  Set_validators set = validators s' !! netID ∧
  Len s' set = Count s' netID ∧
  (∀ nodeID, Has s' set nodeID = true ↔ is_Some (GetValidator s' netID nodeID)) ∧
  (Light s' set, None) = TotalLight s' netID.
Proof.
  intros [mp Hmp] [mp' Hmp'] set s'.
  assert (Hset : set = validatorSet mp).
  { unfold set, GetValidators. by rewrite Hmp. }
  assert (Hnew : validators s' !! netID = Some mp).
  { destruct (run_call_net_pointer s c netID mp Hmp) as [Hsame|Hnone]; [done|].
    unfold s' in Hmp'. congruence. }
  assert (Hsame : (GetValidators s' netID).1 = set).
  { unfold GetValidators. by rewrite Hnew, Hset. }
  split; [by rewrite Hset, Hmp|]. split; [by rewrite Hset, Hnew|].
  rewrite <- Hsame.
  split; [apply Len_GetValidators|]. split; [apply Has_GetValidators|].
  unfold TotalLight, GetValidators. by rewrite Hnew.
Qed.

Lemma AddStaker_other_map s netID nodeID publicKey txID light mp :
  validators s !! netID = None → is_Some (sets s !! mp) →
  deref_map (AddStaker s netID nodeID publicKey txID light).1 mp = deref_map s mp.
Proof.
  intros Hnone Hmp. unfold AddStaker, ensure_net. rewrite Hnone. simpl.
  assert (Hfresh : fresh (dom (sets s)) ≠ mp).
  { intros Heq. apply (is_fresh (dom (sets s))). rewrite Heq. by apply elem_of_dom. }
  unfold deref_map. simpl. by rewrite !lookup_insert_ne.
Qed.

(** X19: a set outlives its network.  When RemoveWeight deletes the last
    validator of a network, and the network with it, and AddStaker then
    puts a validator into the same network, the network gets a new inner
    map: the set GetValidators returned before the two calls still holds
    the old one, which is empty.  Its Len is 0, its Has finds no node and
    its Light is 0, while Count is 1 and GetValidator finds the new
    validator. *)
Theorem GetValidators_set_outlives_network
    s netID nodeID nodeID' publicKey txID light light' p :
  wf s → GetValidator s netID nodeID = Some p → Count s netID = 1%nat →
  GetValidatorOutput.Light (deref s p) <= light →
  let set := (GetValidators s netID).1 in
  let s1 := (RemoveWeight s netID nodeID light).1 in
  let s2 := (AddStaker s1 netID nodeID' publicKey txID light').1 in
  Len s2 set = 0%nat ∧ (∀ nd, Has s2 set nd = false) ∧ Light s2 set = 0 ∧
  Count s2 netID = 1%nat ∧ is_Some (GetValidator s2 netID nodeID') ∧
  GetValidators s2 netID ≠ (set, None).
Proof.
  intros Hwf Hp Hcount Hlight set s1 s2.
  pose proof Hp as Hp'. apply GetValidator_Some in Hp' as (mp & Hnet & Hnode).
  assert (Hset : set = validatorSet mp).
  { unfold set, GetValidators. by rewrite Hnet. }
  assert (Hsize : size (deref_map s mp) = 1%nat).
  { unfold Count in Hcount. by rewrite Hnet in Hcount. }
  assert (Hinner : delete nodeID (deref_map s mp) = ∅).
  { apply map_size_empty_iff. rewrite map_size_delete_Some by eauto. by rewrite Hsize. }
  assert (Hs1 : s1 = mk_state (<[p := reduced (deref s p) light]> (objs s))
                              (<[mp := ∅]> (sets s)) (delete netID (validators s))).
  { unfold s1. rewrite (RemoveWeight_cases s netID nodeID light mp p Hnet Hnode).
    cbv zeta. rewrite Hinner, map_size_empty. simpl.
    replace (GetValidatorOutput.Light (reduced (deref s p) light) =? 0) with true; [done|].
    symmetry. apply N.eqb_eq. rewrite reduced_Light. lia. }
  assert (Hwf1 : wf s1) by apply (wf_run_call s (CallRemoveWeight netID nodeID light) Hwf).
  assert (Hnone1 : validators s1 !! netID = None).
  { rewrite Hs1. simpl. apply lookup_delete_eq. }
  assert (Hold : deref_map s2 mp = ∅).
  { unfold s2. rewrite AddStaker_other_map; [|done|].
    - rewrite Hs1. unfold deref_map. simpl. by rewrite lookup_insert_eq.
    - rewrite Hs1. simpl. rewrite lookup_insert_eq. eauto. }
  destruct (AddStaker_props s1 netID nodeID' publicKey txID light' Hwf1)
    as (_ & Hget & _). fold s2 in Hget.
  rewrite Hset. simpl. rewrite Hold.
  split; [apply map_size_empty|].
  split; [intros nd; rewrite lookup_empty; apply bool_decide_eq_false; by intros [? ?]|].
  split; [by rewrite map_to_list_empty|].
  split.
  { rewrite Count_subnet. unfold s2. rewrite subnet_of_AddStaker by done.
    rewrite decide_True by done. unfold subnet_of. rewrite Hnone1.
    rewrite insert_empty. apply map_size_singleton. }
  split.
  { rewrite Hget, decide_True by done. eauto. }
  unfold GetValidators. destruct (validators s2 !! netID) as [mp2|] eqn:Hmp2; [|done].
  intros [= ->].
  assert (Hin : GetValidator s2 netID nodeID' = Some (fresh (dom (objs s1)))).
  { rewrite Hget. by rewrite decide_True. }
  apply GetValidator_Some in Hin as (mp3 & Hnet3 & Hnode3).
  rewrite Hmp2 in Hnet3. injection Hnet3 as <-.
  rewrite Hold in Hnode3. by rewrite lookup_empty in Hnode3.
Qed.

(** X20: the set GetValidators returns for a network the registry does not
    hold is the empty set, and stays empty: after AddStaker has put a
    validator into the network, GetValidator finds it and Count is 1, while
    the set got before still has Len 0, finds no node, lists nothing and
    has weight 0, and is not the set GetValidators returns now. *)
Theorem GetValidators_empty_set_is_no_view s netID nodeID publicKey txID light :
  wf s → validators s !! netID = None →
  let set := (GetValidators s netID).1 in
  let s1 := (AddStaker s netID nodeID publicKey txID light).1 in
  Len s1 set = 0%nat ∧ (∀ nd, Has s1 set nd = false) ∧ List s1 set = [] ∧
  Light s1 set = 0 ∧
  Count s1 netID = 1%nat ∧ is_Some (GetValidator s1 netID nodeID) ∧
  GetValidators s1 netID ≠ (set, None).
Proof.
  intros Hwf Hnone set s1.
  assert (Hset : set = emptySet).
  { unfold set, GetValidators. by rewrite Hnone. }
  destruct (AddStaker_props s netID nodeID publicKey txID light Hwf)
    as (_ & Hget & _). fold s1 in Hget.
  assert (Hin : GetValidator s1 netID nodeID = Some (fresh (dom (objs s)))).
  { rewrite Hget. by rewrite decide_True. }
  rewrite Hset. simpl. do 4 (split; [done|]).
  split.
  { rewrite Count_subnet. unfold s1. rewrite subnet_of_AddStaker by done.
    rewrite decide_True by done. unfold subnet_of. rewrite Hnone.
    rewrite insert_empty. apply map_size_singleton. }
  split; [by rewrite Hin|].
  apply GetValidator_Some in Hin as (mp & Hnet & _).
  unfold GetValidators. by rewrite Hnet.
Qed.

(** *** No empty network *)

Lemma no_empty_net_alt s :
  no_empty_net s ↔
  ∀ netID, is_Some (validators s !! netID) → ∃ nd, is_Some (GetValidator s netID nd).
Proof.
  unfold no_empty_net. split; intros Hinv netID Hnet.
  - specialize (Hinv netID Hnet). rewrite Count_subnet in Hinv.
    apply map_size_ne_0_lookup_1 in Hinv as [nd Hnd]. exists nd.
    by rewrite GetValidator_subnet.
  - destruct (Hinv netID Hnet) as [nd Hnd]. rewrite Count_subnet.
    apply (map_size_ne_0_lookup_2 _ nd). by rewrite <- GetValidator_subnet.
Qed.

Lemma no_empty_net_run_call s (c : call) :
  wf s → no_empty_net s → known_net_call s c → no_empty_net (run_call s c).
Proof.
  rewrite !no_empty_net_alt. intros Hwf Hinv Hknown n Hn.
  destruct (decide (n = call_net c)) as [->|Hne].
  - destruct c as [netID nodeID publicKey txID light|netID nodeID light
                  |netID nodeID light]; simpl in *.
    + destruct (AddStaker_props s netID nodeID publicKey txID light Hwf)
        as (_ & Hget & _).
      exists nodeID. rewrite Hget, decide_True by done. eauto.
    + destruct (AddWeight_props s netID nodeID light Hwf) as (_ & Hget & _).
      destruct Hknown as [mp Hmp].
      destruct (Hinv netID) as [nd Hnd]; [eauto|].
      exists nd. by rewrite Hget.
    + destruct (GetValidator s netID nodeID) as [p|] eqn:Hp.
      * destruct (RemoveWeight_props s netID nodeID light p Hwf Hp)
          as (_ & Hget & _).
        pose proof Hp as Hp'. apply GetValidator_Some in Hp' as (mp & Hnet & Hnode).
        rewrite (RemoveWeight_cases s netID nodeID light mp p Hnet Hnode) in Hn.
        cbv zeta in Hn.
        destruct (GetValidatorOutput.Light (reduced (deref s p) light) =? 0) eqn:Hz.
        -- destruct (size (delete nodeID (deref_map s mp)) =? 0)%nat eqn:Hsz.
           ++ simpl in Hn. rewrite lookup_delete_eq in Hn. by destruct Hn.
           ++ apply Nat.eqb_neq, map_size_ne_0_lookup_1 in Hsz as [nd [q Hq]].
              apply lookup_delete_Some in Hq as [Hnd Hq].
              exists nd. rewrite Hget, decide_False by (by intros [_ ->]).
              rewrite (GetValidator_net s netID nd mp Hnet), Hq. eauto.
        -- exists nodeID. rewrite Hget, decide_True by done. eauto.
      * rewrite RemoveWeight_missing in * by done. simpl in *. by apply Hinv.
  - rewrite run_call_validators in Hn by done.
    destruct (Hinv n Hn) as [nd Hnd]. exists nd.
    destruct (run_call_other_net s c n Hwf Hne) as [Hsub _].
    by rewrite GetValidator_subnet, Hsub, <- GetValidator_subnet.
Qed.

Lemma no_empty_net_foldl (cs : list call) : ∀ s,
  wf s → no_empty_net s → known_net_calls s cs → no_empty_net (foldl run_call s cs).
Proof.
  induction cs as [|c cs IH]; intros s Hwf Hinv Hcs; simpl; [done|].
  destruct Hcs as [Hc Hcs].
  apply IH; [by apply wf_run_call|by apply no_empty_net_run_call|done].
Qed.

(** X21: a registry has no empty network as long as AddWeight is not
    called for a network the registry does not hold.  After calls of
    AddStaker, AddWeight and RemoveWeight on a new manager, none of them an
    AddWeight for a network that the registry did not hold at the time of
    the call, every network the registry holds has a validator: the
    networks NumNets counts are those with a Count that is not 0. *)
Theorem registry_has_no_empty_network (cs : list call) :
  known_net_calls NewManager cs →
  ∀ netID, is_Some (validators (run_calls cs) !! netID) ↔ Count (run_calls cs) netID ≠ 0%nat.
Proof.
  intros Hcs netID. split.
  - apply no_empty_net_foldl; [apply wf_NewManager| |done].
    intros n [mp Hmp]. unfold NewManager in Hmp. simpl in Hmp.
    by rewrite lookup_empty in Hmp.
  - unfold Count. destruct (validators (run_calls cs) !! netID); [eauto|done].
Qed.

(** *** The listeners *)

Lemma replay_elem_of s l (n : notification) :
  n ∈ replay s l ↔
  ∃ netID nodeID p, GetValidator s netID nodeID = Some p ∧
    n = OnValidatorAdded l netID nodeID (GetValidatorOutput.Light (deref s p)).
Proof.
  unfold replay. rewrite list_elem_of_bind. split.
  - intros ([netID mp] & Hin & Hnet). apply elem_of_map_to_list in Hnet.
    apply list_elem_of_bind in Hin as ([nodeID p] & Hin & Hnode).
    apply elem_of_map_to_list in Hnode. apply list_elem_of_singleton in Hin.
    exists netID, nodeID, p. split; [|done].
    by rewrite (GetValidator_net s netID nodeID mp Hnet), Hnode.
  - intros (netID & nodeID & p & Hp & ->).
    apply GetValidator_Some in Hp as (mp & Hnet & Hnode).
    exists (netID, mp). split; [|by apply elem_of_map_to_list].
    apply list_elem_of_bind. exists (nodeID, p).
    split; [by apply list_elem_of_singleton|by apply elem_of_map_to_list].
Qed.

Lemma GetValidator_run_call_old s (c : call) netID nodeID :
  wf s → is_Some (GetValidator (run_call s c) netID nodeID) →
  is_Some (GetValidator s netID nodeID) ∨
  ∃ publicKey txID light, c = CallAddStaker netID nodeID publicKey txID light.
Proof.
  intros Hwf Hnew.
  destruct c as [n nd publicKey txID light|n nd light|n nd light]; simpl in *.
  - destruct (AddStaker_props s n nd publicKey txID light Hwf) as (_ & Hget & _).
    rewrite Hget in Hnew.
    destruct (decide (netID = n ∧ nodeID = nd)) as [[-> ->]|_]; eauto.
  - destruct (AddWeight_props s n nd light Hwf) as (_ & Hget & _).
    rewrite Hget in Hnew. by left.
  - left. destruct (GetValidator s n nd) as [p|] eqn:Hp.
    + destruct (RemoveWeight_props s n nd light p Hwf Hp) as (_ & Hget & _).
      rewrite Hget in Hnew.
      destruct (decide (netID = n ∧ nodeID = nd)) as [[-> ->]|_]; [|done].
      rewrite Hp. eauto.
    + by rewrite RemoveWeight_missing in Hnew.
Qed.

Lemma listeners_run_step (m : manager) (trace : list notification) (st : step) :
  wf (registry m) → only_added (listeners m) trace → all_announced m trace →
  wf (registry (run_step m st).1) ∧
  only_added (listeners (run_step m st).1) (trace ++ (run_step m st).2) ∧
  all_announced (run_step m st).1 (trace ++ (run_step m st).2).
Proof.
  intros Hwf Honly Hall. destruct st as [c|listener]; simpl.
  - split; [by apply wf_run_call|]. split.
    + intros n Hn. apply elem_of_app in Hn as [Hn|Hn]; [by apply Honly|].
      destruct c as [netID nodeID publicKey txID light| |];
        [|by apply elem_of_nil in Hn..].
      unfold notify_added in Hn. apply list_elem_of_fmap in Hn as (l & -> & Hl).
      by exists l, netID, nodeID, light.
    + intros l netID nodeID Hl Hnew.
      destruct (GetValidator_run_call_old _ c netID nodeID Hwf Hnew)
        as [Hold|(publicKey & txID & light & ->)].
      * destruct (Hall l netID nodeID Hl Hold) as [light Hin].
        exists light. apply elem_of_app. by left.
      * exists light. apply elem_of_app. right. unfold notify_added.
        apply list_elem_of_fmap. by exists l.
  - split; [done|]. split.
    + intros n Hn. apply elem_of_app in Hn as [Hn|Hn].
      * destruct (Honly n Hn) as (l & netID & nodeID & light & -> & Hl).
        exists l, netID, nodeID, light. split; [done|]. apply elem_of_app. by left.
      * apply replay_elem_of in Hn as (netID & nodeID & p & _ & ->).
        eexists listener, netID, nodeID, _. split; [done|].
        apply elem_of_app. right. by apply list_elem_of_singleton.
    + intros l netID nodeID Hl [p Hp]. apply elem_of_app in Hl as [Hl|Hl].
      * destruct (Hall l netID nodeID Hl) as [light Hin]; [eauto|].
        exists light. apply elem_of_app. by left.
      * apply list_elem_of_singleton in Hl as ->.
        exists (GetValidatorOutput.Light (deref (registry m) p)).
        apply elem_of_app. right. apply replay_elem_of. by exists netID, nodeID, p.
Qed.

Lemma listeners_run_steps (sts : list step) : ∀ (m : manager) (trace : list notification),
  wf (registry m) → only_added (listeners m) trace → all_announced m trace →
  only_added (listeners (run_steps m trace sts).1) (run_steps m trace sts).2 ∧
  all_announced (run_steps m trace sts).1 (run_steps m trace sts).2.
Proof.
  induction sts as [|st sts IH]; intros m trace Hwf Honly Hall; simpl; [done|].
  destruct (listeners_run_step m trace st Hwf Honly Hall) as (Hwf' & Honly' & Hall').
  destruct (run_step m st) as [m' calls]. by apply IH.
Qed.

(** X22: what the listeners of a manager are told.  After any calls of
    AddStaker, AddWeight, RemoveWeight and RegisterCallbackListener on a
    new manager, every listener that was registered has been told, by a
    call of OnValidatorAdded, of every validator the registry now holds,
    whether the validator was added before or after the listener was
    registered; and every call the manager has made on a listener is an
    OnValidatorAdded on a registered listener: the manager never calls
    OnValidatorRemoved or OnValidatorLightChanged. *)
Theorem listeners_hear_of_every_validator (sts : list step) :
  let m := (run_steps (mk_manager NewManager []) [] sts).1 in
  let trace := (run_steps (mk_manager NewManager []) [] sts).2 in
  (∀ l netID nodeID,
     l ∈ listeners m → is_Some (GetValidator (registry m) netID nodeID) →
     ∃ light, OnValidatorAdded l netID nodeID light ∈ trace) ∧
  (∀ n, n ∈ trace →
     ∃ l netID nodeID light, n = OnValidatorAdded l netID nodeID light ∧ l ∈ listeners m).
Proof.
  destruct (listeners_run_steps sts (mk_manager NewManager []) []) as [Honly Hall].
  - apply wf_NewManager.
  - intros n Hn. by apply elem_of_nil in Hn.
  - intros l netID nodeID Hl. by apply elem_of_nil in Hl.
  - split; [exact Hall|exact Honly].
Qed.

End ManagerMore.

(** ** Properties of package uptime *)

Module UptimeProps.
Import uptime.

Section Calculators.
Context {float64 Time Ext : Type}.
Variables float64_1 float64_0 : float64.
Variable Ext_CalculateUptime : Ext → ids.NodeID → ids.ID → Z * Z * option error.
Variable Ext_CalculateUptimePercent : Ext → ids.NodeID → ids.ID → float64 * option error.
Variable Ext_CalculateUptimePercentFrom :
  Ext → ids.NodeID → ids.ID → Time → float64 * option error.

Local Abbreviation Calc := (@Calculator Ext).
Local Abbreviation Locked := (@lockedCalculator Ext).

Lemma delegate_SetCalculators (calls : list (ids.ID * option Calc)) subnetID :
  ∀ l : Locked,
  delegate (SetCalculators l calls) subnetID
  = answering (delegate l subnetID) calls subnetID ∧
  fallback (SetCalculators l calls) = fallback l.
Proof.
  induction calls as [|[subnetID' [calc|]] rest IH]; intros l; [done|..].
  - destruct (IH (SetCalculator l subnetID' (Some calc)).1) as [IH1 IH2].
    split; [|exact IH2].
    change (SetCalculators l ((subnetID', Some calc) :: rest))
      with (SetCalculators (SetCalculator l subnetID' (Some calc)).1 rest).
    rewrite IH1. simpl. f_equal. unfold delegate. simpl.
    destruct (decide (subnetID' = subnetID)) as [->|Hne].
    + by rewrite lookup_insert_eq.
    + by rewrite lookup_insert_ne.
  - apply IH.
Qed.

(** X24: which calculator answers.  After any calls of SetCalculator on a
    locked calculator made by NewLockedCalculatorWithFallback, each of the
    three calculations for a subnet is answered by the calculator of the
    last SetCalculator call for that subnet with a calculator that is not
    nil, and by the fallback if there was none: a call with a nil
    calculator changes nothing, and a call for another subnet does not
    matter.  The fallback is the one given, or NoOpCalculator for a nil
    one. *)
Theorem lockedCalculator_delegates
    (fb : option Calc) (calls : list (ids.ID * option Calc)) nodeID subnetID from :
  let l := SetCalculators (NewLockedCalculatorWithFallback fb) calls in
  let calc := answering (default NoOpCalculator fb) calls subnetID in
  CalculateUptime Ext_CalculateUptime l nodeID subnetID
    = Calculator_CalculateUptime Ext_CalculateUptime calc nodeID subnetID ∧
  CalculateUptimePercent float64_1 float64_0 Ext_CalculateUptimePercent l nodeID subnetID
    = Calculator_CalculateUptimePercent float64_1 float64_0 Ext_CalculateUptimePercent
        calc nodeID subnetID ∧
  CalculateUptimePercentFrom float64_1 float64_0 Ext_CalculateUptimePercentFrom
      l nodeID subnetID from
    = Calculator_CalculateUptimePercentFrom float64_1 float64_0
        Ext_CalculateUptimePercentFrom calc nodeID subnetID from.
Proof.
  intros l calc.
  destruct (delegate_SetCalculators calls subnetID (NewLockedCalculatorWithFallback fb))
    as [Hdel _].
  fold l in Hdel.
  assert (Hcalc : delegate l subnetID = calc).
  { rewrite Hdel. unfold calc, delegate. simpl. rewrite lookup_empty.
    by destruct fb. }
  unfold CalculateUptime, CalculateUptimePercent, CalculateUptimePercentFrom.
  unfold delegate in Hcalc.
  by destruct (calculators l !! subnetID); simpl in Hcalc; rewrite Hcalc.
Qed.

End Calculators.
End UptimeProps.

(** ** From the registry to the canonical validator set *)

Module RegistryFlatten.
Import Manager ManagerProps ManagerMore.

Section Composition.
Context {PK : Type}.
Variable PublicKeyFromCompressedBytes : list byte → option PK.
Variable PublicKeyToUncompressedBytes : PK → list byte.

Local Abbreviation Flatten :=
  (FlattenValidatorSet_range PublicKeyFromCompressedBytes PublicKeyToUncompressedBytes).

Lemma snapshot_subnet s netID :
  snapshot s netID = deref s <$> (map_to_list (subnet_of s netID)).*2.
Proof.
  unfold snapshot, GetMap, subnet_of.
  destruct (validators s !! netID) as [mp|]; unfold deref_map; simpl;
    by rewrite lookup_insert_eq.
Qed.

Lemma snapshot_weights s netID :
  records_consistent s →
  Forall (λ vdr, uint64 (GetValidatorOutput.Weight vdr)) (snapshot s netID) ∧
  sum_weights (snapshot s netID) = sum_Light s (map_to_list (subnet_of s netID)).*2.
Proof.
  intros Hrec. rewrite snapshot_subnet.
  assert (Hvals : ∀ q, q ∈ (map_to_list (subnet_of s netID)).*2 →
            GetValidatorOutput.Weight (deref s q) = GetValidatorOutput.Light (deref s q) ∧
            uint64 (GetValidatorOutput.Light (deref s q))).
  { intros q Hq. apply map_values_elem_of in Hq as [nd Hq].
    rewrite <- GetValidator_subnet in Hq. by destruct (Hrec _ _ _ Hq) as (_ & ? & ?). }
  induction ((map_to_list (subnet_of s netID)).*2) as [|q vs IH].
  - by split.
  - destruct (Hvals q) as [Hw Hu]; [apply elem_of_cons; by left|].
    destruct IH as [IH1 IH2]; [intros q' Hq'; apply Hvals, elem_of_cons; by right|].
    rewrite fmap_cons. split; [constructor; [by rewrite Hw|done]|].
    change (GetValidatorOutput.Weight (deref s q) + sum_weights (deref s <$> vs)
            = GetValidatorOutput.Light (deref s q) + sum_Light s vs).
    by rewrite Hw, IH2.
Qed.

(** X23: FlattenValidatorSet on the records of a network of the registry,
    as GetMap hands them out, in whatever order the range yields them.  In
    a registry that calls with [uint64] arguments build from a new manager,
    FlattenValidatorSet either succeeds, and then its TotalWeight is the
    weight TotalWeight of the manager returns for the network, or it fails
    with ErrWeightOverflow; it fails exactly when the weights of the
    network sum to more than MaxUint64, the case in which the manager
    returns a total that has wrapped around. *)
Theorem registry_network_flattens (cs : list call) netID vdrs :
  Forall call_ok cs → vdrs ≡ₚ snapshot (run_calls cs) netID →
  (sum_weights vdrs <= MaxUint64 ∧
   ∃ cvs, Flatten vdrs = (cvs, None) ∧
          CanonicalValidatorSet.TotalWeight cvs = (TotalWeight (run_calls cs) netID).1 ∧
          (TotalWeight (run_calls cs) netID).1 = sum_weights vdrs) ∨
  (MaxUint64 < sum_weights vdrs ∧
   Flatten vdrs = (CanonicalValidatorSet.zero, Some (Errorf2 ErrWeightOverflow ErrOverflow)) ∧
   (TotalWeight (run_calls cs) netID).1 = sum_weights vdrs mod 2 ^ 64).
Proof.
  intros Hcs Hperm. set (s := run_calls cs) in *.
  pose proof (records_consistent_reachable cs Hcs) as Hrec. fold s in Hrec.
  destruct (snapshot_weights s netID Hrec) as [Hok Hsum].
  assert (Hok' : Forall (λ vdr, uint64 (GetValidatorOutput.Weight vdr)) vdrs)
    by (by rewrite Hperm).
  assert (Hsum' : sum_weights vdrs = sum_Light s (map_to_list (subnet_of s netID)).*2).
  { rewrite <- Hsum. by apply sum_weights_perm. }
  assert (Htotal : (TotalWeight s netID).1 = sum_weights vdrs mod 2 ^ 64).
  { rewrite Hsum'. unfold TotalWeight, TotalLight, GetValidators, subnet_of.
    destruct (validators s !! netID) as [mp|]; simpl; [apply Light_loop_0|].
    by rewrite map_to_list_empty. }
  destruct (Flatten_spec PublicKeyFromCompressedBytes PublicKeyToUncompressedBytes
              vdrs Hok') as [Hgood Hbad].
  destruct (decide (sum_weights vdrs <= MaxUint64)) as [Hle|Hgt].
  - left. split; [done|]. destruct (Hgood Hle) as (m & _ & _ & Heq).
    eexists. split; [exact Heq|]. simpl. rewrite Htotal.
    rewrite N.mod_small by (unfold MaxUint64 in Hle; lia). done.
  - right. split; [lia|]. split; [apply Hbad; lia|done].
Qed.

End Composition.
End RegistryFlatten.

(** ** Properties of the test implementation of State *)

Module TestStateProps.
Import validatorstest.

Lemma heights_loop_lookup (heights : list N) height : ∀ inner,
  heights_loop inner heights !! height
  = if decide (height ∈ heights) then Some (mk_WarpSet height ∅) else inner !! height.
Proof.
  induction heights as [|h rest IH]; intros inner.
  - destruct (decide (height ∈ [])) as [Hin|_]; [by apply elem_of_nil in Hin|done].
  - change (heights_loop inner (h :: rest))
      with (heights_loop (<[h := mk_WarpSet h ∅]> inner) rest).
    rewrite IH.
    destruct (decide (height ∈ rest)) as [Hin|Hnin].
    + rewrite decide_True; [done|]. apply elem_of_cons. by right.
    + destruct (decide (height = h)) as [->|Hne].
      * rewrite decide_True by (apply elem_of_cons; by left).
        by rewrite lookup_insert_eq.
      * rewrite decide_False by (rewrite elem_of_cons; by intros [?|?]).
        by rewrite lookup_insert_ne.
Qed.

Lemma netIDs_loop_lookup (heights : list N) (netIDs : list ids.ID) netID : ∀ result,
  netIDs_loop result heights netIDs !! netID
  = if decide (netID ∈ netIDs) then Some (heights_loop ∅ heights) else result !! netID.
Proof.
  induction netIDs as [|n rest IH]; intros result.
  - destruct (decide (netID ∈ [])) as [Hin|_]; [by apply elem_of_nil in Hin|done].
  - change (netIDs_loop result heights (n :: rest))
      with (netIDs_loop (<[n := heights_loop ∅ heights]> result) heights rest).
    rewrite IH.
    destruct (decide (netID ∈ rest)) as [Hin|Hnin].
    + rewrite decide_True; [done|]. apply elem_of_cons. by right.
    + destruct (decide (netID = n)) as [->|Hne].
      * rewrite decide_True by (apply elem_of_cons; by left).
        by rewrite lookup_insert_eq.
      * rewrite decide_False by (rewrite elem_of_cons; by intros [?|?]).
        by rewrite lookup_insert_ne.
Qed.

(** X25: GetWarpValidatorSets of a test state without function fields.
    It returns no error and a map with an entry for exactly the network
    ids asked for; the entry of a network has an entry for exactly the
    heights asked for, and that entry is the set GetWarpValidatorSet
    returns for the height and the network: a set of that height without
    validators.  Network ids or heights given more than once change
    nothing, and with no heights every network asked for gets an empty
    map. *)
Theorem GetWarpValidatorSets_default (heights : list N) (netIDs : list ids.ID) :
  let result := GetWarpValidatorSets NewTestState heights netIDs in
  result.2 = None ∧
  (∀ netID, is_Some (result.1 !! netID) ↔ netID ∈ netIDs) ∧
  ∀ netID inner, result.1 !! netID = Some inner →
    ∀ height,
      inner !! height
      = if decide (height ∈ heights)
        then Some (GetWarpValidatorSet NewTestState height netID).1
        else None.
Proof.
  simpl. split; [done|]. split.
  - intros netID. rewrite netIDs_loop_lookup, lookup_empty.
    destruct (decide (netID ∈ netIDs)) as [Hin|Hnin]; split;
      first [done | by eauto | by intros [? ?]].
  - intros netID inner. rewrite netIDs_loop_lookup, lookup_empty.
    destruct (decide (netID ∈ netIDs)); [|done].
    intros [= <-] height. by rewrite heights_loop_lookup, lookup_empty.
Qed.

End TestStateProps.

(** ** The theorems at concrete snapshots and registries *)

Module Examples.
Import ToyBLS Manager ManagerProps.

Local Abbreviation A := (vdr 1 keyX 100).
Local Abbreviation B := (vdr 2 keyX 200).
Local Abbreviation C := (vdr 3 [] 50).
Local Abbreviation D := (vdr 4 keyY 7).

(** The scenario of the specification: [A] and [B] under one key with the
    weights 100 and 200, [C] without a key and with the weight 50. *)
Example Flatten_ABC :
  Flatten [A; B; C]
  = (CanonicalValidatorSet.mk
       [CanonicalValidator.mk keyX (keyX ++ keyX) 300 [1; 2]] 350, None).
Proof. reflexivity. Qed.

Example Filter_Sum_ABC :
  FilterValidators 1 (CanonicalValidatorSet.Validators (Flatten [A; B; C]).1)
    = ([CanonicalValidator.mk keyX (keyX ++ keyX) 300 [1; 2]], None) ∧
  SumWeight [CanonicalValidator.mk keyX (keyX ++ keyX) 300 [1; 2]] = (300, None).
Proof. split; reflexivity. Qed.

(** The cases of the tests of the package. *)
Example Flatten_tests :
  Flatten [] = (CanonicalValidatorSet.mk [] 0, None) ∧
  Flatten [vdr 1 [] 100] = (CanonicalValidatorSet.mk [] 100, None) ∧
  Flatten [vdr 1 [x01; x02; x03]%byte 100] = (CanonicalValidatorSet.mk [] 100, None) ∧
  Flatten [vdr 1 keyX 100]
    = (CanonicalValidatorSet.mk
         [CanonicalValidator.mk keyX (keyX ++ keyX) 100 [1]] 100, None) ∧
  Flatten [vdr 1 [] MaxUint64; vdr 2 [] 1]
    = (CanonicalValidatorSet.zero, Some (Errorf2 ErrWeightOverflow ErrOverflow)) ∧
  Flatten [vdr 1 keyX MaxUint64; vdr 2 keyX 1]
    = (CanonicalValidatorSet.zero, Some (Errorf2 ErrWeightOverflow ErrOverflow)) ∧
  Flatten [vdr 1 keyX (MaxUint64 - 1); vdr 2 keyX 1]
    = (CanonicalValidatorSet.mk
         [CanonicalValidator.mk keyX (keyX ++ keyX) MaxUint64 [1; 2]] MaxUint64, None) ∧
  CanonicalValidator.PublicKeyBytes
    <$> CanonicalValidatorSet.Validators
          (Flatten [vdr 1 keyX 100; vdr 2 keyY 200; vdr 3 [xff; x00]%byte 300]).1
    = [keyY ++ keyY; keyX ++ keyX; [xff; x00; xff; x00]%byte].
Proof. repeat split; reflexivity. Qed.

Local Abbreviation w := (λ n : N, CanonicalValidator.mk () [] n []).

Example Filter_tests :
  FilterValidators (PK:=unit) 0 [] = ([], None) ∧
  FilterValidators 0 [w 100; w 200] = ([], None) ∧
  FilterValidators 5 [w 100; w 200; w 300; w 400] = ([w 100; w 300], None) ∧
  FilterValidators 7 [w 100; w 200; w 300] = ([w 100; w 200; w 300], None) ∧
  FilterValidators 32 [w 100; w 200] = ([], Some (Errorf1 ErrUnknownValidator)) ∧
  FilterValidators 4 [w 100; w 200] = ([], Some (Errorf1 ErrUnknownValidator)) ∧
  FilterValidators 2 [w 100; w 200] = ([w 200], None).
Proof. repeat split; reflexivity. Qed.

Example SumWeight_tests :
  SumWeight (PK:=unit) [] = (0, None) ∧
  SumWeight [w 100; w 200; w 300] = (600, None) ∧
  SumWeight [w MaxUint64; w 1] = (0, Some (Errorf2 ErrWeightOverflow ErrOverflow)) ∧
  SumWeight [w (MaxUint64 - 1); w 1] = (MaxUint64, None).
Proof. repeat split; reflexivity. Qed.

(** C1, the theorem at the snapshot [A], [B], [C] ranged over in two
    orders. *)
Lemma FlattenValidatorSet_permutation_witness :
  (Flatten [A; B; C]).2 = (Flatten [B; A; C]).2 ∧
  CanonicalValidatorSet.TotalWeight (Flatten [A; B; C]).1
    = CanonicalValidatorSet.TotalWeight (Flatten [B; A; C]).1 ∧
  CanonicalValidator.PublicKeyBytes <$> CanonicalValidatorSet.Validators (Flatten [A; B; C]).1
    = CanonicalValidator.PublicKeyBytes <$> CanonicalValidatorSet.Validators (Flatten [B; A; C]).1 ∧
  CanonicalValidator.Weight <$> CanonicalValidatorSet.Validators (Flatten [A; B; C]).1
    = CanonicalValidator.Weight <$> CanonicalValidatorSet.Validators (Flatten [B; A; C]).1 ∧
  Forall2 (cv_equiv PublicKeyToUncompressedBytes)
    (CanonicalValidatorSet.Validators (Flatten [A; B; C]).1)
    (CanonicalValidatorSet.Validators (Flatten [B; A; C]).1).
Proof.
  apply (FlattenValidatorSet_permutation
           PublicKeyFromCompressedBytes PublicKeyToUncompressedBytes
           [A; B; C] [B; A; C]).
  - repeat constructor; unfold uint64, MaxUint64; simpl; lia.
  - apply perm_swap.
Defined.

(** C1, the claim as it is written fails: the snapshot with the nodes 1
    and 2 under one key, ranged over in its two orders, gives two results
    that are not equal, the node ids of the merged validator being [1; 2]
    in one and [2; 1] in the other. *)
Lemma FlattenValidatorSet_node_ids_follow_range :
  let vdrSet : gmap ids.NodeID GetValidatorOutput.t := <[1 := A]> {[2 := B]} in
  [A; B] ≡ₚ (map_to_list vdrSet).*2 ∧
  [B; A] ≡ₚ (map_to_list vdrSet).*2 ∧
  CanonicalValidator.NodeIDs <$> CanonicalValidatorSet.Validators (Flatten [A; B]).1
    = [[1; 2]] ∧
  CanonicalValidator.NodeIDs <$> CanonicalValidatorSet.Validators (Flatten [B; A]).1
    = [[2; 1]] ∧
  Flatten [A; B] ≠ Flatten [B; A].
Proof.
  cbv zeta.
  assert (Hlist : (map_to_list (<[1 := A]> {[2 := B]} : gmap N GetValidatorOutput.t)).*2
                  ≡ₚ [A; B]).
  { rewrite map_to_list_insert by done. rewrite map_to_list_singleton. done. }
  split; [by rewrite Hlist|]. split; [rewrite Hlist; apply perm_swap|].
  split; [reflexivity|]. split; [reflexivity|].
  vm_compute. intros [=].
Qed.


(** C6, the theorem on the registry with the one node of weight 100, from
    which 150 is removed. *)
Lemma RemoveWeight_spec_witness :
  GetValidator one_staker 7 1 = Some 1%positive ∧
  GetValidator (RemoveWeight one_staker 7 1 150).1 7 1 = None ∧
  NumNets (RemoveWeight one_staker 7 1 150).1 = 0%nat.
Proof.
  assert (Hget : GetValidator one_staker 7 1 = Some 1%positive) by reflexivity.
  destruct (RemoveWeight_spec one_staker 7 1 150 1%positive Hget)
    as (_ & Hclamp & _).
  destruct Hclamp as (_ & _ & Hgone & _ & Hlast & _).
  - vm_compute. discriminate.
  - split; [exact Hget|]. split; [exact Hgone|].
    destruct Hlast as (_ & _ & Hnets); [reflexivity|].
    apply (inj S). exact Hnets.
Defined.

Example RemoveWeight_lifecycle :
  GetValidator (RemoveWeight one_staker 7 1 100).1 7 1 = None ∧
  NumNets (RemoveWeight one_staker 7 1 100).1 = 0%nat ∧
  GetValidator (RemoveWeight one_staker 7 1 150).1 7 1 = None ∧
  NumNets (RemoveWeight one_staker 7 1 150).1 = 0%nat ∧
  GetWeight (RemoveWeight one_staker 7 1 30).1 7 1 = 70 ∧
  Count (RemoveWeight two_stakers 7 1 100).1 7 = 1%nat ∧
  NumNets (RemoveWeight two_stakers 7 1 100).1 = 1%nat.
Proof. vm_compute. done. Qed.

(** C7, the theorem on a sequence of calls that stores no zero. *)
Lemma registry_no_zero_weight_witness :
  all_positive
    (run_calls [CallAddStaker 7 1 [] 0 100; CallAddWeight 7 1 50;
                CallRemoveWeight 7 1 120; CallAddStaker 7 2 [] 0 5;
                CallRemoveWeight 7 2 9]).
Proof.
  apply registry_no_zero_weight. simpl.
  repeat split; try (unfold uint64, MaxUint64; lia); try done.
  intros p Hp. vm_compute in Hp. injection Hp as <-. vm_compute. discriminate.
Defined.

(** C7, the claim as it is written fails: a staker added with the weight
    zero is stored with that weight, and so is a record whose weight
    AddWeight wraps around to zero. *)
Lemma zero_weight_is_stored :
  call_ok (CallAddStaker 7 1 [] 0 0) ∧
  ¬ all_positive (run_calls [CallAddStaker 7 1 [] 0 0]) ∧
  Forall call_ok [CallAddStaker 7 1 [] 0 1; CallAddWeight 7 1 MaxUint64] ∧
  ¬ all_positive (run_calls [CallAddStaker 7 1 [] 0 1; CallAddWeight 7 1 MaxUint64]).
Proof.
  split; [unfold call_ok, uint64, MaxUint64; lia|]. split; [|split].
  - intros H. destruct (H 7 1 1%positive) as [Hpos _]; [reflexivity|].
    vm_compute in Hpos. discriminate.
  - repeat constructor; unfold call_ok, uint64, MaxUint64; lia.
  - intros H. destruct (H 7 1 1%positive) as [Hpos _]; [reflexivity|].
    vm_compute in Hpos. discriminate.
Qed.

(** C8, the theorem on the registry with the one node of weight 100. *)
Lemma GetMap_copies_the_map_witness :
  reads_agree one_staker
    (foldl (run_map_op (GetMap one_staker 7).2) (GetMap one_staker 7).1
           [map_delete 1; map_store 9 1%positive; map_clear]).
Proof.
  destruct (GetMap_copies_the_map one_staker 7) as (_ & _ & _ & Hops).
  - exact (wf_run_calls [CallAddStaker 7 1 [] 0 100]).
  - apply Hops.
Defined.

(** C8, the claim as it is written fails: the record reached through the
    returned map is the record of the registry.  On the registry with the
    node 1 of weight 100, the map GetMap returns holds for the node 1 the
    pointer GetValidator returns, and a record stored through it shows in
    GetWeight and in TotalWeight, which return 0 where they returned 100. *)
Lemma GetMap_shares_the_records :
  let s1 := (GetMap one_staker 7).1 in
  let vmap := (GetMap one_staker 7).2 in
  wf one_staker ∧
  deref_map s1 vmap !! 1 = Some 1%positive ∧
  GetValidator one_staker 7 1 = Some 1%positive ∧
  GetWeight one_staker 7 1 = 100 ∧
  TotalWeight one_staker 7 = (100, None) ∧
  GetWeight (store_record s1 1%positive zero_record) 7 1 = 0 ∧
  TotalWeight (store_record s1 1%positive zero_record) 7 = (0, None) ∧
  ¬ reads_agree one_staker (store_record s1 1%positive zero_record).
Proof.
  cbv zeta. split; [exact (wf_run_calls [CallAddStaker 7 1 [] 0 100])|].
  split; [reflexivity|]. split; [reflexivity|]. split; [reflexivity|].
  split; [reflexivity|]. split; [reflexivity|]. split; [reflexivity|].
  intros (_ & H). destruct (H 7) as (_ & _ & Htotal & _).
  vm_compute in Htotal. discriminate.
Qed.

End Examples.

(** ** The further theorems at concrete snapshots and registries *)

Module MoreExamples.
Import ToyBLS Manager ManagerProps ManagerMore.

Local Abbreviation A := (vdr 1 keyX 100).
Local Abbreviation B := (vdr 2 keyX 200).
Local Abbreviation C := (vdr 3 [] 50).
Local Abbreviation AB := (CanonicalValidator.mk keyX (keyX ++ keyX) 300 [1; 2]).
Local Abbreviation w := (λ n : N, CanonicalValidator.mk () [] n []).

Local Ltac weights := repeat constructor; unfold uint64, MaxUint64; simpl; lia.

(** X2 at the snapshot [A], [B], [C] and its one canonical validator. *)
Lemma FlattenValidatorSet_entries_witness :
  CanonicalValidator.NodeIDs AB
    = GetValidatorOutput.NodeID
        <$> group PublicKeyFromCompressedBytes PublicKeyToUncompressedBytes
              (CanonicalValidator.PublicKeyBytes AB) [A; B; C] ∧
  CanonicalValidator.Weight AB
    <= CanonicalValidatorSet.TotalWeight (Flatten [A; B; C]).1.
Proof.
  destruct (FlattenValidatorSet_entries
              PublicKeyFromCompressedBytes PublicKeyToUncompressedBytes
              [A; B; C] (Flatten [A; B; C]).1 AB)
    as (_ & _ & Hids & _ & _ & Hle).
  - weights.
  - reflexivity.
  - vm_compute. apply list_elem_of_here.
  - split; [exact Hids|exact Hle].
Defined.

(** X3 at the snapshot [A], [B], [C]. *)
Lemma FlattenValidatorSet_node_ids_witness :
  concat (CanonicalValidator.NodeIDs
            <$> CanonicalValidatorSet.Validators (Flatten [A; B; C]).1)
    ≡ₚ GetValidatorOutput.NodeID
         <$> filter (λ vdr, is_Some (key_of PublicKeyFromCompressedBytes
                                       PublicKeyToUncompressedBytes vdr))
               [A; B; C].
Proof.
  destruct (FlattenValidatorSet_node_ids
              PublicKeyFromCompressedBytes PublicKeyToUncompressedBytes
              [A; B; C] (Flatten [A; B; C]).1) as [Hperm _].
  - weights.
  - reflexivity.
  - exact Hperm.
Defined.

(** X4 at the snapshot [A], [B], [C] with the bit 0 set. *)
Lemma signers_weight_bounded_witness :
  SumWeight [AB] = (sum_cv_weights [AB], None) ∧
  sum_cv_weights [AB]
    <= sum_cv_weights (CanonicalValidatorSet.Validators (Flatten [A; B; C]).1) ∧
  sum_cv_weights [AB] <= CanonicalValidatorSet.TotalWeight (Flatten [A; B; C]).1.
Proof.
  apply (signers_weight_bounded
           PublicKeyFromCompressedBytes PublicKeyToUncompressedBytes
           [A; B; C] (Flatten [A; B; C]).1 1 [AB]).
  - weights.
  - reflexivity.
  - reflexivity.
Defined.

(** X5 at four validators with the bits 0 and 2 set. *)
Lemma FilterValidators_keeps_order_witness :
  [w 100; w 300] `sublist_of` [w 100; w 200; w 300; w 400] ∧
  Nat.le (length [w 100; w 300]) (length [w 100; w 200; w 300; w 400]).
Proof.
  destruct (FilterValidators_keeps_order 5 [w 100; w 200; w 300; w 400]
              [w 100; w 300]) as (Hsub & Hlen & _).
  - reflexivity.
  - split; [exact Hsub|exact Hlen].
Defined.

(** X7 at two validators in their two orders. *)
Lemma SumWeight_permutation_witness :
  SumWeight [w 100; w 200] = SumWeight [w 200; w 100].
Proof.
  apply SumWeight_permutation.
  - weights.
  - apply perm_swap.
Defined.

(** X8 at the record of the node 1 after an AddStaker and an AddWeight. *)
Lemma records_stay_consistent_witness :
  let s := run_calls [CallAddStaker 7 1 [] 0 100; CallAddWeight 7 1 50] in
  GetValidatorOutput.NodeID (deref s 1%positive) = 1 ∧
  GetValidatorOutput.Weight (deref s 1%positive)
    = GetValidatorOutput.Light (deref s 1%positive) ∧
  GetValidatorOutput.Light (deref s 1%positive) <= MaxUint64.
Proof.
  apply (records_stay_consistent
           [CallAddStaker 7 1 [] 0 100; CallAddWeight 7 1 50] 7 1 1%positive).
  - repeat constructor; unfold call_ok, uint64, MaxUint64; lia.
  - reflexivity.
Defined.

(** X9 at the registry with the node 1, to which the node 2 is added. *)
Lemma AddStaker_then_read_witness :
  GetWeight (AddStaker one_staker 7 2 [] 0 200).1 7 2 = 200 ∧
  Count (AddStaker one_staker 7 2 [] 0 200).1 7 = 2%nat ∧
  NumNets (AddStaker one_staker 7 2 [] 0 200).1 = 1%nat.
Proof.
  destruct (AddStaker_then_read one_staker 7 2 [] 0 200)
    as (_ & _ & _ & _ & Hweight & _ & _ & Hcount & Hnets).
  - exact (wf_run_calls [CallAddStaker 7 1 [] 0 100]).
  - split; [exact Hweight|]. split; [exact Hcount|exact Hnets].
Defined.

(** X11 at the node 1 of weight 100, with 50 added and removed. *)
Lemma AddWeight_then_RemoveWeight_witness :
  (RemoveWeight (AddWeight one_staker 7 1 50).1 7 1 50).1 = one_staker.
Proof.
  destruct (AddWeight_then_RemoveWeight one_staker 7 1 50 1%positive) as [Hback _].
  - exact (wf_run_calls [CallAddStaker 7 1 [] 0 100]).
  - reflexivity.
  - reflexivity.
  - reflexivity.
  - vm_compute. discriminate.
  - vm_compute. discriminate.
  - apply Hback. vm_compute. discriminate.
Defined.

(** X12 at the network 7 and an AddStaker for the network 8. *)
Lemma call_leaves_other_networks_witness :
  net_reads_agree one_staker (run_call one_staker (CallAddStaker 8 1 [] 0 5)) 7 ∧
  validators (run_call one_staker (CallAddStaker 8 1 [] 0 5)) !! 7
    = validators one_staker !! 7.
Proof.
  apply (call_leaves_other_networks one_staker (CallAddStaker 8 1 [] 0 5) 7).
  - exact (wf_run_calls [CallAddStaker 7 1 [] 0 100]).
  - simpl. discriminate.
Defined.

(** X13 at the registry with the node 1, with the node 2 added and
    removed. *)
Lemma AddStaker_then_RemoveWeight_witness :
  reads_agree one_staker
    (RemoveWeight (AddStaker one_staker 7 2 [] 0 200).1 7 2 200).1.
Proof.
  apply (AddStaker_then_RemoveWeight one_staker 7 2 [] 0 200).
  - exact (wf_run_calls [CallAddStaker 7 1 [] 0 100]).
  - reflexivity.
  - right. vm_compute. discriminate.
Defined.

(** X15 at the network with the nodes 1 and 2 and the size 1. *)
Lemma Sample_spec_witness :
  length (Sample_loop 1 [] (GetValidatorIDs two_stakers 7)) = 1%nat ∧
  NoDup (Sample_loop 1 [] (GetValidatorIDs two_stakers 7)) ∧
  Sample two_stakers 7 1
    = Some (Sample_loop 1 [] (GetValidatorIDs two_stakers 7), None).
Proof.
  destruct (Sample_spec two_stakers 7 1 (GetValidatorIDs two_stakers 7))
    as (_ & Hlen & Hnodup & _ & _ & Hsample).
  - reflexivity.
  - reflexivity.
  - split; [exact Hlen|]. split; [exact Hnodup|exact Hsample].
Defined.

(** X17 at the network with the nodes 1 and 2. *)
Lemma List_lists_the_validators_witness :
  let s := run_calls [CallAddStaker 7 1 [] 0 100; CallAddStaker 7 2 [] 0 200] in
  length (List s (GetValidators s 7).1) = Count s 7 ∧
  NoDup (ValidatorImpl_NodeID <$> List s (GetValidators s 7).1).
Proof.
  destruct (List_lists_the_validators
              [CallAddStaker 7 1 [] 0 100; CallAddStaker 7 2 [] 0 200] 7)
    as (Hlen & _ & Hnodup & _).
  - repeat constructor; unfold call_ok, uint64, MaxUint64; lia.
  - split; [exact Hlen|exact Hnodup].
Defined.

(** X18 at the set of the network 7, got before the node 2 is added. *)
Lemma GetValidators_is_a_view_witness :
  let set := (GetValidators one_staker 7).1 in
  let s' := run_call one_staker (CallAddStaker 7 2 [] 0 200) in
  Set_validators set = validators s' !! 7 ∧
  Len s' set = Count s' 7 ∧
  (Has s' set 2 = true ↔ is_Some (GetValidator s' 7 2)) ∧
  (Light s' set, None) = TotalLight s' 7.
Proof.
  destruct (GetValidators_is_a_view one_staker (CallAddStaker 7 2 [] 0 200) 7)
    as (_ & Hmap & Hlen & Hhas & Hlight).
  - exists 1%positive. reflexivity.
  - exists 1%positive. reflexivity.
  - split; [exact Hmap|]. split; [exact Hlen|]. split; [exact (Hhas 2)|exact Hlight].
Defined.

(** X19 at the set of the network 7, whose one node is removed before the
    node 2 is added. *)
Lemma GetValidators_set_outlives_network_witness :
  let set := (GetValidators one_staker 7).1 in
  let s2 := (AddStaker (RemoveWeight one_staker 7 1 100).1 7 2 [] 0 5).1 in
  Len s2 set = 0%nat ∧ Count s2 7 = 1%nat.
Proof.
  destruct (GetValidators_set_outlives_network one_staker 7 1 2 [] 0 100 5 1%positive)
    as (Hlen & _ & _ & Hcount & _).
  - exact (wf_run_calls [CallAddStaker 7 1 [] 0 100]).
  - reflexivity.
  - reflexivity.
  - vm_compute. discriminate.
  - split; [exact Hlen|exact Hcount].
Defined.

(** X20 at the new manager and the network 7. *)
Lemma GetValidators_empty_set_is_no_view_witness :
  let set := (GetValidators NewManager 7).1 in
  let s1 := (AddStaker NewManager 7 1 [] 0 100).1 in
  Len s1 set = 0%nat ∧ Count s1 7 = 1%nat.
Proof.
  destruct (GetValidators_empty_set_is_no_view NewManager 7 1 [] 0 100)
    as (Hlen & _ & _ & _ & Hcount & _).
  - exact wf_NewManager.
  - reflexivity.
  - split; [exact Hlen|exact Hcount].
Defined.

(** X21 at a registry built with an AddWeight for a network it holds. *)
Lemma registry_has_no_empty_network_witness :
  let s := run_calls [CallAddStaker 7 1 [] 0 100; CallAddWeight 7 1 50] in
  is_Some (validators s !! 7) ↔ Count s 7 ≠ 0%nat.
Proof.
  apply (registry_has_no_empty_network
           [CallAddStaker 7 1 [] 0 100; CallAddWeight 7 1 50]).
  simpl. split; [done|]. split; [|done]. exists 1%positive. reflexivity.
Defined.

(** X23 at the network 7 with the nodes 1 and 2 under one key. *)
Lemma registry_network_flattens_witness :
  let s := run_calls [CallAddStaker 7 1 keyX 0 100; CallAddStaker 7 2 keyX 0 200] in
  (sum_weights (snapshot s 7) <= MaxUint64 ∧
   ∃ cvs, Flatten (snapshot s 7) = (cvs, None) ∧
          CanonicalValidatorSet.TotalWeight cvs = (TotalWeight s 7).1 ∧
          (TotalWeight s 7).1 = sum_weights (snapshot s 7)) ∨
  (MaxUint64 < sum_weights (snapshot s 7) ∧
   Flatten (snapshot s 7)
     = (CanonicalValidatorSet.zero, Some (Errorf2 ErrWeightOverflow ErrOverflow)) ∧
   (TotalWeight s 7).1 = sum_weights (snapshot s 7) mod 2 ^ 64).
Proof.
  apply (RegistryFlatten.registry_network_flattens
           PublicKeyFromCompressedBytes PublicKeyToUncompressedBytes
           [CallAddStaker 7 1 keyX 0 100; CallAddStaker 7 2 keyX 0 200] 7).
  - repeat constructor; unfold call_ok, uint64, MaxUint64; lia.
  - reflexivity.
Defined.

End MoreExamples.
